(** * Wiring panel of the simulation dashboard, and the solver/world lifecycle

    A shallow embedding of the pure helpers of [WiringPanel.tsx]
    ([parseRef], [normalizeWiring], [wiringToEdges], [edgesToWiring],
    [applyRawJson]) together with the reference fixed-step solver and the
    world lifecycle, and the properties the specification states about them.
    Simulated time is a binary64 number, as a Python [float] is.

    JavaScript strings are modelled by [string]: one character stands for one
    UTF-16 code unit.  Nothing below depends on the range of a code unit. *)

From Stdlib Require Import ZArith QArith Qabs Qpower Bool List Ascii String.
From Stdlib Require Import Lia Lqa Floats.
From Stdlib Require Import Permutation Sorted DecimalString.
From Stdlib Require DecimalPos DecimalN.
Import ListNotations.

Set Warnings "-register-all".

Local Open Scope string_scope.
Local Open Scope Z_scope.

(** ** JavaScript string primitives used by the panel *)

Module JsString.

(** [s.length] *)
Definition len (s : string) : Z := Z.of_nat (String.length s).

(** [s.indexOf(c)] for a one-character needle: the index of the first
    occurrence, or [-1]. *)
Fixpoint indexOf (s : string) (c : ascii) : Z :=
  match s with
  | EmptyString => -1
  | String a s' =>
      if Ascii.eqb a c then 0
      else let i := indexOf s' c in
           if i <? 0 then -1 else i + 1
  end.

(** Relative index resolution of [String.prototype.slice]: a negative index
    counts from the end, and the result is clamped to [0, length]. *)
Definition clampIndex (n : Z) (i : Z) : Z :=
  if i <? 0 then Z.max (n + i) 0 else Z.min i n.

(** [s.slice(b, e)] *)
Definition slice (s : string) (b e : Z) : string :=
  let from := clampIndex (len s) b in
  let to := clampIndex (len s) e in
  substring (Z.to_nat from) (Z.to_nat (Z.max (to - from) 0)) s.

(** [s.slice(b)] *)
Definition sliceFrom (s : string) (b : Z) : string :=
  slice s b (len s).

(** The character [c] occurs in [s]. *)
Fixpoint occurs (c : ascii) (s : string) : bool :=
  match s with
  | EmptyString => false
  | String a s' => Ascii.eqb a c || occurs c s'
  end.

(** Lexicographic comparison by code units: the order of [<] on strings and
    of [Array.prototype.sort] without a comparator. *)
Fixpoint compare (a b : string) : comparison :=
  match a, b with
  | EmptyString, EmptyString => Eq
  | EmptyString, String _ _ => Lt
  | String _ _, EmptyString => Gt
  | String x a', String y b' =>
      match N.compare (N_of_ascii x) (N_of_ascii y) with
      | Eq => compare a' b'
      | o => o
      end
  end.

End JsString.

Definition dot : ascii := "."%char.

(** ** Port references *)

Record Ref : Type := mkRef { module : string; port : string }.

(** [parseRef]: split at the first ['.']; both halves must be non-empty. *)
Definition parseRef (ref : string) : option Ref :=
  let idx := JsString.indexOf ref dot in
  if (idx <=? 0) || (idx >=? JsString.len ref - 1) then None
  else Some {| module := JsString.slice ref 0 idx;
               port := JsString.sliceFrom ref (idx + 1) |}.

(** [s] reads [h], then its first ['.'], then [t]. *)
Definition firstDotSplit (s h t : string) : Prop :=
  s = h ++ String dot t /\ JsString.occurs dot h = false.

(** ** JSON values, as [JSON.parse] produces them *)

Inductive JSON : Type :=
| JNull
| JBool (b : bool)
| JNumber (x : float)
| JString (s : string)
| JArray (items : list JSON)
| JObject (fields : list (string * JSON)).

(** [typeof v] *)
Definition typeof (v : JSON) : string :=
  match v with
  | JNull => "object"
  | JBool _ => "boolean"
  | JNumber _ => "number"
  | JString _ => "string"
  | JArray _ => "object"
  | JObject _ => "object"
  end.

(** [ToBoolean v]: [null], [false], [0], [NaN] and the empty string are falsy. *)
Definition truthy (v : JSON) : bool :=
  match v with
  | JNull => false
  | JBool b => b
  | JNumber x => negb (PrimFloat.eqb x 0%float || PrimFloat.is_nan x)
  | JString s => negb (s =? "")%string
  | JArray _ => true
  | JObject _ => true
  end.

(** [Array.isArray v] *)
Definition isArray (v : JSON) : bool :=
  match v with
  | JArray _ => true
  | _ => false
  end.

(** A non-null object: a value whose [typeof] is ["object"] and that is not
    [null].  Arrays are objects. *)
Definition isObject (v : JSON) : bool :=
  match v with
  | JArray _ => true
  | JObject _ => true
  | _ => false
  end.

(** Property read [v.key] on a parsed value; [None] is [undefined].  The keys
    read by the panel ([from], [to], [targets]) exist on no prototype, so
    only the own fields of an object answer. *)
Fixpoint lookupField (key : string) (fields : list (string * JSON)) : option JSON :=
  match fields with
  | [] => None
  | (k, v) :: rest => if (k =? key)%string then Some v else lookupField key rest
  end.

Definition getProp (v : JSON) (key : string) : option JSON :=
  match v with
  | JObject fields => lookupField key fields
  | _ => None
  end.

(** [a ?? b] *)
Definition nullish (a b : option JSON) : option JSON :=
  match a with
  | None => b
  | Some JNull => b
  | Some _ => a
  end.

(** ** Wiring entries and graph edges *)

(** Thrown [Error]s are modelled by their message. *)
Definition Result (A : Type) : Type := (string + A)%type.

Definition notArrayMessage : string := "Wiring must be a JSON array.".

(** [normalizeWiring] *)
Definition normalizeWiring (raw : JSON) : Result (list JSON) :=
  match raw with
  | JArray items =>
      inr (filter (fun entry => truthy entry && (typeof entry =? "object")%string) items)
  | _ => inl notArrayMessage
  end.

Record EdgeStyle : Type := mkStyle { stroke : string; strokeWidth : Z }.

(** The fields of an [Edge] of the flow library that the panel sets or
    reads.  A handle may be [null] or absent: [None]. *)
Record Edge : Type := mkEdge {
  id : string;
  source : string;
  sourceHandle : option string;
  target : string;
  targetHandle : option string;
  type : option string;
  style : option EdgeStyle
}.

(** Decimal rendering of the edge counter in a template literal. *)
Definition showSeq (n : N) : string := NilZero.string_of_uint (N.to_uint n).

Definition wiredEdge (edgeSeq : N) (srcRef dstRef : string) (src dst : Ref) : Edge :=
  {| id := "w-" ++ showSeq edgeSeq ++ "-" ++ srcRef ++ "->" ++ dstRef;
     source := module src;
     sourceHandle := Some (port src);
     target := module dst;
     targetHandle := Some (port dst);
     type := Some "smoothstep";
     style := Some (mkStyle "#6b7280" 2) |}.

(** [typeof entry.from === 'string' ? entry.from : ''] *)
Definition srcRefOf (entry : JSON) : string :=
  match getProp entry "from" with
  | Some (JString s) => s
  | _ => ""
  end.

(** [entry.to ?? entry.targets], then a single string becomes a one-element
    list, an array is taken as it is, anything else is the empty list. *)
Definition dstRefsOf (entry : JSON) : list JSON :=
  match nullish (getProp entry "to") (getProp entry "targets") with
  | Some (JString s) => [JString s]
  | Some (JArray items) => items
  | _ => []
  end.

(** An entry [{ from: s, to: [...] }]. *)
Definition entryOf (s : string) (dsts : list JSON) : JSON :=
  JObject [("from", JString s); ("to", JArray dsts)].

(** The loop state of [wiringToEdges]: the edges pushed so far and [edgeSeq]. *)
Definition EdgeAcc : Type := (list Edge * N)%type.

(** Body of the inner loop: a destination that is not a string, or does not
    parse, is passed over ([continue]). *)
Definition pushDst (srcRef : string) (src : Ref) (acc : EdgeAcc) (dstRef : JSON) : EdgeAcc :=
  match dstRef with
  | JString d =>
      match parseRef d with
      | None => acc
      | Some dst =>
          let edgeSeq := (snd acc + 1)%N in
          ((fst acc ++ [wiredEdge edgeSeq srcRef d src dst])%list, edgeSeq)
      end
  | _ => acc
  end.

(** Body of the outer loop: an entry whose source does not parse is passed
    over ([continue]). *)
Definition pushEntry (acc : EdgeAcc) (entry : JSON) : EdgeAcc :=
  let srcRef := srcRefOf entry in
  let dstRefs := dstRefsOf entry in
  match parseRef srcRef with
  | None => acc
  | Some src => fold_left (pushDst srcRef src) dstRefs acc
  end.

(** [wiringToEdges] *)
Definition wiringToEdges (rawWiring : JSON) : Result (list Edge) :=
  match normalizeWiring rawWiring with
  | inl err => inl err
  | inr wiring => inr (fst (fold_left pushEntry wiring ([], 0%N)))
  end.

(** ** Grouping edges back into wiring entries *)

(** A JavaScript [Set] of strings: insertion-ordered, without duplicates. *)
Definition StrSet : Type := list string.

Definition setHas (x : string) (s : StrSet) : bool :=
  existsb (String.eqb x) s.

(** [s.add(x)] *)
Definition setAdd (x : string) (s : StrSet) : StrSet :=
  if setHas x s then s else (s ++ [x])%list.

(** A JavaScript [Map] from strings to sets: insertion-ordered by key. *)
Definition Grouped : Type := list (string * StrSet).

(** [m.has(k)] *)
Definition mapHas (k : string) (m : Grouped) : bool :=
  existsb (fun kv => (fst kv =? k)%string) m.

(** [m.set(k, v)]: a new key goes last, a known key keeps its place. *)
Fixpoint mapSet (k : string) (v : StrSet) (m : Grouped) : Grouped :=
  match m with
  | [] => [(k, v)]
  | (k', v') :: rest =>
      if (k' =? k)%string then (k', v) :: rest else (k', v') :: mapSet k v rest
  end.

(** [m.get(k)!.add(x)]: the set is the one held by the map and is updated in
    place. *)
Fixpoint mapAddTo (k : string) (x : string) (m : Grouped) : Grouped :=
  match m with
  | [] => []
  | (k', s) :: rest =>
      if (k' =? k)%string then (k', setAdd x s) :: rest
      else (k', s) :: mapAddTo k x rest
  end.

(** [!handle]: [null], [undefined] and the empty string are falsy. *)
Definition noHandle (h : option string) : bool :=
  match h with
  | None => true
  | Some s => (s =? "")%string
  end.

(** The value a handle has inside a template literal once [noHandle] has
    been excluded. *)
Definition handleText (h : option string) : string :=
  match h with
  | None => ""
  | Some s => s
  end.

(** [`${edge.source}.${edge.sourceHandle}`] *)
Definition fromOf (e : Edge) : string :=
  source e ++ "." ++ handleText (sourceHandle e).

(** [`${edge.target}.${edge.targetHandle}`] *)
Definition toOf (e : Edge) : string :=
  target e ++ "." ++ handleText (targetHandle e).

(** The two statements [if (!grouped.has(from)) grouped.set(from, new Set())]
    and [grouped.get(from)!.add(to)]. *)
Definition groupPair (grouped : Grouped) (from to : string) : Grouped :=
  let grouped' := if mapHas from grouped then grouped else mapSet from [] grouped in
  mapAddTo from to grouped'.

(** Body of the loop of [edgesToWiring]. *)
Definition groupEdge (grouped : Grouped) (edge : Edge) : Grouped :=
  if noHandle (sourceHandle edge) || noHandle (targetHandle edge) then grouped
  else groupPair grouped (fromOf edge) (toOf edge).

(** The edge [onConnect] adds between two existing handles, [stamp] being
    the text of [Date.now()]. *)
Definition connectedEdge (stamp source sourceHandle target targetHandle : string) : Edge :=
  {| id := "e-" ++ stamp;
     source := source;
     sourceHandle := Some sourceHandle;
     target := target;
     targetHandle := Some targetHandle;
     type := Some "smoothstep";
     style := Some (mkStyle "#6b7280" 2) |}.

(** [groupPair] on a pair of references. *)
Definition groupPairOf (grouped : Grouped) (p : string * string) : Grouped :=
  groupPair grouped (fst p) (snd p).

(** The (source reference, destination reference) pairs of a list of edges,
    in the order of the edges. *)
Definition pairsOf (edges : list Edge) : list (string * string) :=
  map (fun e => (fromOf e, toOf e)) edges.

(** [Array.prototype.sort]: a stable sort by the sign of the comparator.
    Stable insertion computes it; for a consistent comparator every stable
    sort returns this list. *)
Section ArraySort.

Variable A : Type.
Variable cmp : A -> A -> comparison.

Fixpoint insertSorted (x : A) (l : list A) : list A :=
  match l with
  | [] => [x]
  | y :: rest =>
      match cmp x y with
      | Gt => y :: insertSorted x rest
      | _ => x :: y :: rest
      end
  end.

Definition arraySort (l : list A) : list A :=
  fold_right insertSorted [] l.

End ArraySort.

Arguments insertSorted {A} cmp x l.
Arguments arraySort {A} cmp l.

(** [x] may stand before [y]: the comparator does not put it after. *)
Definition notAfter {A : Type} (cmp : A -> A -> comparison) (x y : A) : Prop :=
  cmp x y <> Gt.

(** A comparator never puts each of two values after the other. *)
Definition asymmetric {A : Type} (cmp : A -> A -> comparison) : Prop :=
  forall x y, cmp x y = Gt -> cmp y x <> Gt.

(** A consistent comparator, as [Array.prototype.sort] asks for one: swapping
    the arguments flips the sign, and the order is transitive.  Only for
    such a comparator is the result of the sort fixed by the language. *)
Record consistent {A : Type} (cmp : A -> A -> comparison) : Prop := mkConsistent {
  cmp_opp : forall x y, cmp y x = CompOpp (cmp x y);
  cmp_trans : forall x y z, notAfter cmp x y -> notAfter cmp y z -> notAfter cmp x z
}.

(** One entry of the wiring the panel writes back. *)
Record WiringOut : Type := mkWiring { from : string; to : list string }.

Section EdgesToWiring.

(** The sign of [a.localeCompare(b)], which depends on the host's locale. *)
Variable localeCompare : string -> string -> comparison.

(** The comparator [([a], [b]) => a.localeCompare(b)] on the entries of the
    map. *)
Definition byKey (a b : string * StrSet) : comparison :=
  localeCompare (fst a) (fst b).

(** [edgesToWiring] *)
Definition edgesToWiring (edges : list Edge) : list WiringOut :=
  let grouped := fold_left groupEdge edges [] in
  map (fun kv => {| from := fst kv; to := arraySort JsString.compare (snd kv) |})
      (arraySort byKey grouped).

End EdgesToWiring.

(** The wiring written back, as the value [JSON.parse] returns for its text. *)
Definition wiringValue (w : list WiringOut) : JSON :=
  JArray (map (fun e => JObject [("from", JString (from e));
                                 ("to", JArray (map JString (to e)))]) w).

(** The (source reference, destination reference) pairs a wiring lists, in
    order. *)
Definition wiringPairs (w : list WiringOut) : list (string * string) :=
  flat_map (fun e => map (fun d => (from e, d)) (to e)) w.

(** How many times a wiring lists the connection from [f] to [t]. *)
Definition pairCount (f t : string) (w : list WiringOut) : nat :=
  List.length
    (filter (fun p => (fst p =? f)%string && (snd p =? t)%string) (wiringPairs w)).

(** ** The flow graph of a wiring *)

(** [if (!m.has(k)) m.set(k, new Set())] *)
Definition ensureKey (k : string) (m : Grouped) : Grouped :=
  if mapHas k m then m else mapSet k [] m.

(** [s.delete(x)] *)
Definition setDelete (x : string) (s : StrSet) : StrSet :=
  filter (fun y => negb (y =? x)%string) s.

(** [m.get(k) ?? []] *)
Fixpoint mapGet (k : string) (m : Grouped) : StrSet :=
  match m with
  | [] => []
  | (k', v) :: rest => if (k' =? k)%string then v else mapGet k rest
  end.

Module Ports.

(** One value of [PortsByAlias]; an absent list is [None]. *)
Record t : Type := mk { inputs : option (list string); outputs : option (list string) }.

End Ports.

Module FlowNode.

Record Position : Type := mkPosition { x : float; y : float }.

Record Data : Type := mkData { label : string; inputs : list string; outputs : list string }.

(** A [WiringFlowNode]. *)
Record t : Type := mk { id : string; type : string; position : Position; data : Data }.

End FlowNode.

(** The sets [wiringToFlow] fills while it walks the wiring. *)
Record FlowPorts : Type := mkPorts {
  moduleIds : StrSet;
  outputsByModule : Grouped;
  inputsByModule : Grouped
}.

Definition FlowAcc : Type := (FlowPorts * EdgeAcc)%type.

(** [ports.outputs || []] *)
Definition orEmpty (l : option (list string)) : list string :=
  match l with
  | Some ports => ports
  | None => []
  end.

(** Body of the first loop of [wiringToFlow], over
    [Object.entries(portsByAlias)]. *)
Definition declarePorts (st : FlowPorts) (entry : string * Ports.t) : FlowPorts :=
  let alias := fst entry in
  let ports := snd entry in
  let outs := ensureKey alias (outputsByModule st) in
  let ins := ensureKey alias (inputsByModule st) in
  {| moduleIds := moduleIds st;
     outputsByModule :=
       fold_left (fun m p => mapAddTo alias p m) (orEmpty (Ports.outputs ports)) outs;
     inputsByModule :=
       fold_left (fun m p => mapAddTo alias p m) (orEmpty (Ports.inputs ports)) ins |}.

(** Body of the inner loop of [wiringToFlow]. *)
Definition flowDst (srcRef : string) (src : Ref) (st : FlowAcc) (dstRef : JSON) : FlowAcc :=
  match dstRef with
  | JString d =>
      match parseRef d with
      | None => st
      | Some dst =>
          let ports := fst st in
          let edgeSeq := (snd (snd st) + 1)%N in
          ({| moduleIds := setAdd (module dst) (moduleIds ports);
              outputsByModule := outputsByModule ports;
              inputsByModule :=
                mapAddTo (module dst) (port dst)
                         (ensureKey (module dst) (inputsByModule ports)) |},
           ((fst (snd st) ++ [wiredEdge edgeSeq srcRef d src dst])%list, edgeSeq))
      end
  | _ => st
  end.

(** Body of the outer loop of [wiringToFlow]. *)
Definition flowEntry (st : FlowAcc) (entry : JSON) : FlowAcc :=
  let srcRef := srcRefOf entry in
  let dstRefs := dstRefsOf entry in
  match parseRef srcRef with
  | None => st
  | Some src =>
      let ports := fst st in
      let ports' :=
        {| moduleIds := setAdd (module src) (moduleIds ports);
           outputsByModule :=
             mapAddTo (module src) (port src)
                      (ensureKey (module src) (outputsByModule ports));
           inputsByModule := inputsByModule ports |} in
      fold_left (flowDst srcRef src) dstRefs (ports', snd st)
  end.

(** [prevById.get(id)?.position ?? { x: 0, y: 0 }]: of several earlier nodes
    with one id the [Map] keeps the last. *)
Fixpoint prevPosition (id : string) (prevNodes : list FlowNode.t) : FlowNode.Position :=
  match prevNodes with
  | [] => FlowNode.mkPosition 0 0
  | n :: rest =>
      if existsb (fun m => (FlowNode.id m =? id)%string) rest then prevPosition id rest
      else if (FlowNode.id n =? id)%string then FlowNode.position n
      else FlowNode.mkPosition 0 0
  end.

Record Flow : Type := mkFlow {
  nodes : list FlowNode.t;
  edges : list Edge;
  needsLayout : bool
}.

(** [wiringToFlow]; [portsByAlias] is given by its entries, in the order of
    [Object.entries]. *)
Definition wiringToFlow (wiring : list JSON) (baseModules : list string)
    (portsByAlias : list (string * Ports.t)) (hiddenModules : StrSet)
    (prevNodes : list FlowNode.t) : Flow :=
  let ids := fold_left (fun s m => setAdd m s) (baseModules ++ map fst portsByAlias)%list [] in
  let declared := fold_left declarePorts portsByAlias (mkPorts ids [] []) in
  let walked := fold_left flowEntry wiring (declared, ([], 0%N)) in
  let ports := fst walked in
  let shown := fold_left (fun s hidden => setDelete hidden s) hiddenModules (moduleIds ports) in
  let nodes :=
    map (fun id =>
           FlowNode.mk id "wiringNode" (prevPosition id prevNodes)
             (FlowNode.mkData id
                (arraySort JsString.compare (mapGet id (inputsByModule ports)))
                (arraySort JsString.compare (mapGet id (outputsByModule ports)))))
        shown in
  {| nodes := nodes;
     edges := fst (snd walked);
     needsLayout :=
       negb (Nat.eqb (List.length nodes) 0)
       && forallb (fun n => PrimFloat.eqb (FlowNode.x (FlowNode.position n)) 0
                            && PrimFloat.eqb (FlowNode.y (FlowNode.position n)) 0)
                  nodes |}.

(** A reference that [parseRef] accepts. *)
Definition parses (ref : string) : Prop := exists r, parseRef ref = Some r.

(** An edge as [wiringToEdges] builds them: both handles present, and both
    references read back from it well formed. *)
Definition wiredOK (e : Edge) : Prop :=
  noHandle (sourceHandle e) = false /\ noHandle (targetHandle e) = false
  /\ parses (fromOf e) /\ parses (toOf e).

(** The map holds the target [t] under the source [f]. *)
Definition groupedHas (g : Grouped) (f t : string) : Prop :=
  exists s, In (f, s) g /\ In t s.

(** The invariant of the loop of [edgesToWiring], for a property [P] of the
    references: no key twice; every set non-empty and without duplicates. *)
Definition groupOK (P : string -> Prop) (kv : string * StrSet) : Prop :=
  P (fst kv) /\ snd kv <> [] /\ NoDup (snd kv) /\ Forall P (snd kv).

Definition groupedOK (P : string -> Prop) (g : Grouped) : Prop :=
  NoDup (map fst g) /\ Forall (groupOK P) g.

(** Some edge that carries both handles joins [f] to [t]; the edges without
    a handle are passed over. *)
Definition listed (edges : list Edge) (f t : string) : Prop :=
  exists e, In e edges
            /\ noHandle (sourceHandle e) || noHandle (targetHandle e) = false
            /\ fromOf e = f /\ toOf e = t.

(** What the invariant asks of an edge that has both handles. *)
Definition edgeOK (P : string -> Prop) (e : Edge) : Prop :=
  noHandle (sourceHandle e) = false -> noHandle (targetHandle e) = false ->
  P (fromOf e) /\ P (toOf e).

(** A wiring in normal form: grouped by source reference (no source twice),
    the sources in the order of [localeCompare], every target list non-empty,
    without duplicates and in code-unit order, and every reference well
    formed. *)
Record Normal (localeCompare : string -> string -> comparison) (w : list WiringOut) : Prop :=
  mkNormal {
    normal_grouped : NoDup (map from w);
    normal_sources : Sorted (fun a b => notAfter localeCompare (from a) (from b)) w;
    normal_entries :
      Forall (fun e => parses (from e)
                       /\ to e <> []
                       /\ NoDup (to e)
                       /\ Sorted (notAfter JsString.compare) (to e)
                       /\ Forall parses (to e)) w
  }.

(** ** Applying the raw JSON draft *)

(** [localStorage] *)
Definition Storage : Type := list (string * string).

(** The state [applyRawJson] reads and writes: the controls of the run
    ([state.controls], updated through [actions.setControls]), the component
    state of the panel, [lastAppliedRef] and [localStorage]. *)
Record PanelState : Type := mkPanel {
  controls : list (string * string);
  lastApplied : string;
  parseError : option string;
  showRaw : bool;
  isExpanded : bool;
  rawDraft : string;
  storage : Storage
}.

(** [actions.setControls({ [name]: value })]: the patch is merged into the
    controls. *)
Fixpoint setControl (name value : string) (cs : list (string * string)) : list (string * string) :=
  match cs with
  | [] => [(name, value)]
  | (k, v) :: rest =>
      if (k =? name)%string then (k, value) :: rest
      else (k, v) :: setControl name value rest
  end.

Fixpoint getControl (name : string) (cs : list (string * string)) : option string :=
  match cs with
  | [] => None
  | (k, v) :: rest => if (k =? name)%string then Some v else getControl name rest
  end.

Section ApplyRawJson.

Variable localeCompare : string -> string -> comparison.

(** [JSON.parse]: the parsed value, or the message of the [SyntaxError]. *)
Variable JSON_parse : string -> Result JSON.

(** [JSON.stringify(wiring, null, 2)] *)
Variable stringifyWiring : list WiringOut -> string.

(** [JSON.stringify({ wiring, updatedAt: Date.now() })] *)
Variable stringifyStored : string -> string.

(** [localStorage.setItem(key, value)]; [None] when it throws. *)
Variable setItem : string -> string -> Storage -> option Storage.

Variable storageKey : string.

(** The [catch] branch. *)
Definition rejectDraft (st : PanelState) (message : string) : PanelState :=
  {| controls := controls st;
     lastApplied := lastApplied st;
     parseError := Some message;
     showRaw := true;
     isExpanded := true;
     rawDraft := rawDraft st;
     storage := storage st |}.

(** [applyRawJson] *)
Definition applyRawJson (st : PanelState) : PanelState :=
  match JSON_parse (rawDraft st) with
  | inl message => rejectDraft st message
  | inr parsed =>
      match wiringToEdges parsed with
      | inl message => rejectDraft st message
      | inr edges =>
          let nextText := stringifyWiring (edgesToWiring localeCompare edges) in
          {| controls := setControl "wiring" nextText (controls st);
             lastApplied := nextText;
             parseError := None;
             showRaw := false;
             isExpanded := isExpanded st;
             rawDraft := rawDraft st;
             storage :=
               match setItem storageKey (stringifyStored nextText) (storage st) with
               | Some stored => stored
               | None => storage st
               end |}
      end
  end.

(** What stops [applyRawJson] before it writes: the message of the error
    thrown by [JSON.parse] or by [normalizeWiring], if any. *)
Definition draftError (draft : string) : option string :=
  match JSON_parse draft with
  | inl message => Some message
  | inr parsed =>
      match normalizeWiring parsed with
      | inl message => Some message
      | inr _ => None
      end
  end.

End ApplyRawJson.

(** A stand-in for [JSON.parse] in examples: it knows the texts ["[]"] and
    ["{}"] and rejects every other text. *)
Definition sampleParse (text : string) : Result JSON :=
  if (text =? "[]")%string then inr (JArray [])
  else if (text =? "{}")%string then inr (JObject [])
  else inl "Unexpected token".

(** A stand-in for [localStorage.setItem] in examples: it always succeeds. *)
Definition sampleSetItem (key value : string) (s : Storage) : option Storage :=
  Some ((key, value) :: s).

(** ** Binary64 numbers, the [float] of Python *)

Module Binary64.

(** The rational number a finite binary64 number stands for,
    [(-1)^s * m * 2^e]; a zero stands for [0], and so do, for definiteness,
    the infinities and NaN. *)
Definition SF2Q (x : spec_float) : Q :=
  match x with
  | S754_finite s m e => (inject_Z (cond_Zopp s (Zpos m)) * 2 ^ e)%Q
  | _ => 0%Q
  end.

Definition value (x : float) : Q := SF2Q (Prim2SF x).

(** [math.isfinite(x)]: neither an infinity nor NaN. *)
Definition isfinite (x : float) : bool :=
  match Prim2SF x with
  | S754_zero _ | S754_finite _ _ _ => true
  | _ => false
  end.

(** The unit roundoff of binary64, [2^-53]. *)
Definition roundoff : Q := 1 # 9007199254740992.

(** A finite number above zero. *)
Definition Positive (x : float) : Prop :=
  exists m e, Prim2SF x = S754_finite false m e.

(** What [k] right shifts ([shr_1]) have made of the mantissa [M]: the
    quotient by [2^k], the bit shifted out last (the round bit) and whether
    anything else was shifted out (the sticky bit). *)
Definition ShrInv (M k : Z) (mrs : shr_record) : Prop :=
  0 <= shr_m mrs
  /\ exists rem,
       M = shr_m mrs * 2 ^ k + rem /\ 0 <= rem < 2 ^ k
       /\ (shr_r mrs = true <-> 2 ^ k <= 2 * rem)
       /\ (shr_s mrs = true <-> rem <> 0 /\ 2 * rem <> 2 ^ k).

(** What rounding makes of the positive number [M * 2^e]: an overflow, or a
    number [m' * 2^e'] within [2^-53] of it, relatively; [c] is an exponent
    both numbers are whole multiples of. *)
Definition Rounded (M e : Z) (r : spec_float) : Prop :=
  r = S754_infinity false
  \/ exists m' e' c,
       r = S754_finite false m' e' /\ c <= e /\ c <= e'
       /\ 2 ^ 53 * Z.abs (Zpos m' * 2 ^ (e' - c) - M * 2 ^ (e - c)) <= M * 2 ^ (e - c).

End Binary64.

(** ** The step solver and the world lifecycle *)

Module World.
Import Binary64.

Inductive BioWorldEvent : Type :=
| LOADED
| BEFORE_SIMULATION
| STEP
| AFTER_SIMULATION.

Definition eventEqb (a b : BioWorldEvent) : bool :=
  match a, b with
  | LOADED, LOADED => true
  | BEFORE_SIMULATION, BEFORE_SIMULATION => true
  | STEP, STEP => true
  | AFTER_SIMULATION, AFTER_SIMULATION => true
  | _, _ => false
  end.

(** The payload of a [STEP] event: [{'i': i, 't': t}].  Simulated time is a
    Python [float], a binary64 number. *)
Record StepPayload : Type := mkStep { i : Z; t : float }.

(** One call of [emit(event, payload)]; the lifecycle events other than
    [STEP] carry no step payload. *)
Record Emitted : Type := mkEmitted { event : BioWorldEvent; payload : option StepPayload }.

(** The summary [{'time': time, 'steps': steps}]. *)
Record Summary : Type := mkSummary { steps : Z; time : float }.

(** A solver's [simulate(steps: int, dt: float, emit)]: the calls of [emit]
    it makes, in order, and the summary it returns. *)
Definition Solver : Type := Z -> float -> list Emitted * Summary.

(** Modelled from the spec: the body of [FixedStepSolver.simulate], the
    Python solver, known only through its description.  "The reference
    fixed-step solver advances [t += dt] each step with no adaptation", emits
    [STEP] with [{'i': i, 't': t}] and returns [{'time': t, 'steps': steps}].
    [stepLoop n i t dt] is the loop [for i in range(...)] with [n] rounds to
    go, [i] the next index and [t] the time reached; [t += dt] is the
    binary64 addition. *)
Fixpoint stepLoop (n : nat) (i : Z) (t : float) (dt : float) : list Emitted * float :=
  match n with
  | O => ([], t)
  | S n' =>
      let t' := PrimFloat.add t dt in
      let (rest, tEnd) := stepLoop n' (i + 1) t' dt in
      (mkEmitted STEP (Some (mkStep i t')) :: rest, tEnd)
  end.

(** Modelled from the spec: [FixedStepSolver.simulate]; time starts at
    [0.0], and [range(steps)] is empty for a negative [steps]. *)
Definition FixedStepSolver : Solver :=
  fun steps dt =>
    let (emitted, tEnd) := stepLoop (Z.to_nat steps) 0 0%float dt in
    (emitted, mkSummary steps tEnd).

(** Modelled from the spec: the part of a [BioWorld] (the Python world,
    known only through its description) the lifecycle depends on: its solver
    and the flag [_loaded_emitted]. *)
Record BioWorld : Type := mkWorld { solver : Solver; _loaded_emitted : bool }.

(** A new world has emitted nothing. *)
Definition newWorld (s : Solver) : BioWorld := mkWorld s false.

(** Modelled from the spec: [BioWorld.simulate(steps, dt)].  "Idle, (first
    simulate call), emits LOADED, BEFORE_SIMULATION, STEP x N,
    AFTER_SIMULATION, Idle.  Subsequent simulate calls skip LOADED (already
    emitted) but repeat BEFORE_SIMULATION ... AFTER_SIMULATION."  The result
    is the world after the call, the events delivered to a listener, in
    order, and the solver's summary. *)
Definition simulate (w : BioWorld) (steps : Z) (dt : float)
  : BioWorld * list Emitted * Summary :=
  let loaded := if _loaded_emitted w then [] else [mkEmitted LOADED None] in
  let (stepped, summary) := solver w steps dt in
  (mkWorld (solver w) true,
   (loaded ++ [mkEmitted BEFORE_SIMULATION None] ++ stepped
      ++ [mkEmitted AFTER_SIMULATION None])%list,
   summary).

(** Consecutive [simulate] calls on one world, with the events of all of
    them in order. *)
Fixpoint simulateAll (w : BioWorld) (calls : list (Z * float)) : BioWorld * list Emitted :=
  match calls with
  | [] => (w, [])
  | (steps, dt) :: rest =>
      let '(w', emitted, _) := simulate w steps dt in
      let (w'', later) := simulateAll w' rest in
      (w'', (emitted ++ later)%list)
  end.

(** How often an event kind occurs in a trace. *)
Definition occurrences (e : BioWorldEvent) (trace : list Emitted) : nat :=
  List.length (filter (fun x => eventEqb (event x) e) trace).

(** The time [k] rounds of [t += dt] lead to from [t]: the sum
    [((t + dt) + dt) + ...] with every addition rounded. *)
Fixpoint advance (k : nat) (t dt : float) : float :=
  match k with
  | O => t
  | S k' => advance k' (PrimFloat.add t dt) dt
  end.

(** [x] is finite and equals [k * dt] up to the relative error [eps]. *)
Definition close (eps : Q) (x : float) (k : Z) (dt : float) : Prop :=
  isfinite x = true
  /\ (Qabs (value x - inject_Z k * value dt) <= eps * (inject_Z k * value dt))%Q.

(** The floating-point tolerance of a sum of [k] terms: the first addition,
    to [0.0], is exact, and each of the [k - 1] others is rounded once, with
    a relative error of [2^-53] at most.  This is about [(k - 1) * 1.1e-16]
    as long as [k] is far below [2^53]. *)
Definition tolerance (k : Z) : Q := ((1 + roundoff) ^ Z.max 0 (k - 1) - 1)%Q.

(** [x] equals [k * dt] within the floating-point tolerance. *)
Definition within (x : float) (k : Z) (dt : float) : Prop :=
  close (tolerance k) x k dt.

End World.

(** ** The rest of the panel: what the canvas writes, shows and toggles *)

(** The four fields that say what an edge joins. *)
Definition endpoints (e : Edge) : string * option string * string * option string :=
  (source e, sourceHandle e, target e, targetHandle e).

(** Both handles pass the test [!handle] of [edgesToWiring]. *)
Definition hasHandles (e : Edge) : bool :=
  negb (noHandle (sourceHandle e) || noHandle (targetHandle e)).

(** A node id the wiring format can carry: not empty and without ['.']. *)
Definition cleanId (s : string) : Prop :=
  s <> "" /\ JsString.occurs dot s = false.

(** An edge of the canvas between nodes with clean ids; an edge without a
    handle is passed over by [edgesToWiring] and may be anything. *)
Definition cleanEdge (e : Edge) : Prop :=
  hasHandles e = true -> cleanId (source e) /\ cleanId (target e).

(** The two references an edge with these endpoints is written as. *)
Definition refsOf (q : string * option string * string * option string) : string * string :=
  let '(s, sh, t, th) := q in
  (s ++ "." ++ handleText sh, t ++ "." ++ handleText th).

(** An edge read back from its own references gives its own fields. *)
Definition readsBack (e : Edge) : Prop :=
  exists src dst,
    parseRef (fromOf e) = Some src /\ parseRef (toOf e) = Some dst
    /\ source e = module src /\ sourceHandle e = Some (port src)
    /\ target e = module dst /\ targetHandle e = Some (port dst).

(** The ids of the edges are numbered from 1 in the order of the edges:
    [`w-${edgeSeq}-${srcRef}->${dstRef}`]. *)
Definition numbered (es : list Edge) : Prop :=
  forall j e,
    nth_error es j = Some e ->
    id e = "w-" ++ showSeq (N.of_nat (S j)) ++ "-" ++ fromOf e ++ "->" ++ toOf e.

(** The invariant of the loops of [wiringToEdges]: the counter is the number
    of edges pushed, and the edges are numbered and read back. *)
Definition accOK (acc : EdgeAcc) : Prop :=
  snd acc = N.of_nat (List.length (fst acc))
  /\ numbered (fst acc)
  /\ Forall readsBack (fst acc).

(** [new Set(list)] *)
Definition setOfList (l : list string) : StrSet :=
  fold_left (fun s x => setAdd x s) l [].

(** [visibleEdges]: the edges neither end of which is hidden. *)
Definition visibleEdges (edges : list Edge) (hiddenModules : StrSet) : list Edge :=
  filter (fun e => negb (setHas (source e) hiddenModules)
                   && negb (setHas (target e) hiddenModules)) edges.

(** Every set held by the map is duplicate-free. *)
Definition setsOK (m : Grouped) : Prop :=
  Forall (fun kv => NoDup (snd kv)) m.

(** The invariant of the sets [wiringToFlow] fills. *)
Definition portsOK (p : FlowPorts) : Prop :=
  NoDup (moduleIds p) /\ setsOK (outputsByModule p) /\ setsOK (inputsByModule p).

(** [q] holds all that [p] holds. *)
Definition extends (p q : FlowPorts) : Prop :=
  (forall x, In x (moduleIds p) -> In x (moduleIds q))
  /\ (forall k x, In x (mapGet k (outputsByModule p)) -> In x (mapGet k (outputsByModule q)))
  /\ (forall k x, In x (mapGet k (inputsByModule p)) -> In x (mapGet k (inputsByModule q))).

(** The sets know both ends of the edge and both its handles. *)
Definition covered (p : FlowPorts) (e : Edge) : Prop :=
  In (source e) (moduleIds p)
  /\ (forall h, sourceHandle e = Some h -> In h (mapGet (source e) (outputsByModule p)))
  /\ In (target e) (moduleIds p)
  /\ (forall h, targetHandle e = Some h -> In h (mapGet (target e) (inputsByModule p))).

(** The invariant of the loops of [wiringToFlow]. *)
Definition flowOK (st : FlowAcc) : Prop :=
  portsOK (fst st) /\ Forall (covered (fst st)) (fst (snd st)).

Module WiringLayout.

(** A [WiringLayout]; [nodes] is the [PositionMap], by its entries. *)
Record t : Type := mk {
  version : float;
  nodes : list (string * FlowNode.Position);
  hidden_modules : list string
}.

End WiringLayout.

(** [toggleHidden]: the layout it hands to [updateLayout], from the layout
    [readFallbackLayout] returned. *)
Definition toggleHidden (moduleId : string) (layoutValue : WiringLayout.t) : WiringLayout.t :=
  let hidden := setOfList (WiringLayout.hidden_modules layoutValue) in
  let hidden' :=
    if setHas moduleId hidden then setDelete moduleId hidden else setAdd moduleId hidden in
  WiringLayout.mk 1 (WiringLayout.nodes layoutValue) (arraySort JsString.compare hidden').

(** The direction argument of [ensurePort]. *)
Inductive PortDir : Type :=
| input
| output.

Definition portsOf (dir : PortDir) (data : FlowNode.Data) : list string :=
  match dir with
  | input => FlowNode.inputs data
  | output => FlowNode.outputs data
  end.

(** [{ ...data, [key]: next }] *)
Definition withPorts (dir : PortDir) (next : list string) (data : FlowNode.Data) : FlowNode.Data :=
  match dir with
  | input => FlowNode.mkData (FlowNode.label data) next (FlowNode.outputs data)
  | output => FlowNode.mkData (FlowNode.label data) (FlowNode.inputs data) next
  end.

(** The function [ensurePort] maps over the nodes. *)
Definition ensurePortNode (nodeId : string) (dir : PortDir) (port : string)
    (n : FlowNode.t) : FlowNode.t :=
  if negb (FlowNode.id n =? nodeId)%string then n
  else
    let data := FlowNode.data n in
    let list := portsOf dir data in
    if existsb (String.eqb port) list then n
    else
      let next := withPorts dir (arraySort JsString.compare (list ++ [port])%list) data in
      FlowNode.mk (FlowNode.id n) (FlowNode.type n) (FlowNode.position n) next.

(** [ensurePort], on the nodes of the canvas. *)
Definition ensurePort (nodeId : string) (dir : PortDir) (port : string)
    (prev : list FlowNode.t) : list FlowNode.t :=
  map (ensurePortNode nodeId dir port) prev.

(** [resetLayout], on the nodes of the canvas. *)
Definition resetLayout (prev : list FlowNode.t) : list FlowNode.t :=
  map (fun n => FlowNode.mk (FlowNode.id n) (FlowNode.type n)
                  (FlowNode.mkPosition 0 0) (FlowNode.data n)) prev.

(** A stand-in for [JSON.parse] in examples: it knows the text ["one"] as the
    wiring with the single connection from ["a.x"] to ["b.y"]. *)
Definition sampleParseOne (text : string) : Result JSON :=
  if (text =? "one")%string then inr (wiringValue [mkWiring "a.x" ["b.y"]])
  else inl "Unexpected token".

(** A small wiring, its declared ports and an earlier node, for examples. *)
Definition sampleWiring : list JSON :=
  [entryOf "eye.visual_stream" [JString "lgn.retina"]].

Definition samplePorts : list (string * Ports.t) :=
  [("eye", Ports.mk None (Some ["visual_stream"; "aux"]))].

Definition samplePrev : list FlowNode.t :=
  [FlowNode.mk "eye" "wiringNode" (FlowNode.mkPosition 30 45)
     (FlowNode.mkData "eye" [] ["visual_stream"])].

Section UpdateControls.

Variable localeCompare : string -> string -> comparison.
Variable stringifyWiring : list WiringOut -> string.
Variable stringifyStored : string -> string.
Variable setItem : string -> string -> Storage -> option Storage.
Variable storageKey : string.

(** [updateControlsFromEdges] *)
Definition updateControlsFromEdges (st : PanelState) (nextEdges : list Edge) : PanelState :=
  let wiring := edgesToWiring localeCompare nextEdges in
  let nextText := stringifyWiring wiring in
  {| controls := setControl "wiring" nextText (controls st);
     lastApplied := nextText;
     parseError := None;
     showRaw := showRaw st;
     isExpanded := isExpanded st;
     rawDraft := nextText;
     storage :=
       match setItem storageKey (stringifyStored nextText) (storage st) with
       | Some stored => stored
       | None => storage st
       end |}.

End UpdateControls.

(** ** Connecting two handles *)

Definition NEW_HANDLE_ID : string := "__new__".

(** A [Connection] of the flow library; [None] is [null]. *)
Record Connection : Type := mkConnection {
  connSource : option string;
  connTarget : option string;
  connSourceHandle : option string;
  connTargetHandle : option string
}.

Inductive ConnectMode : Type :=
| modeFrom
| modeTo
| modeBoth.

Module Pending.

(** A [PendingConnect]. *)
Record t : Type := mk {
  source : string;
  target : string;
  sourceHandle : string;
  targetHandle : string;
  sourcePort : string;
  targetPort : string;
  mode : ConnectMode
}.

End Pending.

(** What a connect callback goes on to do: nothing ([return]), show an
    error ([setParseError]), open the dialog ([setPendingConnect]), or make
    sure of some ports ([ensurePort], in order) and add an edge ([addEdge],
    then [updateControlsFromEdges]; [applyPendingConnect] closes the dialog
    after that). *)
Inductive ConnectEffect : Type :=
| NoEffect
| ShowError (message : string)
| OpenDialog (pending : Pending.t)
| AddEdge (ensured : list (string * PortDir * string)) (edge : Edge).

(** [!value] for a string that may be [null]. *)
Definition missing (v : option string) : bool := noHandle v.

(** [onConnect]; [stamp] is the text of [Date.now()]. *)
Definition onConnect (editingDisabled : bool) (stamp : string) (conn : Connection)
  : ConnectEffect :=
  if editingDisabled then NoEffect
  else if missing (connSource conn) || missing (connTarget conn) then NoEffect
  else if missing (connSourceHandle conn) || missing (connTargetHandle conn) then NoEffect
  else
    let source := handleText (connSource conn) in
    let target := handleText (connTarget conn) in
    let sourceHandle := handleText (connSourceHandle conn) in
    let targetHandle := handleText (connTargetHandle conn) in
    if (sourceHandle =? NEW_HANDLE_ID)%string then
      OpenDialog
        (Pending.mk source target sourceHandle targetHandle ""
           (if (targetHandle =? NEW_HANDLE_ID)%string then "" else targetHandle)
           (if (targetHandle =? NEW_HANDLE_ID)%string then modeBoth else modeFrom))
    else if (targetHandle =? NEW_HANDLE_ID)%string then
      OpenDialog (Pending.mk source target sourceHandle targetHandle sourceHandle "" modeTo)
    else AddEdge [] (connectedEdge stamp source sourceHandle target targetHandle).

(** The double quote character. *)
Definition dquote : ascii := ascii_of_N 34.

(** The message ['Port names must not include "."']. *)
Definition dotInPortMessage : string :=
  "Port names must not include " ++ String dquote ("." ++ String dquote "").

Section ApplyPendingConnect.

(** [String.prototype.trim] *)
Variable trim : string -> string.

(** [applyPendingConnect]; [stamp] is the text of [Date.now()]. *)
Definition applyPendingConnect (stamp : string) (pendingConnect : option Pending.t)
  : ConnectEffect :=
  match pendingConnect with
  | None => NoEffect
  | Some pending =>
      let sourcePort := trim (Pending.sourcePort pending) in
      let targetPort := trim (Pending.targetPort pending) in
      if JsString.occurs dot sourcePort || JsString.occurs dot targetPort then
        ShowError dotInPortMessage
      else if (sourcePort =? "")%string || (targetPort =? "")%string then NoEffect
      else
        AddEdge [(Pending.source pending, output, sourcePort);
                 (Pending.target pending, input, targetPort)]
                (connectedEdge stamp (Pending.source pending) sourcePort
                   (Pending.target pending) targetPort)
  end.

End ApplyPendingConnect.

(** ** The key the wiring is stored under *)

Section StorageKey.

(** [String(v)] for a value that is not a string. *)
Variable toText : JSON -> string.

(** [`${v || fallback}`] for a value that may be absent. *)
Definition orText (v : option JSON) (fallback : string) : string :=
  match v with
  | None => fallback
  | Some (JString s) => if (s =? "")%string then fallback else s
  | Some other => if truthy other then toText other else fallback
  end.

(** [typeof v === 'string' && v] *)
Definition nonEmptyString (v : option JSON) : option string :=
  match v with
  | Some (JString s) => if (s =? "")%string then None else Some s
  | _ => None
  end.

(** [v?.key] *)
Definition optProp (v : option JSON) (key : string) : option JSON :=
  match v with
  | Some value => getProp value key
  | None => None
  end.

(** [`simui:wiring:title:${state.spec?.title || 'default'}`] *)
Definition titleKey (title : option string) : string :=
  "simui:wiring:title:"
  ++ match title with
     | Some t => if (t =? "")%string then "default" else t
     | None => "default"
     end.

(** The id of the run in [st?.run?.id], when it is a non-empty string. *)
Definition runIdOf (st : JSON) : option string :=
  nonEmptyString (optProp (getProp st "run") "id").

(** The key [computeKey] sets; [apiState] is the value [api.state()]
    resolves to, or [None] when it rejects. *)
Definition computeKey (apiState : option JSON) (title : option string) : string :=
  match apiState with
  | None => titleKey title
  | Some st =>
      match runIdOf st with
      | Some runId => "simui:wiring:run:" ++ runId
      | None =>
          let target := getProp st "target" in
          match nonEmptyString (optProp target "spaceId") with
          | Some spaceId =>
              "simui:wiring:draft:space:" ++ spaceId ++ ":"
              ++ orText (optProp target "spaceCommit") "head"
          | None =>
              match nonEmptyString (optProp target "modelId") with
              | Some modelId =>
                  "simui:wiring:draft:model:" ++ modelId ++ ":"
                  ++ orText (optProp target "modelCommit") "head"
              | None => titleKey title
              end
          end
      end
  end.

End StorageKey.

(** ** The example module and solver of the plugin guide *)

Module Pack.

(** [payload.get(key)] on a dict given by its items; [None] is Python's
    [None]. *)
Fixpoint dictGet {V : Type} (key : string) (payload : list (string * V)) : option V :=
  match payload with
  | [] => None
  | (k, v) :: rest => if (k =? key)%string then Some v else dictGet key rest
  end.

Section Counter.

(** The values a payload may hold. *)
Variable V : Type.

(** The payload [{"count": ..., "t": ...}] of a published signal. *)
Record CountSignal : Type := mkCount { count : Z; t : option V }.

(** The world as the guide's [MockWorld] records it: the (topic, payload)
    pairs published so far, oldest first. *)
Definition Published : Type := list (string * CountSignal).

Record Counter : Type := mkCounter { name : string; _count : Z }.

(** [Counter(name)] *)
Definition newCounter (name : string) : Counter := mkCounter name 0.

(** [Counter.reset] *)
Definition reset (self : Counter) : Counter := mkCounter (name self) 0.

(** [Counter.outputs] *)
Definition outputs : list string := ["count"].

(** [Counter.on_event] *)
Definition on_event (self : Counter) (event : World.BioWorldEvent)
    (payload : list (string * V)) (world : Published) : Counter * Published :=
  match event with
  | World.STEP =>
      let self' := mkCounter (name self) (_count self + 1) in
      (self', (world ++ [("count", mkCount (_count self') (dictGet "t" payload))])%list)
  | _ => (self, world)
  end.

(** The events of a run, delivered one after the other. *)
Fixpoint deliver (self : Counter) (events : list (World.BioWorldEvent * list (string * V)))
    (world : Published) : Counter * Published :=
  match events with
  | [] => (self, world)
  | (event, payload) :: rest =>
      let (self', world') := on_event self event payload world in
      deliver self' rest world'
  end.

(** The payloads of the [STEP] events, in order. *)
Definition stepPayloads (events : list (World.BioWorldEvent * list (string * V)))
  : list (list (string * V)) :=
  map snd (filter (fun ev => World.eventEqb (fst ev) World.STEP) events).

End Counter.

Arguments mkCount {V} count t.
Arguments count {V} c.
Arguments t {V} c.
Arguments on_event {V} self event payload world.
Arguments deliver {V} self events world.
Arguments stepPayloads {V} events.

(** Python's [min(a, b)] on floats: [b] when [b < a], else [a]. *)
Definition pyMin (a b : float) : float :=
  if PrimFloat.ltb b a then b else a.

Record VariableStepSolver : Type := mkVariable {
  min_dt : float;
  max_dt : float;
  _current_dt : float
}.

(** [VariableStepSolver(min_dt, max_dt)] *)
Definition newVariableStepSolver (min_dt max_dt : float) : VariableStepSolver :=
  mkVariable min_dt max_dt max_dt.

(** The payload [{"i": i, "t": time, "dt": actual_dt}] of a [STEP] event. *)
Record VarStep : Type := mkVarStep { i : Z; time : float; dt : float }.

(** The loop [for i in range(steps)] of [VariableStepSolver.simulate], with
    [n] rounds to go. *)
Fixpoint varLoop (n : nat) (i : Z) (time actual_dt : float) : list VarStep * float :=
  match n with
  | O => ([], time)
  | S n' =>
      let time' := PrimFloat.add time actual_dt in
      let (rest, tEnd) := varLoop n' (i + 1) time' actual_dt in
      (mkVarStep i time' actual_dt :: rest, tEnd)
  end.

(** [VariableStepSolver.simulate]: the payloads of the [STEP] events it
    emits, in order, and the summary [{"time": time, "steps": steps}]. *)
Definition simulate (self : VariableStepSolver) (steps : Z) (dt : float)
  : list VarStep * (float * Z) :=
  let actual_dt := pyMin dt (max_dt self) in
  let (emitted, tEnd) := varLoop (Z.to_nat steps) 0 0%float actual_dt in
  (emitted, (tEnd, steps)).

(** The float sum [0.0 + d + ... + d] with [n] terms [d], added in order. *)
Fixpoint sumOf (n : nat) (start d : float) : float :=
  match n with
  | O => start
  | S n' => sumOf n' (PrimFloat.add start d) d
  end.

End Pack.

(** * Properties *)

(** ** Strings *)

Module JsStringFacts.
Import JsString.

Lemma length_app (a b : string) :
  String.length (a ++ b) = (String.length a + String.length b)%nat.
Proof. induction a as [|c a IH]; simpl; [reflexivity | now rewrite IH]. Qed.

Lemma substring_all (s : string) : substring 0 (String.length s) s = s.
Proof. induction s as [|c s IH]; simpl; [reflexivity | now rewrite IH]. Qed.

Lemma substring_prefix (h r : string) :
  substring 0 (String.length h) (h ++ r) = h.
Proof.
  induction h as [|c h IH]; simpl.
  - now destruct r.
  - now rewrite IH.
Qed.

Lemma substring_skip (h r : string) (n : nat) :
  substring (String.length h) n (h ++ r) = substring 0 n r.
Proof. induction h as [|c h IH]; simpl; [reflexivity | exact IH]. Qed.

Lemma indexOf_range (s : string) (c : ascii) :
  indexOf s c = -1 \/ 0 <= indexOf s c < len s.
Proof.
  unfold len. induction s as [|a s IH]; simpl; [now left|].
  destruct (Ascii.eqb a c); [right; lia|].
  destruct (indexOf s c <? 0) eqn:E; [now left|].
  apply Z.ltb_ge in E. right. lia.
Qed.

Lemma indexOf_absent (s : string) (c : ascii) :
  occurs c s = false -> indexOf s c = -1.
Proof.
  induction s as [|a s IH]; simpl; [reflexivity|].
  destruct (Ascii.eqb a c); simpl; [discriminate|].
  intros H. now rewrite (IH H).
Qed.

Lemma indexOf_first (h t : string) (c : ascii) :
  occurs c h = false -> indexOf (h ++ String c t) c = len h.
Proof.
  unfold len. induction h as [|a h IH]; simpl.
  - now rewrite Ascii.eqb_refl.
  - destruct (Ascii.eqb a c); simpl; [discriminate|].
    intros H. rewrite (IH H).
    destruct (Z.of_nat (String.length h) <? 0) eqn:E; [apply Z.ltb_lt in E|]; lia.
Qed.

(** A string in which [c] occurs splits at the first occurrence. *)
Lemma occurs_split (s : string) (c : ascii) :
  occurs c s = true ->
  exists h t, s = h ++ String c t /\ occurs c h = false.
Proof.
  induction s as [|a s IH]; simpl; [discriminate|].
  destruct (Ascii.eqb a c) eqn:E; simpl.
  - intros _. apply Ascii.eqb_eq in E. subst a. now exists "", s.
  - intros H. destruct (IH H) as (h & t & -> & Hh).
    exists (String a h), t. simpl. now rewrite E.
Qed.

Lemma occurs_app (c : ascii) (a b : string) :
  occurs c (a ++ b) = occurs c a || occurs c b.
Proof.
  induction a as [|x a IH]; simpl; [reflexivity|].
  now rewrite IH, orb_assoc.
Qed.

Lemma slice_prefix (h r : string) : slice (h ++ r) 0 (len h) = h.
Proof.
  unfold slice, clampIndex, len. rewrite length_app. simpl.
  destruct (Z.of_nat (String.length h) <? 0) eqn:E; [apply Z.ltb_lt in E; lia|].
  replace (Z.to_nat (Z.min 0 _)) with 0%nat by lia.
  replace (Z.to_nat (Z.max _ 0)) with (String.length h) by lia.
  apply substring_prefix.
Qed.

Lemma sliceFrom_suffix (h t : string) (c : ascii) :
  sliceFrom (h ++ String c t) (len h + 1) = t.
Proof.
  unfold sliceFrom, slice, clampIndex, len. rewrite length_app. simpl String.length.
  destruct (Z.of_nat (String.length h) + 1 <? 0) eqn:E; [apply Z.ltb_lt in E; lia|].
  destruct (Z.of_nat (String.length h + S (String.length t)) <? 0) eqn:E';
    [apply Z.ltb_lt in E'; lia|].
  replace (Z.to_nat (Z.min _ _)) with (String.length (h ++ String c "")).
  2:{ rewrite length_app. simpl. lia. }
  replace (Z.to_nat (Z.max _ 0)) with (String.length t) by lia.
  replace (h ++ String c t) with ((h ++ String c "") ++ t).
  2:{ clear. induction h as [|x h IH]; simpl; [reflexivity | now rewrite IH]. }
  rewrite substring_skip. apply substring_all.
Qed.

Lemma eqb_empty (s : string) : (s =? "")%string = true <-> s = "".
Proof. apply String.eqb_eq. Qed.

Lemma length_zero (s : string) : String.length s = 0%nat <-> s = "".
Proof. destruct s; simpl; split; congruence. Qed.

End JsStringFacts.

(** ** Port references *)

Section ParseRef.
Import JsString JsStringFacts.

Lemma parseRef_absent (s : string) : occurs dot s = false -> parseRef s = None.
Proof.
  intros H. unfold parseRef. rewrite (indexOf_absent _ _ H). reflexivity.
Qed.

Lemma parseRef_split (h t : string) :
  occurs dot h = false ->
  parseRef (h ++ String dot t) =
  if (h =? "")%string || (t =? "")%string then None else Some (mkRef h t).
Proof.
  intros H. unfold parseRef. rewrite (indexOf_first _ _ _ H).
  rewrite slice_prefix, sliceFrom_suffix.
  unfold len. rewrite length_app.
  change (String.length (String dot t)) with (S (String.length t)).
  assert (Hh : (Z.of_nat (String.length h) <=? 0) = (h =? "")%string)
    by (destruct h; reflexivity).
  assert (Ht : (Z.of_nat (String.length h)
                >=? Z.of_nat (String.length h + S (String.length t)) - 1)
               = (t =? "")%string).
  { rewrite Z.geb_leb. destruct t as [|b t].
    - apply Z.leb_le. simpl String.length. lia.
    - apply Z.leb_gt. simpl String.length. lia. }
  rewrite Hh, Ht. reflexivity.
Qed.

Lemma parseRef_ok (h t : string) :
  occurs dot h = false -> h <> "" -> t <> "" ->
  parseRef (h ++ String dot t) = Some (mkRef h t).
Proof.
  intros H Hh Ht. rewrite (parseRef_split _ _ H).
  destruct (h =? "")%string eqn:E1; [apply String.eqb_eq in E1; contradiction|].
  destruct (t =? "")%string eqn:E2; [apply String.eqb_eq in E2; contradiction|].
  reflexivity.
Qed.

Example parseRef_samples :
  parseRef "eye.visual_stream" = Some (mkRef "eye" "visual_stream")
  /\ parseRef "a..b" = Some (mkRef "a" ".b")
  /\ parseRef "eye" = None
  /\ parseRef ".port" = None
  /\ parseRef "eye." = None
  /\ parseRef "." = None
  /\ parseRef "" = None.
Proof. repeat split. Qed.

(** What a successful parse tells about the reference. *)
Lemma parseRef_some (s : string) (r : Ref) :
  parseRef s = Some r ->
  firstDotSplit s (module r) (port r) /\ module r <> "" /\ port r <> "".
Proof.
  intros H. destruct (occurs dot s) eqn:E.
  - destruct (occurs_split _ _ E) as (h & t & -> & Hh).
    rewrite (parseRef_split _ _ Hh) in H.
    destruct (h =? "")%string eqn:E1; [discriminate|].
    destruct (t =? "")%string eqn:E2; [discriminate|].
    injection H as <-. simpl. repeat split; trivial.
    + intros ->. discriminate.
    + intros ->. discriminate.
  - rewrite (parseRef_absent _ E) in H. discriminate.
Qed.

(** C1: [parseRef] returns no result exactly when the reference contains no
    ['.'], or the text before its first ['.'] is empty, or the text after its
    first ['.'] is empty; when it succeeds, the module alias is the text
    before the first ['.'] and the port is all the text after it. *)
Theorem parseRef_fails_iff (s : string) :
  (parseRef s = None <->
     occurs dot s = false
     \/ exists h t, firstDotSplit s h t /\ (h = "" \/ t = ""))
  /\ match parseRef s with
     | Some r => firstDotSplit s (module r) (port r)
     | None => True
     end.
Proof.
  split; [split|].
  - intros Hnone. destruct (occurs dot s) eqn:E; [right | now left].
    destruct (occurs_split _ _ E) as (h & t & -> & Hh).
    exists h, t. split; [now split|].
    rewrite (parseRef_split _ _ Hh) in Hnone.
    destruct (h =? "")%string eqn:E1; [left; now apply String.eqb_eq|].
    destruct (t =? "")%string eqn:E2; [right; now apply String.eqb_eq|].
    discriminate.
  - intros [Habs | (h & t & (-> & Hh) & Hempty)].
    + now apply parseRef_absent.
    + rewrite (parseRef_split _ _ Hh).
      destruct Hempty as [-> | ->]; [reflexivity|].
      now rewrite orb_true_r.
  - destruct (parseRef s) as [r|] eqn:E; [|exact I].
    now apply parseRef_some.
Qed.




End ParseRef.

(** ** Normalizing a wiring value and building its edges *)

Section WiringToEdges.

Lemma keep_isObject (entry : JSON) :
  truthy entry && (typeof entry =? "object")%string = isObject entry.
Proof. destruct entry; simpl; try reflexivity; apply andb_false_r. Qed.

Lemma normalizeWiring_array (items : list JSON) :
  normalizeWiring (JArray items) = inr (filter isObject items).
Proof.
  simpl. f_equal. apply filter_ext. exact keep_isObject.
Qed.

(** C10: [normalizeWiring] throws ["Wiring must be a JSON array."] exactly
    when its argument is not an array; for an array it returns, without
    error and in the original order, exactly the entries that are non-null
    objects, each as it was. *)
Theorem normalizeWiring_spec (raw : JSON) :
  (normalizeWiring raw = inl "Wiring must be a JSON array." <-> isArray raw = false)
  /\ match raw with
     | JArray items => normalizeWiring raw = inr (filter isObject items)
     | _ => normalizeWiring raw = inl "Wiring must be a JSON array."
     end.
Proof.
  split.
  - destruct raw; simpl; split; intros H; try reflexivity; discriminate.
  - destruct raw; try reflexivity. apply normalizeWiring_array.
Qed.

Example normalizeWiring_mixed :
  normalizeWiring
    (JArray [JNull; JObject [("from", JString "a.x")]; JString "a.x"; JNumber 1%float;
             JArray []; JBool true])
  = inr [JObject [("from", JString "a.x")]; JArray []].
Proof. reflexivity. Qed.

(** The outer loop of [wiringToEdges] over the normalized entries. *)
Lemma wiringToEdges_array (items : list JSON) :
  wiringToEdges (JArray items)
  = inr (fst (fold_left pushEntry (filter isObject items) ([], 0%N))).
Proof.
  unfold wiringToEdges. now rewrite normalizeWiring_array.
Qed.

Example wiringToEdges_chain :
  wiringToEdges
    (JArray [entryOf "eye.visual_stream" [JString "lgn.retina"];
             JObject [("from", JString "lgn.thalamus"); ("targets", JString "sc.vision")]])
  = inr [wiredEdge 1 "eye.visual_stream" "lgn.retina"
           (mkRef "eye" "visual_stream") (mkRef "lgn" "retina");
         wiredEdge 2 "lgn.thalamus" "sc.vision"
           (mkRef "lgn" "thalamus") (mkRef "sc" "vision")]
  /\ id (wiredEdge 2 "lgn.thalamus" "sc.vision" (mkRef "lgn" "thalamus") (mkRef "sc" "vision"))
     = "w-2-lgn.thalamus->sc.vision".
Proof. split; reflexivity. Qed.

Lemma pushEntry_malformed_source (acc : EdgeAcc) (entry : JSON) :
  parseRef (srcRefOf entry) = None -> pushEntry acc entry = acc.
Proof. intros H. unfold pushEntry. now rewrite H. Qed.

Lemma pushDst_malformed (srcRef : string) (src : Ref) (acc : EdgeAcc) (d : string) :
  parseRef d = None -> pushDst srcRef src acc (JString d) = acc.
Proof. intros H. simpl. now rewrite H. Qed.

Lemma pushEntry_entryOf (acc : EdgeAcc) (s : string) (dsts : list JSON) :
  pushEntry acc (entryOf s dsts)
  = match parseRef s with
    | None => acc
    | Some src => fold_left (pushDst s src) dsts acc
    end.
Proof. reflexivity. Qed.

Lemma flowDst_edges (srcRef : string) (src : Ref) (st : FlowAcc) (dstRef : JSON) :
  snd (flowDst srcRef src st dstRef) = pushDst srcRef src (snd st) dstRef.
Proof.
  destruct dstRef; try reflexivity. simpl.
  now destruct (parseRef s).
Qed.

Lemma fold_flowDst_edges (srcRef : string) (src : Ref) (dsts : list JSON) (st : FlowAcc) :
  snd (fold_left (flowDst srcRef src) dsts st)
  = fold_left (pushDst srcRef src) dsts (snd st).
Proof.
  revert st. induction dsts as [|d dsts IH]; intros st; simpl; [reflexivity|].
  now rewrite IH, flowDst_edges.
Qed.

Lemma fold_flowEntry_edges (wiring : list JSON) (st : FlowAcc) :
  snd (fold_left flowEntry wiring st) = fold_left pushEntry wiring (snd st).
Proof.
  revert st. induction wiring as [|e wiring IH]; intros st; simpl; [reflexivity|].
  rewrite IH. f_equal. unfold flowEntry, pushEntry.
  destruct (parseRef (srcRefOf e)); [|reflexivity].
  now rewrite fold_flowDst_edges.
Qed.

(** The two builders make the same edges of a normalized wiring. *)
Lemma wiringToFlow_edges (items : list JSON) (baseModules : list string)
    (portsByAlias : list (string * Ports.t)) (hiddenModules : StrSet)
    (prevNodes : list FlowNode.t) :
  wiringToEdges (JArray items)
  = inr (edges (wiringToFlow (filter isObject items) baseModules portsByAlias
                  hiddenModules prevNodes)).
Proof.
  rewrite wiringToEdges_array. unfold wiringToFlow. cbn [edges].
  now rewrite fold_flowEntry_edges.
Qed.

Lemma flowEntry_malformed_source (st : FlowAcc) (entry : JSON) :
  parseRef (srcRefOf entry) = None -> flowEntry st entry = st.
Proof. intros H. unfold flowEntry. now rewrite H. Qed.

(** C6, as the specification words it, fails: an entry whose source does not
    parse, and a destination that does not parse, are passed over without
    any error, by [wiringToEdges] and by [wiringToFlow] alike. *)
Lemma wiringToEdges_drops_malformed :
  parseRef "eye" = None
  /\ wiringToEdges (JArray [entryOf "eye" [JString "lgn.retina"]]) = inr []
  /\ wiringToEdges (JArray [entryOf "eye.visual_stream" [JString "lgn"]]) = inr []
  /\ edges (wiringToFlow [entryOf "eye" [JString "lgn.retina"]] [] [] [] []) = []
  /\ edges (wiringToFlow [entryOf "eye.visual_stream" [JString "lgn"]] [] [] [] []) = [].
Proof. repeat split. Qed.

(** C6, amended: building the edge set reports no malformed reference.  For
    every array [wiringToEdges] returns edges without error; an entry whose
    source reference does not parse is passed over, the result being the one
    built without that entry; a destination reference that does not parse is
    passed over, the result being the one built without that destination;
    and [wiringToFlow], which cannot fail, passes over an entry whose source
    reference does not parse in the same way. *)
Theorem wiringToEdges_skips_malformed :
  (forall items, exists edges, wiringToEdges (JArray items) = inr edges)
  /\ (forall pre entry post,
        parseRef (srcRefOf entry) = None ->
        wiringToEdges (JArray (pre ++ entry :: post))
        = wiringToEdges (JArray (pre ++ post)))
  /\ (forall pre s dsts d dsts' post,
        parseRef d = None ->
        wiringToEdges (JArray (pre ++ entryOf s (dsts ++ JString d :: dsts') :: post))
        = wiringToEdges (JArray (pre ++ entryOf s (dsts ++ dsts') :: post)))
  /\ (forall pre entry post baseModules portsByAlias hiddenModules prevNodes,
        parseRef (srcRefOf entry) = None ->
        wiringToFlow (pre ++ entry :: post) baseModules portsByAlias hiddenModules prevNodes
        = wiringToFlow (pre ++ post) baseModules portsByAlias hiddenModules prevNodes).
Proof.
  repeat split.
  - intros items. rewrite wiringToEdges_array. eauto.
  - intros pre entry post H. rewrite !wiringToEdges_array, !filter_app. simpl.
    destruct (isObject entry); [|reflexivity].
    rewrite !fold_left_app. simpl. now rewrite (pushEntry_malformed_source _ _ H).
  - intros pre s dsts d dsts' post H.
    rewrite !wiringToEdges_array, !filter_app. simpl.
    rewrite !fold_left_app. simpl. rewrite !pushEntry_entryOf.
    destruct (parseRef s) as [src|]; [|reflexivity].
    rewrite !fold_left_app. cbn [fold_left].
    now rewrite (pushDst_malformed _ _ _ _ H).
  - intros pre entry post baseModules portsByAlias hiddenModules prevNodes H.
    unfold wiringToFlow. rewrite !fold_left_app. cbn [fold_left].
    now rewrite (flowEntry_malformed_source _ _ H).
Qed.

Lemma wiringToEdges_skips_malformed_witness :
  parseRef (srcRefOf (entryOf "eye" [JString "lgn.retina"])) = None
  /\ wiringToEdges
       (JArray ([entryOf "a.x" [JString "b.y"]] ++ entryOf "eye" [JString "lgn.retina"] :: []))
     = wiringToEdges (JArray ([entryOf "a.x" [JString "b.y"]] ++ [])).
Proof.
  split; [reflexivity|].
  apply (proj1 (proj2 wiringToEdges_skips_malformed)). reflexivity.
Defined.

End WiringToEdges.

(** ** Sorting *)

Section ArraySortFacts.

Variable A : Type.
Variable cmp : A -> A -> comparison.

Lemma insertSorted_perm (x : A) (l : list A) :
  Permutation (insertSorted cmp x l) (x :: l).
Proof.
  induction l as [|y l IH]; simpl; [reflexivity|].
  destruct (cmp x y); try reflexivity.
  rewrite IH. apply perm_swap.
Qed.

Lemma arraySort_perm (l : list A) : Permutation (arraySort cmp l) l.
Proof.
  induction l as [|x l IH]; simpl; [reflexivity|].
  rewrite insertSorted_perm. now constructor.
Qed.

Lemma insertSorted_head (x : A) (l : list A) :
  HdRel (notAfter cmp) x l -> insertSorted cmp x l = x :: l.
Proof.
  intros H. destruct l as [|y l]; [reflexivity|].
  apply HdRel_inv in H. unfold notAfter in H. simpl.
  destruct (cmp x y); congruence.
Qed.

(** A list in order is left as it is. *)
Lemma arraySort_fixed (l : list A) :
  Sorted (notAfter cmp) l -> arraySort cmp l = l.
Proof.
  induction 1 as [|x l Hs IH Hd]; simpl; [reflexivity|].
  rewrite IH. now apply insertSorted_head.
Qed.

Hypothesis cmp_asym : asymmetric cmp.

Lemma insertSorted_hdrel (a x : A) (l : list A) :
  HdRel (notAfter cmp) a l -> notAfter cmp a x ->
  HdRel (notAfter cmp) a (insertSorted cmp x l).
Proof.
  intros Hd Hx. destruct l as [|y l]; simpl; [now constructor|].
  apply HdRel_inv in Hd. destruct (cmp x y); now constructor.
Qed.

Lemma insertSorted_sorted (x : A) (l : list A) :
  Sorted (notAfter cmp) l -> Sorted (notAfter cmp) (insertSorted cmp x l).
Proof.
  induction 1 as [|y l Hs IH Hd]; simpl; [repeat constructor|].
  destruct (cmp x y) eqn:E.
  - repeat constructor; trivial. unfold notAfter. congruence.
  - repeat constructor; trivial. unfold notAfter. congruence.
  - constructor; [exact IH|].
    apply insertSorted_hdrel; [exact Hd|]. now apply cmp_asym.
Qed.

Lemma arraySort_sorted (l : list A) : Sorted (notAfter cmp) (arraySort cmp l).
Proof.
  induction l as [|x l IH]; simpl; [constructor|].
  now apply insertSorted_sorted.
Qed.

End ArraySortFacts.

Module CodeUnitOrder.
Import JsString.

Lemma compare_antisym (a b : string) : compare b a = CompOpp (compare a b).
Proof.
  revert b. induction a as [|x a IH]; intros [|y b]; simpl; try reflexivity.
  rewrite (N.compare_antisym (N_of_ascii x) (N_of_ascii y)).
  destruct (N_of_ascii x ?= N_of_ascii y)%N; simpl; trivial.
Qed.

Lemma compare_asymmetric : asymmetric compare.
Proof.
  intros a b H. rewrite compare_antisym, H. discriminate.
Qed.

Lemma compare_eq (a b : string) : compare a b = Eq -> a = b.
Proof.
  revert b. induction a as [|x a IH]; intros [|y b]; simpl; try discriminate;
    [reflexivity|].
  destruct (N_of_ascii x ?= N_of_ascii y)%N eqn:E; try discriminate.
  intros H. apply N.compare_eq in E.
  f_equal; [|now apply IH].
  rewrite <- (ascii_N_embedding x), <- (ascii_N_embedding y). now rewrite E.
Qed.

Lemma compare_trans (a b c : string) :
  notAfter compare a b -> notAfter compare b c -> notAfter compare a c.
Proof.
  unfold notAfter. revert b c.
  induction a as [|x a IH]; intros [|y b] [|z c]; simpl; try congruence.
  destruct (N.compare_spec (N_of_ascii x) (N_of_ascii y)) as [Exy | Hxy | Hxy];
    try congruence;
    destruct (N.compare_spec (N_of_ascii y) (N_of_ascii z)) as [Eyz | Hyz | Hyz];
    try congruence;
    destruct (N.compare_spec (N_of_ascii x) (N_of_ascii z)) as [Exz | Hxz | Hxz];
    try congruence; try lia.
  apply IH.
Qed.

Lemma compare_consistent : consistent compare.
Proof. split; [intros a b; apply compare_antisym | exact compare_trans]. Qed.

End CodeUnitOrder.

Lemma consistent_asymmetric {A : Type} {cmp : A -> A -> comparison} :
  consistent cmp -> asymmetric cmp.
Proof.
  intros [Hopp _] x y H. rewrite Hopp, H. discriminate.
Qed.

(** ** The map of grouped targets *)

Section GroupedFacts.

Lemma setHas_In (x : string) (s : StrSet) : setHas x s = true <-> In x s.
Proof.
  unfold setHas. rewrite existsb_exists. split.
  - intros (y & Hy & E). apply String.eqb_eq in E. now subst.
  - intros H. exists x. split; [exact H | apply String.eqb_refl].
Qed.

Lemma setAdd_old (x : string) (s : StrSet) : In x s -> setAdd x s = s.
Proof. intros H. unfold setAdd. apply setHas_In in H. now rewrite H. Qed.

Lemma setAdd_new (x : string) (s : StrSet) : ~ In x s -> setAdd x s = (s ++ [x])%list.
Proof.
  intros H. unfold setAdd. destruct (setHas x s) eqn:E; [|reflexivity].
  apply setHas_In in E. contradiction.
Qed.

Lemma setAdd_cases (x : string) (s : StrSet) :
  (In x s /\ setAdd x s = s) \/ (~ In x s /\ setAdd x s = (s ++ [x])%list).
Proof.
  destruct (setHas x s) eqn:E.
  - left. apply setHas_In in E. split; [exact E | now apply setAdd_old].
  - right. assert (H : ~ In x s) by (rewrite <- setHas_In, E; discriminate).
    split; [exact H | now apply setAdd_new].
Qed.

Lemma setAdd_has (x : string) (s : StrSet) : In x (setAdd x s).
Proof.
  destruct (setAdd_cases x s) as [[H ->] | [_ ->]]; [exact H|].
  apply in_or_app. right. now left.
Qed.

Lemma setAdd_keeps (x y : string) (s : StrSet) : In y s -> In y (setAdd x s).
Proof.
  intros H. destruct (setAdd_cases x s) as [[_ ->] | [_ ->]]; [exact H|].
  apply in_or_app. now left.
Qed.

Lemma mapHas_In (k : string) (m : Grouped) : mapHas k m = true <-> In k (map fst m).
Proof.
  unfold mapHas. rewrite existsb_exists, in_map_iff. split.
  - intros (kv & Hin & E). apply String.eqb_eq in E. now exists kv.
  - intros (kv & E & Hin). exists kv. split; [exact Hin|]. now apply String.eqb_eq.
Qed.

Lemma mapSet_new (k : string) (v : StrSet) (m : Grouped) :
  ~ In k (map fst m) -> mapSet k v m = (m ++ [(k, v)])%list.
Proof.
  induction m as [|[k' v'] m IH]; simpl; [reflexivity|].
  intros H. destruct (k' =? k)%string eqn:E.
  - apply String.eqb_eq in E. tauto.
  - rewrite IH; tauto.
Qed.

Lemma mapAddTo_keys (k x : string) (m : Grouped) :
  map fst (mapAddTo k x m) = map fst m.
Proof.
  induction m as [|[k' s] m IH]; simpl; [reflexivity|].
  destruct (k' =? k)%string; simpl; [reflexivity | now rewrite IH].
Qed.

Lemma mapAddTo_app (k x : string) (m m' : Grouped) :
  ~ In k (map fst m) ->
  mapAddTo k x (m ++ m')%list = (m ++ mapAddTo k x m')%list.
Proof.
  induction m as [|[k' s] m IH]; simpl; [reflexivity|].
  intros H. destruct (k' =? k)%string eqn:E.
  - apply String.eqb_eq in E. tauto.
  - rewrite IH; tauto.
Qed.

(** A source met for the first time opens a group, after all the others. *)
Lemma groupPair_new (g : Grouped) (f t : string) :
  ~ In f (map fst g) -> groupPair g f t = (g ++ [(f, [t])])%list.
Proof.
  intros H. unfold groupPair.
  destruct (mapHas f g) eqn:E; [apply mapHas_In in E; contradiction|].
  rewrite (mapSet_new _ _ _ H), (mapAddTo_app _ _ _ _ H). simpl.
  now rewrite String.eqb_refl.
Qed.

Lemma groupPair_known (g : Grouped) (f t : string) :
  In f (map fst g) -> groupPair g f t = mapAddTo f t g.
Proof.
  intros H. unfold groupPair. apply mapHas_In in H. now rewrite H.
Qed.

Lemma groupPair_cases (g : Grouped) (f t : string) :
  (In f (map fst g) /\ groupPair g f t = mapAddTo f t g)
  \/ (~ In f (map fst g) /\ groupPair g f t = (g ++ [(f, [t])])%list).
Proof.
  destruct (mapHas f g) eqn:E.
  - left. apply mapHas_In in E. split; [exact E | now apply groupPair_known].
  - right. assert (H : ~ In f (map fst g)) by (rewrite <- mapHas_In, E; discriminate).
    split; [exact H | now apply groupPair_new].
Qed.

(** Adding a target that the map already holds changes nothing. *)
Lemma mapAddTo_absorb (g : Grouped) (f t : string) :
  NoDup (map fst g) -> groupedHas g f t -> mapAddTo f t g = g.
Proof.
  intros Hnd (s & Hin & Ht). induction g as [|[k s'] g IH]; simpl; [reflexivity|].
  simpl in Hnd. apply NoDup_cons_iff in Hnd as [Hk Hnd].
  destruct Hin as [E | Hin].
  - injection E as -> ->. rewrite String.eqb_refl. now rewrite setAdd_old.
  - destruct (k =? f)%string eqn:E.
    + apply String.eqb_eq in E. subst k. exfalso. apply Hk.
      apply in_map_iff. now exists (f, s).
    + now rewrite IH.
Qed.

Lemma groupPair_absorb (g : Grouped) (f t : string) :
  NoDup (map fst g) -> groupedHas g f t -> groupPair g f t = g.
Proof.
  intros Hnd H. rewrite groupPair_known; [now apply mapAddTo_absorb|].
  destruct H as (s & Hin & _). apply in_map_iff. now exists (f, s).
Qed.

Lemma mapAddTo_has (g : Grouped) (f t : string) :
  In f (map fst g) -> groupedHas (mapAddTo f t g) f t.
Proof.
  induction g as [|[k s] g IH]; simpl; [contradiction|].
  intros H. destruct (k =? f)%string eqn:E.
  - apply String.eqb_eq in E. subst k. exists (setAdd t s).
    split; [now left | apply setAdd_has].
  - destruct H as [H | H]; [apply String.eqb_neq in E; contradiction|].
    destruct (IH H) as (s' & Hin & Ht). exists s'. split; [now right | exact Ht].
Qed.

Lemma mapAddTo_mono (g : Grouped) (f t f' t' : string) :
  groupedHas g f' t' -> groupedHas (mapAddTo f t g) f' t'.
Proof.
  intros (s & Hin & Ht). induction g as [|[k s0] g IH]; simpl; [contradiction|].
  destruct (k =? f)%string eqn:E.
  - destruct Hin as [E' | Hin].
    + injection E' as -> ->. exists (setAdd t s). split; [now left|].
      now apply setAdd_keeps.
    + exists s. split; [now right | exact Ht].
  - destruct Hin as [E' | Hin].
    + exists s. split; [now left | exact Ht].
    + destruct (IH Hin) as (s' & Hin' & Ht'). exists s'. split; [now right | exact Ht'].
Qed.

Lemma groupPair_has (g : Grouped) (f t : string) : groupedHas (groupPair g f t) f t.
Proof.
  destruct (groupPair_cases g f t) as [[H ->] | [_ ->]].
  - now apply mapAddTo_has.
  - exists [t]. split; [apply in_or_app; right|]; now left.
Qed.

Lemma groupPair_mono (g : Grouped) (f t f' t' : string) :
  groupedHas g f' t' -> groupedHas (groupPair g f t) f' t'.
Proof.
  intros H. destruct (groupPair_cases g f t) as [[_ ->] | [_ ->]].
  - now apply mapAddTo_mono.
  - destruct H as (s & Hin & Ht). exists s. split; [|exact Ht].
    apply in_or_app. now left.
Qed.

End GroupedFacts.

(** ** The loop invariant of [edgesToWiring] *)

Section GroupInvariant.

Variable P : string -> Prop.

Lemma setAdd_ok (x : string) (s : StrSet) :
  P x -> NoDup s -> Forall P s ->
  setAdd x s <> [] /\ NoDup (setAdd x s) /\ Forall P (setAdd x s).
Proof.
  intros Hx Hnd Hall. destruct (setAdd_cases x s) as [[Hin ->] | [Hnin ->]].
  - repeat split; trivial. intros ->. contradiction.
  - repeat split.
    + now destruct s.
    + apply NoDup_app; trivial.
      * repeat constructor. intros [].
      * intros a Ha [<- | []]. contradiction.
    + apply Forall_app. split; [exact Hall | now repeat constructor].
Qed.

Lemma mapAddTo_ok (k x : string) (m : Grouped) :
  P x -> Forall (groupOK P) m -> Forall (groupOK P) (mapAddTo k x m).
Proof.
  intros Hx. induction 1 as [|[k' s] m (Hk & Hne & Hnd & Hall) Hm IH]; simpl;
    [constructor|].
  destruct (k' =? k)%string; constructor; trivial.
  - destruct (setAdd_ok x s Hx Hnd Hall) as (? & ? & ?). now repeat split.
  - now repeat split.
Qed.

Lemma groupPair_ok (g : Grouped) (f t : string) :
  P f -> P t -> groupedOK P g -> groupedOK P (groupPair g f t).
Proof.
  intros Hf Ht [Hnd Hall].
  destruct (groupPair_cases g f t) as [[Hin ->] | [Hnin ->]]; split.
  - now rewrite mapAddTo_keys.
  - now apply mapAddTo_ok.
  - rewrite map_app. simpl. apply NoDup_app; trivial.
    + repeat constructor. intros [].
    + intros a Ha [<- | []]. contradiction.
  - apply Forall_app. split; [exact Hall|].
    repeat constructor; simpl; trivial; [discriminate | intros []].
Qed.

Lemma groupEdge_ok (g : Grouped) (e : Edge) :
  edgeOK P e -> groupedOK P g -> groupedOK P (groupEdge g e).
Proof.
  intros He Hg. unfold groupEdge.
  destruct (noHandle (sourceHandle e)) eqn:Es; [exact Hg|].
  destruct (noHandle (targetHandle e)) eqn:Et; [exact Hg|]. simpl.
  destruct (He Es Et). now apply groupPair_ok.
Qed.

Lemma fold_groupEdge_ok (edges : list Edge) (g : Grouped) :
  Forall (edgeOK P) edges -> groupedOK P g ->
  groupedOK P (fold_left groupEdge edges g).
Proof.
  intros H. revert g. induction H as [|e edges He _ IH]; intros g Hg; simpl;
    [exact Hg|].
  apply IH. now apply groupEdge_ok.
Qed.

Lemma groupedOK_empty : groupedOK P [].
Proof. split; constructor. Qed.

End GroupInvariant.

Section EdgesToWiringFacts.

Variable localeCompare : string -> string -> comparison.

Lemma edgesToWiring_unfold (edges : list Edge) :
  edgesToWiring localeCompare edges
  = map (fun kv => mkWiring (fst kv) (arraySort JsString.compare (snd kv)))
        (arraySort (byKey localeCompare) (fold_left groupEdge edges [])).
Proof. reflexivity. Qed.

Lemma edgesToWiring_sources (edges : list Edge) :
  Permutation (map from (edgesToWiring localeCompare edges))
              (map fst (fold_left groupEdge edges [])).
Proof.
  rewrite edgesToWiring_unfold, map_map. simpl.
  apply Permutation_map, arraySort_perm.
Qed.

Lemma fold_groupEdge_keys (edges : list Edge) :
  groupedOK (fun _ => True) (fold_left groupEdge edges []).
Proof.
  apply fold_groupEdge_ok; [|apply groupedOK_empty].
  apply Forall_forall. intros e _ _ _. now split.
Qed.

Lemma fold_groupEdge_mono (edges : list Edge) (g : Grouped) (f t : string) :
  groupedHas g f t -> groupedHas (fold_left groupEdge edges g) f t.
Proof.
  revert g. induction edges as [|e edges IH]; intros g H; simpl; [exact H|].
  apply IH. unfold groupEdge.
  destruct (noHandle (sourceHandle e) || noHandle (targetHandle e)); [exact H|].
  now apply groupPair_mono.
Qed.

Lemma fold_groupEdge_has (edges : list Edge) (g : Grouped) (e : Edge) :
  In e edges ->
  noHandle (sourceHandle e) || noHandle (targetHandle e) = false ->
  groupedHas (fold_left groupEdge edges g) (fromOf e) (toOf e).
Proof.
  revert g. induction edges as [|e' edges IH]; intros g Hin Hh; [contradiction|].
  simpl. destruct Hin as [-> | Hin]; [|now apply IH].
  apply fold_groupEdge_mono. unfold groupEdge. rewrite Hh. apply groupPair_has.
Qed.

Lemma pairs_NoDup (f : string) (ts : list string) :
  NoDup ts -> NoDup (map (fun d => (f, d)) ts).
Proof.
  induction 1 as [|t ts Hnin Hnd IH]; simpl; constructor; trivial.
  intros Hin. apply in_map_iff in Hin as (d & E & Hd). injection E as ->.
  contradiction.
Qed.

Lemma wiringPairs_NoDup (w : list WiringOut) :
  NoDup (map from w) -> Forall (fun e => NoDup (to e)) w -> NoDup (wiringPairs w).
Proof.
  intros Hk Ht. induction w as [|e w IH]; simpl; [constructor|].
  simpl in Hk. apply NoDup_cons_iff in Hk as [Hnin Hk].
  apply Forall_cons_iff in Ht as [He Ht].
  apply NoDup_app; [now apply pairs_NoDup | now apply IH|].
  intros [f d] Hin Hin'. apply in_map_iff in Hin as (d' & E & _).
  injection E as <- <-. apply Hnin.
  unfold wiringPairs in Hin'. apply in_flat_map in Hin' as (e' & He' & Hd).
  apply in_map_iff in Hd as (d'' & E & _). injection E as E _.
  apply in_map_iff. now exists e'.
Qed.

End EdgesToWiringFacts.

(** ** The order of the wiring description *)

Section DescriptionOrder.

Variable localeCompare : string -> string -> comparison.

Lemma mapAddTo_inv (g : Grouped) (f t f' t' : string) :
  groupedHas (mapAddTo f t g) f' t' ->
  groupedHas g f' t' \/ (f' = f /\ t' = t).
Proof.
  induction g as [|[k s] g IH]; simpl; intros (s' & Hin & Ht); [contradiction|].
  destruct (k =? f)%string eqn:E.
  - apply String.eqb_eq in E. subst k. destruct Hin as [E' | Hin].
    + injection E' as <- <-.
      destruct (setAdd_cases t s) as [[_ Hs] | [_ Hs]]; rewrite Hs in Ht.
      * left. exists s. split; [now left | exact Ht].
      * apply in_app_or in Ht as [Ht | [<- | []]]; [|now right].
        left. exists s. split; [now left | exact Ht].
    + left. exists s'. split; [now right | exact Ht].
  - destruct Hin as [E' | Hin].
    + left. exists s'. split; [now left | exact Ht].
    + destruct IH as [(s'' & Hin' & Ht') | H]; [now exists s' | | now right].
      left. exists s''. split; [now right | exact Ht'].
Qed.

Lemma groupPair_inv (g : Grouped) (f t f' t' : string) :
  groupedHas (groupPair g f t) f' t' ->
  groupedHas g f' t' \/ (f' = f /\ t' = t).
Proof.
  destruct (groupPair_cases g f t) as [[_ ->] | [_ ->]]; [apply mapAddTo_inv|].
  intros (s & Hin & Ht). apply in_app_or in Hin as [Hin | [E | []]].
  - left. now exists s.
  - injection E as <- <-. destruct Ht as [<- | []]. now right.
Qed.

Lemma fold_groupEdge_inv (edges : list Edge) (g : Grouped) (f t : string) :
  groupedHas (fold_left groupEdge edges g) f t ->
  groupedHas g f t \/ listed edges f t.
Proof.
  revert g. induction edges as [|e edges IH]; intros g H; simpl in H; [now left|].
  destruct (IH _ H) as [Hg | (e' & Hin & Hh & Hf & Ht)].
  - unfold groupEdge in Hg.
    destruct (noHandle (sourceHandle e) || noHandle (targetHandle e)) eqn:Hh;
      [now left|].
    apply groupPair_inv in Hg as [Hg | [-> ->]]; [now left|].
    right. exists e. repeat split; trivial. now left.
  - right. exists e'. repeat split; trivial. now right.
Qed.

Lemma wiringPairs_In (w : list WiringOut) (f t : string) :
  In (f, t) (wiringPairs w) <-> exists e, In e w /\ from e = f /\ In t (to e).
Proof.
  unfold wiringPairs. rewrite in_flat_map. split.
  - intros (e & He & Hin). apply in_map_iff in Hin as (d & E & Hd).
    injection E as <- <-. now exists e.
  - intros (e & He & <- & Ht). exists e. split; [exact He|].
    apply in_map_iff. now exists t.
Qed.

Lemma edgesToWiring_In (edges : list Edge) (f t : string) :
  In (f, t) (wiringPairs (edgesToWiring localeCompare edges))
  <-> groupedHas (fold_left groupEdge edges []) f t.
Proof.
  rewrite wiringPairs_In, edgesToWiring_unfold. split.
  - intros (e & He & <- & Ht). apply in_map_iff in He as ([k s] & <- & Hin).
    simpl in *. exists s. split.
    + eapply Permutation_in; [apply arraySort_perm | exact Hin].
    + eapply Permutation_in; [apply arraySort_perm | exact Ht].
  - intros (s & Hin & Ht).
    exists (mkWiring f (arraySort JsString.compare s)). repeat split.
    + apply in_map_iff. exists (f, s). split; [reflexivity|].
      eapply Permutation_in; [symmetry; apply arraySort_perm | exact Hin].
    + simpl. eapply Permutation_in; [symmetry; apply arraySort_perm | exact Ht].
Qed.

Lemma pairCount_absent (f t : string) (l : list (string * string)) :
  ~ In (f, t) l ->
  List.length (filter (fun p => (fst p =? f)%string && (snd p =? t)%string) l) = 0%nat.
Proof.
  induction l as [|[a b] l IH]; intros Hnin; simpl; [reflexivity|].
  destruct (a =? f)%string eqn:Ea; destruct (b =? t)%string eqn:Eb; simpl;
    try (apply IH; intros H; apply Hnin; now right).
  apply String.eqb_eq in Ea, Eb. subst. exfalso. apply Hnin. now left.
Qed.

Lemma pairCount_once (f t : string) (l : list (string * string)) :
  NoDup l -> In (f, t) l ->
  List.length (filter (fun p => (fst p =? f)%string && (snd p =? t)%string) l) = 1%nat.
Proof.
  induction 1 as [|[a b] l Hnin Hnd IH]; intros Hin; [contradiction|]. simpl.
  destruct Hin as [E | Hin].
  - injection E as -> ->. rewrite !String.eqb_refl. simpl.
    now rewrite pairCount_absent.
  - destruct (a =? f)%string eqn:Ea; destruct (b =? t)%string eqn:Eb; simpl;
      try now apply IH.
    apply String.eqb_eq in Ea, Eb. subst. contradiction.
Qed.

(** C4: the wiring built from any list of edges holds each (source
    reference, destination reference) pair at most once: no source reference
    heads two entries and no entry lists a target twice.  The connection of
    every edge that carries both handles is kept, so it is listed exactly
    once, however many edges repeat it.  And adding a connection that is
    already there, as a new edge with an id, type and style of its own,
    leaves the wiring as it was. *)
Theorem edgesToWiring_no_duplicates (edges : list Edge) :
  NoDup (wiringPairs (edgesToWiring localeCompare edges))
  /\ NoDup (map from (edgesToWiring localeCompare edges))
  /\ Forall (fun entry => NoDup (to entry)) (edgesToWiring localeCompare edges)
  /\ (forall e, In e edges -> hasHandles e = true ->
        In (fromOf e, toOf e) (wiringPairs (edgesToWiring localeCompare edges))
        /\ pairCount (fromOf e) (toOf e) (edgesToWiring localeCompare edges) = 1%nat)
  /\ (forall e e', In e edges -> hasHandles e = true ->
        fromOf e' = fromOf e -> toOf e' = toOf e ->
        edgesToWiring localeCompare (edges ++ [e']) = edgesToWiring localeCompare edges).
Proof.
  destruct (fold_groupEdge_keys edges) as [Hkeys Hsets].
  assert (Hfrom : NoDup (map from (edgesToWiring localeCompare edges))).
  { eapply Permutation_NoDup; [symmetry; apply edgesToWiring_sources | exact Hkeys]. }
  assert (Hto : Forall (fun entry => NoDup (to entry))
                  (edgesToWiring localeCompare edges)).
  { rewrite edgesToWiring_unfold. apply Forall_map. simpl.
    eapply Permutation_Forall; [symmetry; apply arraySort_perm|].
    eapply Forall_impl; [|exact Hsets].
    intros [k s] (_ & _ & Hnd & _). simpl in *.
    eapply Permutation_NoDup; [symmetry; apply arraySort_perm | exact Hnd]. }
  assert (Hpairs : NoDup (wiringPairs (edgesToWiring localeCompare edges)))
    by now apply wiringPairs_NoDup.
  assert (Hhas : forall e, In e edges -> hasHandles e = true ->
                   groupedHas (fold_left groupEdge edges []) (fromOf e) (toOf e)).
  { intros e Hin Hh. apply fold_groupEdge_has; [exact Hin|].
    unfold hasHandles in Hh.
    now destruct (noHandle (sourceHandle e) || noHandle (targetHandle e)). }
  split; [exact Hpairs|]. split; [exact Hfrom|]. split; [exact Hto|]. split.
  - intros e Hin Hh.
    assert (Hlisted : In (fromOf e, toOf e)
                        (wiringPairs (edgesToWiring localeCompare edges)))
      by (apply edgesToWiring_In; now apply Hhas).
    split; [exact Hlisted|]. unfold pairCount. now apply pairCount_once.
  - intros e e' Hin Hh Hf Ht. rewrite !edgesToWiring_unfold, fold_left_app. simpl.
    do 2 f_equal. unfold groupEdge.
    destruct (noHandle (sourceHandle e') || noHandle (targetHandle e')) eqn:Hh';
      [reflexivity|].
    rewrite Hf, Ht. apply groupPair_absorb; [exact Hkeys | now apply Hhas].
Qed.

(** A connection drawn a second time comes as another edge (an id of its
    own); the wiring lists it once, the same as before. *)
Example edgesToWiring_readded :
  edgesToWiring JsString.compare
    [connectedEdge "1" "a" "x" "b" "y"; connectedEdge "2" "a" "x" "c" "z";
     connectedEdge "3" "a" "x" "b" "y"]
  = edgesToWiring JsString.compare
      [connectedEdge "1" "a" "x" "b" "y"; connectedEdge "2" "a" "x" "c" "z"]
  /\ edgesToWiring JsString.compare
       [connectedEdge "1" "a" "x" "b" "y"; connectedEdge "2" "a" "x" "c" "z"]
     = [mkWiring "a.x" ["b.y"; "c.z"]].
Proof. split; reflexivity. Qed.

Lemma sorted_strict (l : list string) :
  NoDup l -> Sorted (notAfter JsString.compare) l ->
  Sorted (fun a b => JsString.compare a b = Lt) l.
Proof.
  intros Hnd Hs. induction Hs as [|a l Hs IH Hd]; [constructor|].
  apply NoDup_cons_iff in Hnd as [Hnin Hnd]. constructor; [now apply IH|].
  destruct Hd as [|b l Hab]; constructor.
  unfold notAfter in Hab. destruct (JsString.compare a b) eqn:E; try congruence.
  apply CodeUnitOrder.compare_eq in E. subst b. exfalso. apply Hnin. now left.
Qed.

Lemma sorted_map_from (l : list (string * StrSet)) (h : StrSet -> list string) :
  Sorted (notAfter (byKey localeCompare)) l ->
  Sorted (fun a b => notAfter localeCompare (from a) (from b))
         (map (fun kv => mkWiring (fst kv) (h (snd kv))) l).
Proof.
  induction 1 as [|a l Hs IH Hd]; simpl; constructor; trivial.
  destruct Hd; simpl; constructor. assumption.
Qed.

(** C3, as the specification words it, fails: the description is not in
    the order in which the edges were added.  Two targets added as
    ["c.z"], ["b.y"] are listed as ["b.y"], ["c.z"], and two sources added as
    ["b.x"], ["a.x"] are listed as ["a.x"], ["b.x"]. *)
Lemma edgesToWiring_not_insertion_order :
  wiringPairs (edgesToWiring JsString.compare
                 [connectedEdge "1" "a" "x" "c" "z"; connectedEdge "2" "a" "x" "b" "y"])
  = [("a.x", "b.y"); ("a.x", "c.z")]
  /\ pairsOf [connectedEdge "1" "a" "x" "c" "z"; connectedEdge "2" "a" "x" "b" "y"]
     = [("a.x", "c.z"); ("a.x", "b.y")]
  /\ wiringPairs (edgesToWiring JsString.compare
                    [connectedEdge "1" "b" "x" "c" "y"; connectedEdge "2" "a" "x" "c" "y"])
     = [("a.x", "c.y"); ("b.x", "c.y")]
  /\ pairsOf [connectedEdge "1" "b" "x" "c" "y"; connectedEdge "2" "a" "x" "c" "y"]
     = [("b.x", "c.y"); ("a.x", "c.y")]
  /\ wiringPairs (edgesToWiring JsString.compare
                    [connectedEdge "1" "a" "x" "c" "z"; connectedEdge "2" "a" "x" "b" "y"])
     <> pairsOf [connectedEdge "1" "a" "x" "c" "z"; connectedEdge "2" "a" "x" "b" "y"].
Proof. repeat split. discriminate. Qed.

Hypothesis localeCompare_consistent : consistent localeCompare.

(** C3, amended: the description lists exactly the (source reference,
    destination reference) pairs of the edges that carry both handles, and
    lists them sorted, not in the order of insertion: the entries by source
    reference in the order of [localeCompare], and the targets of each entry
    in strictly ascending code-unit order. *)
Theorem edgesToWiring_sorted (edges : list Edge) :
  (forall f t, In (f, t) (wiringPairs (edgesToWiring localeCompare edges))
               <-> listed edges f t)
  /\ Sorted (fun a b => notAfter localeCompare (from a) (from b))
            (edgesToWiring localeCompare edges)
  /\ Forall (fun e => Sorted (fun a b => JsString.compare a b = Lt) (to e))
            (edgesToWiring localeCompare edges).
Proof.
  repeat split.
  - rewrite edgesToWiring_In. intros H.
    apply fold_groupEdge_inv in H as [(s & [] & _) | H]. exact H.
  - intros (e & Hin & Hh & <- & <-). apply edgesToWiring_In.
    now apply fold_groupEdge_has.
  - rewrite edgesToWiring_unfold. apply sorted_map_from, arraySort_sorted.
    intros a b. apply (consistent_asymmetric localeCompare_consistent).
  - rewrite edgesToWiring_unfold. apply Forall_map. simpl.
    eapply Permutation_Forall; [symmetry; apply arraySort_perm|].
    destruct (fold_groupEdge_keys edges) as [_ Hsets].
    eapply Forall_impl; [|exact Hsets].
    intros [k s] (_ & _ & Hnd & _). simpl in *. apply sorted_strict.
    + eapply Permutation_NoDup; [symmetry; apply arraySort_perm | exact Hnd].
    + apply arraySort_sorted, CodeUnitOrder.compare_asymmetric.
Qed.

End DescriptionOrder.

Lemma edgesToWiring_sorted_witness :
  consistent JsString.compare
  /\ Sorted (fun a b => notAfter JsString.compare (from a) (from b))
            (edgesToWiring JsString.compare
               [connectedEdge "1" "b" "x" "c" "z"; connectedEdge "2" "a" "x" "b" "y"]).
Proof.
  split; [exact CodeUnitOrder.compare_consistent|].
  apply (edgesToWiring_sorted JsString.compare CodeUnitOrder.compare_consistent).
Defined.

(** ** Grouping a wiring that is already grouped *)

Section Regroup.

Lemma fold_groupEdge_pairs (edges : list Edge) (g : Grouped) :
  Forall (fun e => noHandle (sourceHandle e) || noHandle (targetHandle e) = false) edges ->
  fold_left groupEdge edges g = fold_left groupPairOf (pairsOf edges) g.
Proof.
  intros H. revert g. induction H as [|e edges He _ IH]; intros g; simpl;
    [reflexivity|].
  rewrite <- IH. f_equal. unfold groupEdge. now rewrite He.
Qed.

Lemma regroup_targets (ts : list string) (g : Grouped) (f : string) (s : StrSet) :
  ~ In f (map fst g) -> NoDup (s ++ ts) ->
  fold_left groupPairOf (map (fun d => (f, d)) ts) (g ++ [(f, s)])%list
  = (g ++ [(f, (s ++ ts)%list)])%list.
Proof.
  intros Hf. revert s. induction ts as [|t ts IH]; intros s Hnd; simpl.
  - now rewrite app_nil_r.
  - unfold groupPairOf at 2. simpl.
    rewrite groupPair_known.
    2:{ rewrite map_app. apply in_or_app. right. now left. }
    rewrite (mapAddTo_app _ _ _ _ Hf). simpl. rewrite String.eqb_refl.
    rewrite setAdd_new.
    2:{ intros Hin. apply NoDup_remove_2 in Hnd. apply Hnd.
        apply in_or_app. now left. }
    rewrite IH.
    + now rewrite <- app_assoc.
    + now rewrite <- app_assoc.
Qed.

Lemma regroup_entry (ts : list string) (g : Grouped) (f : string) :
  ~ In f (map fst g) -> ts <> [] -> NoDup ts ->
  fold_left groupPairOf (map (fun d => (f, d)) ts) g = (g ++ [(f, ts)])%list.
Proof.
  intros Hf Hne Hnd. destruct ts as [|t ts]; [contradiction|]. simpl.
  unfold groupPairOf at 2. simpl. rewrite (groupPair_new _ _ t Hf).
  exact (regroup_targets ts g f [t] Hf Hnd).
Qed.

Lemma wiringPairs_cons (e : WiringOut) (w : list WiringOut) :
  wiringPairs (e :: w) = (map (fun d => (from e, d)) (to e) ++ wiringPairs w)%list.
Proof. reflexivity. Qed.

(** Grouping the pairs of a grouped wiring gives its groups back, in order. *)
Lemma regroup (w : list WiringOut) (g : Grouped) :
  NoDup (map fst g ++ map from w) ->
  Forall (fun e => to e <> [] /\ NoDup (to e)) w ->
  fold_left groupPairOf (wiringPairs w) g
  = (g ++ map (fun e => (from e, to e)) w)%list.
Proof.
  intros Hnd Hall. revert g Hnd.
  induction Hall as [|e w [Hne Hts] _ IH]; intros g Hnd.
  - simpl. now rewrite app_nil_r.
  - rewrite wiringPairs_cons, fold_left_app.
    assert (Hf : ~ In (from e) (map fst g)).
    { simpl in Hnd. apply NoDup_remove_2 in Hnd. intros Hin. apply Hnd.
      apply in_or_app. now left. }
    rewrite (regroup_entry _ _ _ Hf Hne Hts), IH.
    + simpl. now rewrite <- app_assoc.
    + rewrite map_app. simpl. now rewrite <- app_assoc.
Qed.

End Regroup.

(** ** Edges built from a wiring read back to its references *)

Section WiredEdges.

Lemma wiredEdge_reads (k : N) (srcRef d : string) (src dst : Ref) :
  parseRef srcRef = Some src -> parseRef d = Some dst ->
  fromOf (wiredEdge k srcRef d src dst) = srcRef
  /\ toOf (wiredEdge k srcRef d src dst) = d
  /\ noHandle (sourceHandle (wiredEdge k srcRef d src dst)) = false
  /\ noHandle (targetHandle (wiredEdge k srcRef d src dst)) = false.
Proof.
  intros Hs Hd.
  destruct (parseRef_some _ _ Hs) as ((Es & _) & _ & Hps).
  destruct (parseRef_some _ _ Hd) as ((Ed & _) & _ & Hpd).
  repeat split.
  - symmetry. exact Es.
  - symmetry. exact Ed.
  - simpl. apply String.eqb_neq. exact Hps.
  - simpl. apply String.eqb_neq. exact Hpd.
Qed.

Lemma wiredEdge_ok (k : N) (srcRef d : string) (src dst : Ref) :
  parseRef srcRef = Some src -> parseRef d = Some dst ->
  wiredOK (wiredEdge k srcRef d src dst).
Proof.
  intros Hs Hd. destruct (wiredEdge_reads k _ _ _ _ Hs Hd) as (Ef & Et & Hhs & Hht).
  unfold wiredOK. rewrite Ef, Et. repeat split; trivial.
  - now exists src.
  - now exists dst.
Qed.

Lemma pushDst_wired (srcRef : string) (src : Ref) (acc : EdgeAcc) (dstRef : JSON) :
  parseRef srcRef = Some src ->
  Forall wiredOK (fst acc) -> Forall wiredOK (fst (pushDst srcRef src acc dstRef)).
Proof.
  intros Hs Hacc. destruct dstRef; simpl; trivial.
  destruct (parseRef s) as [dst|] eqn:Hd; simpl; trivial.
  apply Forall_app. split; [exact Hacc|].
  constructor; [|constructor]. now apply wiredEdge_ok.
Qed.

Lemma fold_pushDst_wired (srcRef : string) (src : Ref) (dsts : list JSON) (acc : EdgeAcc) :
  parseRef srcRef = Some src ->
  Forall wiredOK (fst acc) ->
  Forall wiredOK (fst (fold_left (pushDst srcRef src) dsts acc)).
Proof.
  intros Hs. revert acc. induction dsts as [|d dsts IH]; intros acc Hacc; simpl;
    [exact Hacc|].
  apply IH. now apply pushDst_wired.
Qed.

Lemma fold_pushEntry_wired (entries : list JSON) (acc : EdgeAcc) :
  Forall wiredOK (fst acc) -> Forall wiredOK (fst (fold_left pushEntry entries acc)).
Proof.
  revert acc. induction entries as [|e entries IH]; intros acc Hacc; simpl;
    [exact Hacc|].
  apply IH. unfold pushEntry.
  destruct (parseRef (srcRefOf e)) as [src|] eqn:Hs; [|exact Hacc].
  now apply fold_pushDst_wired.
Qed.

(** Every edge [wiringToEdges] builds has both handles and reads back to two
    well-formed references. *)
Lemma wiringToEdges_wired (raw : JSON) (edges : list Edge) :
  wiringToEdges raw = inr edges -> Forall wiredOK edges.
Proof.
  unfold wiringToEdges. destruct (normalizeWiring raw) as [msg | wiring];
    [discriminate|].
  intros H. injection H as <-. apply fold_pushEntry_wired. constructor.
Qed.

(** The edges built for the destinations of one well-formed entry. *)
Lemma fold_pushDst_pairs (f : string) (src : Ref) (ts : list string) (acc : EdgeAcc) :
  parseRef f = Some src -> Forall parses ts ->
  exists es k,
    fold_left (pushDst f src) (map JString ts) acc = ((fst acc ++ es)%list, k)
    /\ pairsOf es = map (fun d => (f, d)) ts
    /\ Forall wiredOK es.
Proof.
  intros Hs Hts. revert acc.
  induction Hts as [|t ts [dst Ht] _ IH]; intros [edges k]; simpl.
  - exists [], k. rewrite app_nil_r. repeat split. constructor.
  - rewrite Ht. simpl.
    destruct (IH ((edges ++ [wiredEdge (k + 1) f t src dst])%list, (k + 1)%N))
      as (es & k' & E & Hp & Hw).
    exists (wiredEdge (k + 1) f t src dst :: es), k'. simpl in E. repeat split.
    + rewrite E. now rewrite <- app_assoc.
    + destruct (wiredEdge_reads (k + 1) _ _ _ _ Hs Ht) as (Ef & Et & _).
      unfold pairsOf in *. simpl map. now rewrite Ef, Et, Hp.
    + constructor; [now apply wiredEdge_ok | exact Hw].
Qed.

(** The edges built for a wiring all of whose references are well formed:
    one per listed pair, in order. *)
Lemma fold_pushEntry_pairs (w : list WiringOut) (acc : EdgeAcc) :
  Forall (fun e => parses (from e) /\ Forall parses (to e)) w ->
  exists es k,
    fold_left pushEntry
      (map (fun e => entryOf (from e) (map JString (to e))) w) acc
    = ((fst acc ++ es)%list, k)
    /\ pairsOf es = wiringPairs w
    /\ Forall wiredOK es.
Proof.
  intros Hw. revert acc.
  induction Hw as [|e w [[src Hs] Hts] _ IH]; intros [edges k]; simpl.
  - exists [], k. rewrite app_nil_r. repeat split. constructor.
  - rewrite pushEntry_entryOf, Hs.
    destruct (fold_pushDst_pairs _ _ _ (edges, k) Hs Hts) as (es1 & k1 & E1 & Hp1 & Hw1).
    rewrite E1. simpl fst.
    destruct (IH ((edges ++ es1)%list, k1)) as (es2 & k2 & E2 & Hp2 & Hw2).
    exists (es1 ++ es2)%list, k2. simpl in E2. repeat split.
    + rewrite E2. now rewrite <- app_assoc.
    + unfold pairsOf in *. rewrite map_app, Hp1, Hp2. reflexivity.
    + apply Forall_app. now split.
Qed.

End WiredEdges.

(** ** Normalizing twice *)

Section Idempotence.

Variable localeCompare : string -> string -> comparison.

Lemma filter_entries (w : list WiringOut) :
  filter isObject (map (fun e => entryOf (from e) (map JString (to e))) w)
  = map (fun e => entryOf (from e) (map JString (to e))) w.
Proof. induction w as [|e w IH]; simpl; [reflexivity | now rewrite IH]. Qed.

Lemma sorted_groups (w : list WiringOut) :
  Sorted (fun a b => notAfter localeCompare (from a) (from b)) w ->
  Sorted (notAfter (byKey localeCompare)) (map (fun e => (from e, to e)) w).
Proof.
  induction 1 as [|a l Hs IH Hd]; simpl; constructor; trivial.
  destruct Hd; simpl; constructor. assumption.
Qed.

(** A wiring in normal form is a fixed point of the normalization. *)
Lemma normal_fixed (w : list WiringOut) :
  Normal localeCompare w ->
  exists edges,
    wiringToEdges (wiringValue w) = inr edges
    /\ edgesToWiring localeCompare edges = w.
Proof.
  intros [Hgrouped Hsources Hentries].
  destruct (fold_pushEntry_pairs w ([], 0%N)) as (es & k & E & Hpairs & Hwired).
  { eapply Forall_impl; [|exact Hentries]. intros e (Hf & _ & _ & _ & Ht). now split. }
  exists es. split.
  - unfold wiringValue.
    change (map _ w) with (map (fun e => entryOf (from e) (map JString (to e))) w).
    now rewrite wiringToEdges_array, filter_entries, E.
  - rewrite edgesToWiring_unfold, fold_groupEdge_pairs, Hpairs, regroup; trivial.
    + simpl. rewrite (arraySort_fixed _ _ _ (sorted_groups _ Hsources)), map_map. simpl.
      rewrite <- (map_id w) at 2. apply map_ext_in.
      intros [f ts] Hin. simpl.
      rewrite Forall_forall in Hentries.
      destruct (Hentries _ Hin) as (_ & _ & _ & Hsorted & _). simpl in Hsorted.
      now rewrite (arraySort_fixed _ _ _ Hsorted).
    + eapply Forall_impl; [|exact Hentries]. intros e (_ & Hne & Hnd & _). now split.
    + eapply Forall_impl; [|exact Hwired].
      intros e (Hs & Ht & _). now rewrite Hs, Ht.
Qed.

Hypothesis localeCompare_consistent : consistent localeCompare.

(** The wiring built from well-formed edges is in normal form. *)
Lemma edgesToWiring_normal (edges : list Edge) :
  Forall wiredOK edges -> Normal localeCompare (edgesToWiring localeCompare edges).
Proof.
  intros Hwired.
  assert (HG : groupedOK parses (fold_left groupEdge edges [])).
  { apply fold_groupEdge_ok; [|apply groupedOK_empty].
    eapply Forall_impl; [|exact Hwired]. intros e (_ & _ & Hf & Ht) _ _. now split. }
  destruct HG as [Hkeys Hsets]. constructor.
  - eapply Permutation_NoDup; [symmetry; apply edgesToWiring_sources | exact Hkeys].
  - rewrite edgesToWiring_unfold. apply sorted_map_from, arraySort_sorted.
    intros a b. apply (consistent_asymmetric localeCompare_consistent).
  - rewrite edgesToWiring_unfold. apply Forall_map. simpl.
    eapply Permutation_Forall; [symmetry; apply arraySort_perm|].
    eapply Forall_impl; [|exact Hsets].
    intros [f s] (Hf & Hne & Hnd & Hall). simpl in *.
    pose proof (arraySort_perm _ JsString.compare s) as Hperm.
    repeat split.
    + exact Hf.
    + intros E. rewrite E in Hperm. apply Permutation_nil in Hperm. contradiction.
    + eapply Permutation_NoDup; [symmetry; exact Hperm | exact Hnd].
    + apply arraySort_sorted, CodeUnitOrder.compare_asymmetric.
    + eapply Permutation_Forall; [symmetry; exact Hperm | exact Hall].
Qed.

(** C9: normalization is idempotent.  For every array [w], the wiring
    [n = edgesToWiring (wiringToEdges w)] is grouped by source reference, with
    sources and target lists sorted and targets without duplicates, and
    normalizing [n] again returns [n]. *)
Theorem normalization_idempotent (items : list JSON) :
  exists edges n,
    wiringToEdges (JArray items) = inr edges
    /\ n = edgesToWiring localeCompare edges
    /\ Normal localeCompare n
    /\ exists edges',
         wiringToEdges (wiringValue n) = inr edges'
         /\ edgesToWiring localeCompare edges' = n.
Proof.
  destruct (wiringToEdges (JArray items)) as [msg | edges] eqn:E.
  { rewrite wiringToEdges_array in E. discriminate. }
  exists edges, (edgesToWiring localeCompare edges).
  assert (Hn : Normal localeCompare (edgesToWiring localeCompare edges))
    by (apply edgesToWiring_normal; now apply (wiringToEdges_wired (JArray items))).
  repeat split; try exact Hn; try apply Hn.
  now apply normal_fixed.
Qed.

End Idempotence.

Example normalize_once :
  option_map (edgesToWiring JsString.compare)
    (match wiringToEdges
             (JArray [entryOf "lgn.thalamus" [JString "sc.vision"; JString "sc"];
                      entryOf "eye.out.visual_stream" [JString "lgn.in.retina"];
                      JNull;
                      entryOf "lgn.thalamus" [JString "sc.vision"; JString "a.b"]])
     with inr edges => Some edges | inl _ => None end)
  = Some [mkWiring "eye.out.visual_stream" ["lgn.in.retina"];
          mkWiring "lgn.thalamus" ["a.b"; "sc.vision"]].
Proof. reflexivity. Qed.

Lemma normalization_idempotent_witness :
  consistent JsString.compare
  /\ exists edges n,
       wiringToEdges
         (JArray [entryOf "lgn.thalamus" [JString "sc.vision"; JString "sc"];
                  entryOf "eye.out.visual_stream" [JString "lgn.in.retina"];
                  JNull;
                  entryOf "lgn.thalamus" [JString "sc.vision"; JString "a.b"]])
       = inr edges
       /\ n = edgesToWiring JsString.compare edges
       /\ Normal JsString.compare n
       /\ exists edges',
            wiringToEdges (wiringValue n) = inr edges'
            /\ edgesToWiring JsString.compare edges' = n.
Proof.
  split; [exact CodeUnitOrder.compare_consistent|].
  apply (normalization_idempotent JsString.compare CodeUnitOrder.compare_consistent).
Defined.

(** ** Applying the raw JSON draft *)

Section ApplyRawJsonFacts.

Variable localeCompare : string -> string -> comparison.
Variable JSON_parse : string -> Result JSON.
Variable stringifyWiring : list WiringOut -> string.
Variable stringifyStored : string -> string.
Variable setItem : string -> string -> Storage -> option Storage.
Variable storageKey : string.


Lemma wiringToEdges_error (parsed : JSON) :
  wiringToEdges parsed
  = match normalizeWiring parsed with
    | inl message => inl message
    | inr wiring => inr (fst (fold_left pushEntry wiring ([], 0%N)))
    end.
Proof. reflexivity. Qed.

(** A draft that parses and normalizes is applied: the wiring control and
    [lastAppliedRef] take the new text and the error is cleared. *)
Lemma applyRawJson_applies (st : PanelState) :
  draftError JSON_parse (rawDraft st) = None ->
  exists nextText,
    getControl "wiring" (controls (applyRawJson localeCompare JSON_parse stringifyWiring stringifyStored
               setItem storageKey st)) = Some nextText
    /\ lastApplied (applyRawJson localeCompare JSON_parse stringifyWiring stringifyStored
               setItem storageKey st) = nextText
    /\ parseError (applyRawJson localeCompare JSON_parse stringifyWiring stringifyStored
               setItem storageKey st) = None.
Proof.
  unfold draftError, applyRawJson.
  destruct (JSON_parse (rawDraft st)) as [msg | parsed]; [discriminate|].
  rewrite wiringToEdges_error.
  destruct (normalizeWiring parsed) as [msg | wiring]; [discriminate|].
  intros _. eexists. simpl. repeat split.
  generalize (controls st). intros cs.
  induction cs as [|[k v] cs IH]; simpl; [reflexivity|].
  destruct (k =? "wiring")%string eqn:E; simpl; rewrite E; [reflexivity | exact IH].
Qed.

(** C5: applying the draft is atomic on failure.  When the raw draft does
    not parse, or parses to a value that does not normalize, nothing is
    committed: the controls (the wiring control among them), [lastAppliedRef]
    and [localStorage] are left as they were, and the error is recorded (with
    the raw editor shown). *)
Theorem applyRawJson_atomic (st : PanelState) (message : string) :
  draftError JSON_parse (rawDraft st) = Some message ->
  controls (applyRawJson localeCompare JSON_parse stringifyWiring stringifyStored
               setItem storageKey st) = controls st
  /\ getControl "wiring" (controls (applyRawJson localeCompare JSON_parse stringifyWiring stringifyStored
               setItem storageKey st)) = getControl "wiring" (controls st)
  /\ lastApplied (applyRawJson localeCompare JSON_parse stringifyWiring stringifyStored
               setItem storageKey st) = lastApplied st
  /\ storage (applyRawJson localeCompare JSON_parse stringifyWiring stringifyStored
               setItem storageKey st) = storage st
  /\ rawDraft (applyRawJson localeCompare JSON_parse stringifyWiring stringifyStored
               setItem storageKey st) = rawDraft st
  /\ parseError (applyRawJson localeCompare JSON_parse stringifyWiring stringifyStored
               setItem storageKey st) = Some message
  /\ showRaw (applyRawJson localeCompare JSON_parse stringifyWiring stringifyStored
               setItem storageKey st) = true
  /\ isExpanded (applyRawJson localeCompare JSON_parse stringifyWiring stringifyStored
               setItem storageKey st) = true.
Proof.
  unfold draftError, applyRawJson.
  destruct (JSON_parse (rawDraft st)) as [msg | parsed].
  - intros H. injection H as ->. repeat split.
  - rewrite wiringToEdges_error.
    destruct (normalizeWiring parsed) as [msg | wiring]; [|discriminate].
    intros H. injection H as ->. repeat split.
Qed.

End ApplyRawJsonFacts.

Lemma applyRawJson_atomic_witness :
  draftError sampleParse "{}" = Some "Wiring must be a JSON array."
  /\ controls
       (applyRawJson JsString.compare sampleParse (fun _ => "[]") (fun x => x)
          sampleSetItem "simui:wiring:default"
          (mkPanel [("wiring", "[]")] "[]" None true false "{}" []))
     = [("wiring", "[]")].
Proof.
  split; [reflexivity|].
  apply (applyRawJson_atomic JsString.compare sampleParse (fun _ => "[]") (fun x => x)
           sampleSetItem "simui:wiring:default"
           (mkPanel [("wiring", "[]")] "[]" None true false "{}" [])
           "Wiring must be a JSON array.").
  reflexivity.
Defined.

(** ** Binary64 addition: rounding and its error *)

Module Binary64Facts.
Import Binary64.

(** The addition of two positive binary64 numbers is followed through its
    specification [SFadd]: the mantissas are aligned and added exactly, and
    the sum is rounded to 53 bits, to nearest with ties to even.  The result
    is an overflow or the exact sum up to a relative error of [2^-53]. *)

(** [digits2_pos] counts the bits of a mantissa. *)
Lemma digits2_pos_bounds (p : positive) :
  2 ^ (Zpos (digits2_pos p) - 1) <= Zpos p < 2 ^ Zpos (digits2_pos p).
Proof.
  induction p as [p IH|p IH|]; cbn [digits2_pos]; [| |simpl; lia].
  - rewrite Pos2Z.inj_succ. change (Zpos p~1) with (2 * Zpos p + 1).
    replace (Z.succ (Zpos (digits2_pos p)) - 1)
      with (Z.succ (Zpos (digits2_pos p) - 1)) by lia.
    rewrite !Z.pow_succ_r by lia. lia.
  - rewrite Pos2Z.inj_succ. change (Zpos p~0) with (2 * Zpos p).
    replace (Z.succ (Zpos (digits2_pos p)) - 1)
      with (Z.succ (Zpos (digits2_pos p) - 1)) by lia.
    rewrite !Z.pow_succ_r by lia. lia.
Qed.

Lemma digits2_pos_unique (p : positive) (d : Z) :
  2 ^ (d - 1) <= Zpos p < 2 ^ d -> Zpos (digits2_pos p) = d.
Proof.
  intros H.
  assert (Hd : 0 < d).
  { destruct (Z_lt_le_dec 0 d) as [|Hle]; [assumption|].
    assert (2 ^ d <= 2 ^ 0) by (apply Z.pow_le_mono_r; lia). simpl in *. lia. }
  pose proof (digits2_pos_bounds p) as B.
  assert (E1 : Z.log2 (Zpos p) = d - 1).
  { apply Z.log2_unique; [lia|]. replace (Z.succ (d - 1)) with d by lia. exact H. }
  assert (E2 : Z.log2 (Zpos p) = Zpos (digits2_pos p) - 1).
  { apply Z.log2_unique; [lia|].
    replace (Z.succ (Zpos (digits2_pos p) - 1)) with (Zpos (digits2_pos p)) by lia.
    exact B. }
  lia.
Qed.

Lemma shr_1_nonneg (m : Z) (r s : bool) :
  0 <= m ->
  shr_1 {| shr_m := m; shr_r := r; shr_s := s |}
  = {| shr_m := Z.div2 m; shr_r := Z.odd m; shr_s := r || s |}.
Proof. destruct m as [|[p|p|]|p]; intros H; try reflexivity; lia. Qed.

Lemma ShrInv_start (M : Z) :
  0 <= M -> ShrInv M 0 {| shr_m := M; shr_r := false; shr_s := false |}.
Proof.
  intros H. split; [exact H|]. exists 0. simpl.
  repeat split; try lia; intros; try discriminate; lia.
Qed.

(** Reading and writing the two bits of a shift record. *)
Lemma true_iff_elim (P : Prop) : (true = true <-> P) -> P.
Proof. intros [H _]. now apply H. Qed.

Lemma false_iff_elim (P : Prop) : (false = true <-> P) -> ~ P.
Proof. intros [_ H] q. specialize (H q). discriminate. Qed.

Lemma true_iff_intro (P : Prop) : P -> (true = true <-> P).
Proof. now split. Qed.

Lemma false_iff_intro (P : Prop) : ~ P -> (false = true <-> P).
Proof. intros H. split; [discriminate | intros q; contradiction]. Qed.

Ltac bool_facts :=
  repeat match goal with
         | H : true = true <-> _ |- _ => apply true_iff_elim in H
         | H : false = true <-> _ |- _ => apply false_iff_elim in H
         end.

Ltac bool_goal :=
  match goal with
  | |- true = true <-> _ => apply true_iff_intro
  | |- false = true <-> _ => apply false_iff_intro
  end.

(** One shift keeps the record in step with the mantissa. *)
Lemma ShrInv_step (M k : Z) (mrs : shr_record) :
  0 <= k -> ShrInv M k mrs -> ShrInv M (k + 1) (shr_1 mrs).
Proof.
  intros Hk [Hm (rem & HM & Hrem & Hr & Hs)]. destruct mrs as [m r s].
  cbn [shr_m shr_r shr_s] in *.
  rewrite shr_1_nonneg by exact Hm. unfold ShrInv. cbn [shr_m shr_r shr_s].
  rewrite Z.pow_add_r, Z.pow_1_r by lia.
  assert (HP : 0 < 2 ^ k) by (apply Z.pow_pos_nonneg; lia).
  pose proof (Z.div2_odd m) as Hd.
  revert HM Hrem Hr Hs HP. generalize (2 ^ k). intros P HM Hrem Hr Hs HP.
  assert (Hb : Z.b2z (Z.odd m) = 0 \/ Z.b2z (Z.odd m) = 1)
    by (destruct (Z.odd m); simpl; lia).
  split; [lia|].
  exists (Z.b2z (Z.odd m) * P + rem).
  destruct (Z.odd m), r, s; cbn [Z.b2z orb] in *; bool_facts;
    (split; [nia|]); (split; [lia|]); split; bool_goal; lia.
Qed.

Lemma ShrInv_iter (M : Z) (p : positive) (k : Z) (mrs : shr_record) :
  0 <= k -> ShrInv M k mrs -> ShrInv M (k + Zpos p) (iter_pos shr_1 p mrs).
Proof.
  revert k mrs. induction p as [p IH|p IH|]; intros k mrs Hk H; cbn [iter_pos].
  - replace (k + Zpos p~1) with (k + 1 + Zpos p + Zpos p) by lia.
    apply IH; [lia|]. apply IH; [lia|]. now apply ShrInv_step.
  - replace (k + Zpos p~0) with (k + Zpos p + Zpos p) by lia.
    apply IH; [lia|]. now apply IH.
  - now apply ShrInv_step.
Qed.

(** Rounding to nearest, ties to even, is within half a unit of the last
    place. *)
Lemma round_nearest_even_spec (M k : Z) (mrs : shr_record) :
  ShrInv M k mrs ->
  let m1 := round_nearest_even (shr_m mrs) (loc_of_shr_record mrs) in
  shr_m mrs <= m1 <= shr_m mrs + 1
  /\ 2 * Z.abs (m1 * 2 ^ k - M) <= 2 ^ k.
Proof.
  intros [Hm (rem & HM & Hrem & Hr & Hs)]. destruct mrs as [m r s].
  cbn [shr_m shr_r shr_s] in *. revert HM Hrem Hr Hs. generalize (2 ^ k).
  intros P HM Hrem Hr Hs.
  destruct r, s; cbn [loc_of_shr_record round_nearest_even]; bool_facts;
    try destruct (Z.even m); split; nia.
Qed.

Lemma fexp_eq (x : Z) : fexp prec emax x = Z.max (x - 53) (-1074).
Proof. reflexivity. Qed.

Lemma shr_noshift (mrs : shr_record) (e n : Z) : n <= 0 -> shr mrs e n = (mrs, e).
Proof. destruct n; intros H; try reflexivity; lia. Qed.

Lemma binary_round_aux_exact (m : positive) (e : Z) :
  fexp prec emax (Zpos (digits2_pos m) + e) <= e ->
  binary_round_aux prec emax false (Zpos m) e loc_Exact
  = if e <=? emax - prec then S754_finite false m e else S754_infinity false.
Proof.
  intros H. unfold binary_round_aux, shr_fexp. cbn [Zdigits2 shr_record_of_loc].
  rewrite shr_noshift by lia.
  cbn [shr_m loc_of_shr_record round_nearest_even Zdigits2 shr_record_of_loc].
  rewrite shr_noshift by lia. reflexivity.
Qed.

Lemma Rounded_exact (m : positive) (e : Z) :
  Rounded (Zpos m) e (if e <=? emax - prec then S754_finite false m e else S754_infinity false).
Proof.
  destruct (e <=? emax - prec); [right|now left].
  exists m, e, e. repeat split; lia.
Qed.

(** Rounding a mantissa that is too long: [shr_fexp] shifts it down to 53
    bits; rounding may carry it up to [2^53], which costs one more shift. *)
Lemma binary_round_aux_spec (M : positive) (e : Z) :
  -1074 <= e ->
  Rounded (Zpos M) e (binary_round_aux prec emax false (Zpos M) e loc_Exact).
Proof.
  intros He.
  destruct (Z_le_gt_dec (fexp prec emax (Zpos (digits2_pos M) + e)) e) as [Hn|Hn].
  { rewrite binary_round_aux_exact by exact Hn. apply Rounded_exact. }
  pose proof (digits2_pos_bounds M) as HM.
  set (d := Zpos (digits2_pos M)) in *.
  rewrite fexp_eq in Hn.
  assert (Hd : 53 < d) by lia.
  unfold binary_round_aux, shr_fexp. cbn [Zdigits2 shr_record_of_loc]. fold d.
  rewrite fexp_eq.
  replace (Z.max (d + e - 53) (-1074) - e) with (d - 53) by lia.
  destruct (d - 53) as [|n|n] eqn:En; try lia.
  cbn [shr].
  pose proof (ShrInv_iter (Zpos M) n 0 _ ltac:(lia) (ShrInv_start (Zpos M) ltac:(lia))) as Hinv.
  rewrite Z.add_0_l in Hinv.
  pose proof (round_nearest_even_spec _ _ _ Hinv) as [Hm1 Herr].
  destruct Hinv as [Hq (rem & HMq & Hrem & _ & _)].
  set (mrs := iter_pos shr_1 n _) in *.
  set (m1 := round_nearest_even (shr_m mrs) (loc_of_shr_record mrs)) in *.
  set (q := shr_m mrs) in *.
  assert (HP : 0 < 2 ^ Zpos n) by (apply Z.pow_pos_nonneg; lia).
  assert (Hsplit : 2 ^ d = 2 ^ 53 * 2 ^ Zpos n)
    by (rewrite <- Z.pow_add_r by lia; f_equal; lia).
  assert (Hsplit' : 2 ^ (d - 1) = 2 ^ 52 * 2 ^ Zpos n)
    by (rewrite <- Z.pow_add_r by lia; f_equal; lia).
  assert (Hqlo : 2 ^ 52 <= q) by nia.
  assert (Hqhi : q < 2 ^ 53) by nia.
  assert (Hm1pos : 0 < m1) by lia.
  destruct m1 as [|m1p|] eqn:Em1; try lia.
  destruct (Z.eq_dec (Zpos m1p) (2 ^ 53)) as [Etop|Hlt].
  - (* the mantissa rounded up to [2 ^ 53]: one more shift *)
    assert (Ed1 : Zpos (digits2_pos m1p) = 54) by (apply digits2_pos_unique; simpl; lia).
    cbn [Zdigits2]. rewrite Ed1, fexp_eq.
    replace (Z.max (54 + (e + Zpos n) - 53) (-1074) - (e + Zpos n)) with 1 by lia.
    cbn [shr iter_pos]. rewrite shr_1_nonneg by lia. cbn [shr_m].
    rewrite Etop. change (Z.div2 (2 ^ 53)) with (Zpos (2 ^ 52)).
    destruct (e + Zpos n + 1 <=? emax - prec); [right|now left].
    exists (2 ^ 52)%positive, (e + Zpos n + 1), e. repeat split; try lia.
    replace (e + Zpos n + 1 - e) with (Zpos n + 1) by lia.
    rewrite Z.sub_diag, Z.pow_add_r, Z.pow_0_r, Z.pow_1_r by lia.
    change (Zpos (2 ^ 52)) with (2 ^ 52).
    rewrite Etop in Herr. nia.
  - assert (Ed1 : Zpos (digits2_pos m1p) = 53) by (apply digits2_pos_unique; simpl; lia).
    cbn [Zdigits2]. rewrite Ed1, fexp_eq.
    rewrite shr_noshift by lia. cbn [shr_m].
    destruct (e + Zpos n <=? emax - prec); [right|now left].
    exists m1p, (e + Zpos n), e. repeat split; try lia.
    replace (e + Zpos n - e) with (Zpos n) by lia.
    rewrite Z.sub_diag, Z.pow_0_r. nia.
Qed.

Lemma iter_xO (d m : positive) : Zpos (Pos.iter xO m d) = Zpos m * 2 ^ Zpos d.
Proof.
  induction d as [|d IH] using Pos.peano_ind.
  - simpl. lia.
  - rewrite Pos.iter_succ, Pos2Z.inj_succ, Z.pow_succ_r by lia.
    change (Zpos (Pos.iter xO m d)~0) with (2 * Zpos (Pos.iter xO m d)). lia.
Qed.

Lemma shl_align_value (m : positive) (e ez : Z) :
  ez <= e -> Zpos (fst (shl_align m e ez)) = Zpos m * 2 ^ (e - ez).
Proof.
  intros H. unfold shl_align. destruct (ez - e) as [|p|p] eqn:E; cbn [fst]; try lia.
  - replace (e - ez) with 0 by lia. simpl. lia.
  - rewrite iter_xO. f_equal. f_equal. lia.
Qed.

Lemma binary_round_spec (M : positive) (e : Z) :
  -1074 <= e -> Rounded (Zpos M) e (binary_round prec emax false M e).
Proof.
  intros He. unfold binary_round, shl_align.
  destruct (fexp prec emax (Zpos (digits2_pos M) + e) - e) as [|p|p] eqn:E;
    try (now apply binary_round_aux_spec).
  pose proof (digits2_pos_bounds M) as HM.
  assert (Hd : Zpos (digits2_pos (Pos.iter xO M p)) = Zpos (digits2_pos M) + Zpos p).
  { apply digits2_pos_unique. rewrite iter_xO.
    replace (Zpos (digits2_pos M) + Zpos p - 1) with (Zpos (digits2_pos M) - 1 + Zpos p) by lia.
    rewrite !Z.pow_add_r by lia.
    assert (0 < 2 ^ Zpos p) by (apply Z.pow_pos_nonneg; lia). nia. }
  rewrite binary_round_aux_exact.
  - destruct (_ <=? _); [right|now left].
    exists (Pos.iter xO M p), (fexp prec emax (Zpos (digits2_pos M) + e)),
           (fexp prec emax (Zpos (digits2_pos M) + e)).
    repeat split; try lia.
    rewrite Z.sub_diag, Z.pow_0_r, iter_xO.
    replace (e - fexp prec emax (Zpos (digits2_pos M) + e)) with (Zpos p) by lia.
    replace (Zpos M * 2 ^ Zpos p * 1 - Zpos M * 2 ^ Zpos p) with 0 by lia.
    simpl (Z.abs 0). assert (0 < 2 ^ Zpos p) by (apply Z.pow_pos_nonneg; lia). nia.
  - rewrite Hd.
    replace (Zpos (digits2_pos M) + Zpos p + fexp prec emax (Zpos (digits2_pos M) + e))
      with (Zpos (digits2_pos M) + e) by lia.
    lia.
Qed.

(** The sum of two positive finite numbers, as [SFadd] specifies it. *)
Lemma SFadd_pos (mx : positive) (ex : Z) (my : positive) (ey : Z) :
  -1074 <= ex -> -1074 <= ey ->
  Rounded (Zpos mx * 2 ^ (ex - Z.min ex ey) + Zpos my * 2 ^ (ey - Z.min ex ey))
          (Z.min ex ey)
          (SFadd prec emax (S754_finite false mx ex) (S754_finite false my ey)).
Proof.
  intros Hx Hy. cbn [SFadd cond_Zopp].
  rewrite <- (shl_align_value mx ex (Z.min ex ey)) by lia.
  rewrite <- (shl_align_value my ey (Z.min ex ey)) by lia.
  rewrite <- Pos2Z.inj_add. cbn [binary_normalize].
  apply binary_round_spec. lia.
Qed.

Lemma two_pow_pos (e : Z) : (0 < 2 ^ e)%Q.
Proof. apply Qpower_0_lt. reflexivity. Qed.

Lemma two_pow_split (e c : Z) :
  c <= e -> (2 ^ e == inject_Z (2 ^ (e - c)) * 2 ^ c)%Q.
Proof.
  intros H. rewrite Zpower_Qpower by lia. change (inject_Z 2) with 2%Q.
  rewrite <- Qpower_plus by discriminate.
  replace (e - c + c) with e by lia. reflexivity.
Qed.

Lemma Rounded_Q (M e : Z) (r : spec_float) :
  0 < M -> Rounded M e r ->
  r = S754_infinity false
  \/ exists m' e',
       r = S754_finite false m' e'
       /\ (Qabs (SF2Q r - inject_Z M * 2 ^ e) <= roundoff * (inject_Z M * 2 ^ e))%Q.
Proof.
  intros HM [-> | (m' & e' & c & -> & Hce & Hce' & Herr)]; [now left|right].
  exists m', e'. split; [reflexivity|]. cbn [SF2Q cond_Zopp].
  assert (EB : (inject_Z M * 2 ^ e == inject_Z (M * 2 ^ (e - c)) * 2 ^ c)%Q)
    by (rewrite (two_pow_split e c), inject_Z_mult by lia; ring).
  assert (EA : (inject_Z (Zpos m') * 2 ^ e'
                == inject_Z (Zpos m' * 2 ^ (e' - c)) * 2 ^ c)%Q)
    by (rewrite (two_pow_split e' c), inject_Z_mult by lia; ring).
  rewrite EA, EB. clear EA EB.
  pose proof (two_pow_pos c) as Ht.
  revert Herr Ht. generalize (2 ^ c)%Q.
  generalize (Zpos m' * 2 ^ (e' - c)). generalize (M * 2 ^ (e - c)).
  intros B A t Herr Ht. change (2 ^ 53) with 9007199254740992 in Herr.
  assert (H1 : 9007199254740992 * A <= B + 9007199254740992 * B) by lia.
  assert (H2 : 9007199254740992 * B <= B + 9007199254740992 * A) by lia.
  rewrite Zle_Qle in H1, H2.
  rewrite !inject_Z_plus, !inject_Z_mult in H1, H2.
  revert H1 H2. generalize (inject_Z A), (inject_Z B). intros a b H1 H2.
  change (inject_Z 9007199254740992) with (9007199254740992 # 1)%Q in *.
  apply Qabs_Qle_condition. unfold roundoff.
  apply (Qmult_le_compat_r _ _ t) in H1, H2; try now apply Qlt_le_weak.
  split; lra.
Qed.

Local Open Scope float_scope.

Lemma valid_emin (x : float) (s : bool) (m : positive) (e : Z) :
  Prim2SF x = S754_finite s m e -> (-1074 <= e)%Z.
Proof.
  intros H. pose proof (Prim2SF_valid x) as V. rewrite H in V.
  cbn [valid_binary] in V. unfold bounded, canonical_mantissa in V.
  apply andb_prop in V as [V _]. apply Z.eqb_eq in V. rewrite fexp_eq in V. lia.
Qed.

Lemma value_pos (x : float) : Positive x -> (0 < value x)%Q.
Proof.
  intros (m & e & H). unfold value. rewrite H. cbn [SF2Q cond_Zopp].
  apply Qmult_lt_0_compat; [reflexivity | apply two_pow_pos].
Qed.

Lemma Positive_finite (x : float) : Positive x -> isfinite x = true.
Proof. intros (m & e & H). unfold isfinite. now rewrite H. Qed.

(** The standard model of the binary64 addition, for positive numbers: the
    sum overflows to [infinity], or it is the exact sum up to the relative
    error [2^-53]. *)
Lemma add_pos (a b : float) :
  Positive a -> Positive b ->
  Prim2SF (a + b) = S754_infinity false
  \/ (Positive (a + b)
      /\ (Qabs (value (a + b) - (value a + value b))
          <= roundoff * (value a + value b))%Q).
Proof.
  intros (ma & ea & Ha) (mb & eb & Hb).
  pose proof (valid_emin _ _ _ _ Ha) as Va. pose proof (valid_emin _ _ _ _ Hb) as Vb.
  pose proof (SFadd_pos ma ea mb eb Va Vb) as R.
  apply Rounded_Q in R.
  2:{ assert (0 < 2 ^ (ea - Z.min ea eb))%Z by (apply Z.pow_pos_nonneg; lia).
      assert (0 < 2 ^ (eb - Z.min ea eb))%Z by (apply Z.pow_pos_nonneg; lia). nia. }
  unfold value. rewrite add_spec, Ha, Hb. unfold SF64add.
  destruct R as [R | (m' & e' & R & Hb')]; [now left|right].
  split; [exists m', e'; now rewrite add_spec, Ha, Hb|].
  cbn [SF2Q cond_Zopp] in *.
  assert (E : (inject_Z (Zpos ma * 2 ^ (ea - Z.min ea eb) + Zpos mb * 2 ^ (eb - Z.min ea eb))
               * 2 ^ Z.min ea eb
               == inject_Z (Zpos ma) * 2 ^ ea + inject_Z (Zpos mb) * 2 ^ eb)%Q).
  { rewrite inject_Z_plus, !inject_Z_mult.
    rewrite (two_pow_split ea (Z.min ea eb)), (two_pow_split eb (Z.min ea eb)) by lia.
    ring. }
  rewrite E in Hb'. exact Hb'.
Qed.

Lemma add_inf (a b : float) :
  Prim2SF a = S754_infinity false ->
  Positive b \/ Prim2SF b = S754_infinity false ->
  Prim2SF (a + b) = S754_infinity false.
Proof.
  intros Ha [(m & e & Hb) | Hb]; rewrite add_spec, Ha, Hb; reflexivity.
Qed.

Lemma add_zero (b : float) :
  Positive b \/ Prim2SF b = S754_infinity false -> 0 + b = b.
Proof.
  intros H. apply Prim2SF_inj. rewrite add_spec.
  change (Prim2SF 0) with (S754_zero false).
  destruct H as [(m & e & Hb) | Hb]; rewrite Hb; reflexivity.
Qed.

Lemma positive_dt (dt : float) :
  (0 <? dt) = true -> Positive dt \/ Prim2SF dt = S754_infinity false.
Proof.
  rewrite ltb_spec. change (Prim2SF 0) with (S754_zero false).
  unfold SFltb, SFcompare. destruct (Prim2SF dt) as [s|s| |s m e] eqn:E;
    try discriminate; destruct s; try discriminate; intros _.
  - now right.
  - left. now exists m, e.
Qed.

Lemma isfinite_inf (x : float) : Prim2SF x = S754_infinity false -> isfinite x = false.
Proof. intros H. unfold isfinite. now rewrite H. Qed.

Lemma inf_eq (x : float) : Prim2SF x = S754_infinity false -> x = infinity.
Proof. intros H. apply Prim2SF_inj. rewrite H. reflexivity. Qed.

Lemma roundoff_pos : (0 <= roundoff)%Q.
Proof. discriminate. Qed.

Lemma growth_ge_1 (k : Z) : (0 <= k)%Z -> (1 <= (1 + roundoff) ^ k)%Q.
Proof. intros H. apply Qpower_1_le; [discriminate | exact H]. Qed.

Lemma growth_succ (k : Z) :
  (0 <= k)%Z -> ((1 + roundoff) ^ (k + 1) == (1 + roundoff) ^ k * (1 + roundoff))%Q.
Proof. intros H. rewrite Qpower_plus by discriminate. reflexivity. Qed.

(** One more rounded addition: the relative error grows by the factor
    [1 + u] at most. *)
Lemma accumulate (u a K v s s' : Q) :
  (0 <= u -> 1 <= a -> 0 < v -> 0 <= K ->
   Qabs (s - K) <= (a - 1) * K ->
   Qabs (s' - (s + v)) <= u * (s + v) ->
   Qabs (s' - (K + v)) <= (a * (1 + u) - 1) * (K + v))%Q.
Proof.
  intros Hu Ha Hv HK H1 H2.
  apply Qabs_Qle_condition in H1 as [H1 H1'].
  apply Qabs_Qle_condition in H2 as [H2 H2'].
  apply Qabs_Qle_condition.
  assert (F1 : (u * s <= u * (a * K))%Q)
    by (rewrite !(Qmult_comm u); apply Qmult_le_compat_r; [lra | exact Hu]).
  assert (F2 : (1 * v <= a * v)%Q)
    by (apply Qmult_le_compat_r; [exact Ha | lra]).
  assert (F3 : (u * (1 * v) <= u * (a * v))%Q)
    by (rewrite !(Qmult_comm u); apply Qmult_le_compat_r; [exact F2 | exact Hu]).
  split; lra.
Qed.

End Binary64Facts.

(** ** The fixed-step solver and the lifecycle of a world *)

Module WorldFacts.
Import Binary64 Binary64Facts World.

Local Open Scope float_scope.

Lemma stepLoop_length (n : nat) (i0 : Z) (t0 dt : float) :
  List.length (fst (stepLoop n i0 t0 dt)) = n.
Proof.
  revert i0 t0. induction n as [|n IH]; intros i0 t0; simpl; [reflexivity|].
  specialize (IH (i0 + 1)%Z (t0 + dt)).
  destruct (stepLoop n (i0 + 1) (t0 + dt) dt) as [rest tEnd]. simpl in *.
  now rewrite IH.
Qed.

Lemma stepLoop_end (n : nat) (i0 : Z) (t0 dt : float) :
  snd (stepLoop n i0 t0 dt) = advance n t0 dt.
Proof.
  revert i0 t0. induction n as [|n IH]; intros i0 t0; [reflexivity|].
  specialize (IH (i0 + 1)%Z (t0 + dt)).
  cbn [stepLoop advance]. destruct (stepLoop n (i0 + 1) (t0 + dt) dt) as [rest tEnd].
  exact IH.
Qed.

Lemma stepLoop_nth (n : nat) (i0 : Z) (t0 dt : float) (j : nat) :
  (j < n)%nat ->
  nth_error (fst (stepLoop n i0 t0 dt)) j
  = Some (mkEmitted STEP (Some (mkStep (i0 + Z.of_nat j) (advance (S j) t0 dt)))).
Proof.
  revert i0 t0 j. induction n as [|n IH]; intros i0 t0 j Hj; [lia|].
  cbn [stepLoop]. specialize (IH (i0 + 1)%Z (t0 + dt)).
  destruct (stepLoop n (i0 + 1) (t0 + dt) dt) as [rest tEnd]. cbn [fst] in *.
  destruct j as [|j]; cbn [nth_error].
  - cbn [advance]. do 4 f_equal. lia.
  - rewrite IH by lia. cbn [advance]. do 4 f_equal. lia.
Qed.

Lemma stepLoop_steps (n : nat) (i0 : Z) (t0 dt : float) :
  Forall (fun e => event e = STEP) (fst (stepLoop n i0 t0 dt)).
Proof.
  revert i0 t0. induction n as [|n IH]; intros i0 t0; simpl; [constructor|].
  specialize (IH (i0 + 1)%Z (t0 + dt)).
  destruct (stepLoop n (i0 + 1) (t0 + dt) dt) as [rest tEnd]. simpl in *.
  now constructor.
Qed.

Lemma FixedStepSolver_unfold (N : Z) (dt : float) :
  FixedStepSolver N dt
  = (fst (stepLoop (Z.to_nat N) 0 0 dt), mkSummary N (snd (stepLoop (Z.to_nat N) 0 0 dt))).
Proof.
  unfold FixedStepSolver. now destruct (stepLoop (Z.to_nat N) 0 0 dt).
Qed.

Lemma advance_succ (k : nat) (t dt : float) :
  advance (S k) t dt = advance k t dt + dt.
Proof.
  revert t. induction k as [|k IH]; intros t; [reflexivity|].
  change (advance (S (S k)) t dt) with (advance (S k) (t + dt) dt).
  rewrite IH. reflexivity.
Qed.

Lemma within_start (dt : float) : within 0 0 dt.
Proof.
  split; [reflexivity|]. unfold value at 1. change (Prim2SF 0) with (S754_zero false).
  cbn [SF2Q]. change (inject_Z 0) with 0%Q. apply Qabs_Qle_condition. split; lra.
Qed.

Lemma within_first (dt : float) : Positive dt -> within dt 1 dt.
Proof.
  intros H. split; [now apply Positive_finite|].
  unfold tolerance. change (Z.max 0 (1 - 1)) with 0%Z. change (inject_Z 1) with 1%Q.
  change ((1 + roundoff) ^ 0)%Q with 1%Q.
  apply Qabs_Qle_condition. split; lra.
Qed.

Lemma within_next (x dt : float) (k : Z) :
  (1 <= k)%Z -> Positive x -> Positive dt -> within x k dt ->
  Positive (x + dt) ->
  (Qabs (value (x + dt) - (value x + value dt)) <= roundoff * (value x + value dt))%Q ->
  within (x + dt) (k + 1) dt.
Proof.
  intros Hk Hx Hdt [_ Hb] Hs Hr. split; [now apply Positive_finite|].
  unfold tolerance in *.
  replace (Z.max 0 (k + 1 - 1)) with (k - 1 + 1)%Z by lia.
  replace (Z.max 0 (k - 1)) with (k - 1)%Z in Hb by lia.
  rewrite growth_succ by lia.
  assert (E : (inject_Z (k + 1) * value dt == inject_Z k * value dt + value dt)%Q)
    by (rewrite inject_Z_plus; change (inject_Z 1) with 1%Q; ring).
  rewrite E.
  apply accumulate with (s := value x); trivial.
  - apply roundoff_pos.
  - apply growth_ge_1. lia.
  - now apply value_pos.
  - apply Qmult_le_0_compat; [|apply Qlt_le_weak; now apply value_pos].
    change 0%Q with (inject_Z 0). rewrite <- Zle_Qle. lia.
Qed.

Lemma elapsed_state (dt : float) (k : nat) :
  (0 <? dt) = true ->
  Prim2SF (advance k 0 dt) = S754_infinity false
  \/ ((k = 0%nat \/ (Positive (advance k 0 dt) /\ Positive dt))
      /\ within (advance k 0 dt) (Z.of_nat k) dt
      /\ forall j, (j <= k)%nat -> isfinite (advance j 0 dt) = true).
Proof.
  intros Hdt. pose proof (positive_dt dt Hdt) as Hp.
  induction k as [|k IH].
  - right. split; [now left|]. split; [apply within_start|].
    intros j Hj. replace j with 0%nat by lia. reflexivity.
  - rewrite advance_succ. destruct IH as [Hinf | (Hk & Hw & Hall)].
    + left. now apply add_inf.
    + destruct k as [|k].
      * cbn [advance]. rewrite add_zero by exact Hp.
        destruct Hp as [Hp | Hp]; [right|now left].
        split; [right; now split|]. split; [now apply within_first|].
        intros j Hj. destruct j as [|[|j]]; try lia; [reflexivity|].
        cbn [advance]. rewrite add_zero by now left. now apply Positive_finite.
      * destruct Hk as [Hk | [Hx Hd]]; [discriminate|].
        destruct (add_pos _ _ Hx Hd) as [Hinf | [Hs Hr]]; [now left|right].
        split; [right; now split|]. split.
        -- replace (Z.of_nat (S (S k))) with (Z.of_nat (S k) + 1)%Z by lia.
           apply within_next; trivial. lia.
        -- intros j Hj. destruct (Nat.eq_dec j (S (S k))) as [->|Hne].
           ++ rewrite advance_succ. now apply Positive_finite.
           ++ apply Hall. lia.
Qed.

(** The time after [k] rounds: within the tolerance when it is finite, and
    [infinity] otherwise; and a finite time was never infinite before. *)
Lemma elapsed_spec (dt : float) (k : nat) :
  (0 <? dt) = true ->
  (isfinite (advance k 0 dt) = true ->
   within (advance k 0 dt) (Z.of_nat k) dt
   /\ forall j, (j <= k)%nat -> isfinite (advance j 0 dt) = true)
  /\ (isfinite (advance k 0 dt) = false -> advance k 0 dt = infinity).
Proof.
  intros Hdt. destruct (elapsed_state dt k Hdt) as [Hinf | (_ & Hw & Hall)].
  - split; [rewrite (isfinite_inf _ Hinf); discriminate|]. intros _. now apply inf_eq.
  - split; [intros _; now split|]. destruct Hw as [Hf _]. rewrite Hf. discriminate.
Qed.

(** C7, with the tolerance made explicit and overflow set apart: for
    [steps = N >= 0] and [dt > 0] the fixed-step solver calls [emit] exactly
    [N] times, each time with a [STEP] event; the [j]-th call, counted from
    [0], carries the index [j] and the time reached by [j + 1] rounds of
    [t += dt]; the summary is [{steps: N, time: t}] with the time reached by
    [N] rounds.  Whenever such a time is finite it equals [(j + 1) * dt],
    respectively [N * dt], within the floating-point tolerance: a relative
    error of [(1 + 2^-53)^j - 1] at most, which is nothing for the first
    event.  A time that is not finite is [infinity] (the sum overflowed),
    and when the returned time is finite the time of every event is. *)
Theorem fixed_step_emits (N : Z) (dt : float) :
  (0 <= N)%Z -> (0 <? dt) = true ->
  Z.of_nat (List.length (fst (FixedStepSolver N dt))) = N
  /\ (forall j, (0 <= j < N)%Z ->
        exists p,
          nth_error (fst (FixedStepSolver N dt)) (Z.to_nat j)
          = Some (mkEmitted STEP (Some p))
          /\ i p = j
          /\ t p = advance (Z.to_nat (j + 1)) 0 dt
          /\ (isfinite (t p) = true -> within (t p) (j + 1) dt)
          /\ (isfinite (time (snd (FixedStepSolver N dt))) = true ->
              isfinite (t p) = true)
          /\ (isfinite (t p) = false -> t p = infinity))
  /\ steps (snd (FixedStepSolver N dt)) = N
  /\ time (snd (FixedStepSolver N dt)) = advance (Z.to_nat N) 0 dt
  /\ (isfinite (time (snd (FixedStepSolver N dt))) = true ->
      within (time (snd (FixedStepSolver N dt))) N dt)
  /\ (isfinite (time (snd (FixedStepSolver N dt))) = false ->
      time (snd (FixedStepSolver N dt)) = infinity).
Proof.
  intros HN Hdt. rewrite FixedStepSolver_unfold. cbn [fst snd steps time].
  rewrite stepLoop_end.
  destruct (elapsed_spec dt (Z.to_nat N) Hdt) as [HfinN HinfN].
  split; [rewrite stepLoop_length; lia|]. split; [|split; [reflexivity|split; [reflexivity|split]]].
  - intros j Hj. exists (mkStep j (advance (Z.to_nat (j + 1)) 0 dt)).
    destruct (elapsed_spec dt (Z.to_nat (j + 1)) Hdt) as [Hfin Hinf].
    rewrite stepLoop_nth by lia. cbn [i t].
    replace (S (Z.to_nat j)) with (Z.to_nat (j + 1)) by lia.
    replace (0 + Z.of_nat (Z.to_nat j))%Z with j by lia.
    split; [reflexivity|]. split; [reflexivity|]. split; [reflexivity|].
    split; [|split].
    + intros Hf. destruct (Hfin Hf) as [Hw _]. rewrite Z2Nat.id in Hw by lia. exact Hw.
    + intros Hf. apply (proj2 (HfinN Hf)). lia.
    + exact Hinf.
  - intros Hf. destruct (HfinN Hf) as [Hw _]. rewrite Z2Nat.id in Hw by lia. exact Hw.
  - exact HinfN.
Qed.

Lemma fixed_step_emits_witness :
  (0 <= 3)%Z /\ (0 <? 0x1.999999999999ap-4) = true
  /\ within (time (snd (FixedStepSolver 3%Z 0x1.999999999999ap-4))) 3%Z 0x1.999999999999ap-4.
Proof.
  split; [lia|]. split; [reflexivity|].
  destruct (fixed_step_emits 3%Z 0x1.999999999999ap-4) as (_ & _ & _ & _ & Hw & _);
    [lia | reflexivity |].
  apply Hw. reflexivity.
Defined.

(** C7, as the specification words it, fails when the sum overflows: with
    [dt = 0x1.745d1745d1745p+1020] (about [1.63e307], above zero) eleven
    rounds of [t += dt] end at [infinity], so the time returned for
    [steps = 11] is not [11 * dt] within any tolerance; yet [11 * dt] is a
    finite binary64 number, the largest one. *)
Lemma fixed_step_overflows :
  (0 <? 0x1.745d1745d1745p+1020) = true
  /\ time (snd (FixedStepSolver 11%Z 0x1.745d1745d1745p+1020)) = infinity
  /\ 11 * 0x1.745d1745d1745p+1020 = 0x1.fffffffffffffp+1023
  /\ isfinite (11 * 0x1.745d1745d1745p+1020) = true
  /\ forall eps : Q,
       ~ close eps (time (snd (FixedStepSolver 11%Z 0x1.745d1745d1745p+1020)))
           11%Z 0x1.745d1745d1745p+1020.
Proof.
  assert (E : time (snd (FixedStepSolver 11%Z 0x1.745d1745d1745p+1020)) = infinity)
    by reflexivity.
  split; [reflexivity|]. split; [exact E|]. split; [reflexivity|].
  split; [reflexivity|].
  intros eps [Hf _]. rewrite E in Hf. discriminate.
Qed.

(** The run of the solver's documentation: [steps = 3], [dt = 0.1] gives the
    times [0.1], [0.2], [0.30000000000000004] and the summary
    [{'time': 0.30000000000000004, 'steps': 3}]. *)
Example fixed_step_three :
  FixedStepSolver 3%Z 0x1.999999999999ap-4
  = ([mkEmitted STEP (Some (mkStep 0%Z 0x1.999999999999ap-4));
      mkEmitted STEP (Some (mkStep 1%Z 0x1.999999999999ap-3));
      mkEmitted STEP (Some (mkStep 2%Z 0x1.3333333333334p-2))],
     mkSummary 3%Z 0x1.3333333333334p-2).
Proof. reflexivity. Qed.

(** Rounding shows after six steps of [0.1]: the time reached is [0.6],
    whereas [6 * 0.1] is [0.6000000000000001]. *)
Example fixed_step_six :
  time (snd (FixedStepSolver 6%Z 0x1.999999999999ap-4)) = 0x1.3333333333333p-1
  /\ 6 * 0x1.999999999999ap-4 = 0x1.3333333333334p-1.
Proof. split; reflexivity. Qed.

Section Lifecycle.

Variable s : Solver.

(** The solver's side of the contract: through [emit] it sends [STEP]
    events only. *)
Hypothesis solver_steps : forall steps dt, Forall (fun e => event e = STEP) (fst (s steps dt)).

Lemma occurrences_app (e : BioWorldEvent) (a b : list Emitted) :
  occurrences e (a ++ b) = (occurrences e a + occurrences e b)%nat.
Proof. unfold occurrences. now rewrite filter_app, length_app. Qed.

Lemma occurrences_steps (e : BioWorldEvent) (l : list Emitted) :
  e <> STEP -> Forall (fun x => event x = STEP) l -> occurrences e l = 0%nat.
Proof.
  intros He. unfold occurrences. induction 1 as [|x l Hx _ IH]; simpl; [reflexivity|].
  rewrite Hx. destruct e; try contradiction; exact IH.
Qed.

Lemma simulate_unfold (w : BioWorld) (steps : Z) (dt : float) :
  simulate w steps dt
  = (mkWorld (solver w) true,
     ((if _loaded_emitted w then [] else [mkEmitted LOADED None])
        ++ [mkEmitted BEFORE_SIMULATION None] ++ fst (solver w steps dt)
        ++ [mkEmitted AFTER_SIMULATION None])%list,
     snd (solver w steps dt)).
Proof. unfold simulate. now destruct (solver w steps dt). Qed.

(** One call: [BEFORE_SIMULATION] and [AFTER_SIMULATION] once each, and
    [LOADED] once if it was not emitted before. *)
Lemma simulate_counts (w : BioWorld) (steps : Z) (dt : float) :
  solver w = s ->
  occurrences LOADED (snd (fst (simulate w steps dt)))
  = (if _loaded_emitted w then 0 else 1)%nat
  /\ occurrences BEFORE_SIMULATION (snd (fst (simulate w steps dt))) = 1%nat
  /\ occurrences AFTER_SIMULATION (snd (fst (simulate w steps dt))) = 1%nat.
Proof.
  intros Hs. rewrite simulate_unfold, Hs. cbn [fst snd].
  rewrite !occurrences_app.
  assert (Hz : forall e, e <> STEP -> occurrences e (fst (s steps dt)) = 0%nat)
    by (intros e He; now apply occurrences_steps).
  rewrite !Hz by discriminate.
  destruct (_loaded_emitted w); repeat split.
Qed.

Lemma simulateAll_cons (w : BioWorld) (steps : Z) (dt : float) (rest : list (Z * float)) :
  simulateAll w ((steps, dt) :: rest)
  = (fst (simulateAll (fst (fst (simulate w steps dt))) rest),
     (snd (fst (simulate w steps dt))
        ++ snd (simulateAll (fst (fst (simulate w steps dt))) rest))%list).
Proof.
  cbn [simulateAll]. destruct (simulate w steps dt) as [[w' emitted] summary].
  cbn [fst snd]. now destruct (simulateAll w' rest).
Qed.

Lemma simulateAll_counts (calls : list (Z * float)) (w : BioWorld) :
  solver w = s ->
  occurrences LOADED (snd (simulateAll w calls))
  = (if _loaded_emitted w then 0 else match calls with [] => 0 | _ => 1 end)%nat
  /\ occurrences BEFORE_SIMULATION (snd (simulateAll w calls)) = List.length calls
  /\ occurrences AFTER_SIMULATION (snd (simulateAll w calls)) = List.length calls.
Proof.
  revert w. induction calls as [|[steps dt] rest IH]; intros w Hs.
  - simpl. destruct (_loaded_emitted w); repeat split.
  - rewrite simulateAll_cons. cbn [snd]. rewrite !occurrences_app.
    destruct (simulate_counts w steps dt Hs) as (Hl & Hb & Ha).
    destruct (IH (fst (fst (simulate w steps dt)))) as (Hl' & Hb' & Ha').
    { rewrite simulate_unfold. cbn [fst solver]. exact Hs. }
    rewrite Hl, Hb, Ha, Hl', Hb', Ha'.
    rewrite simulate_unfold. cbn [fst _loaded_emitted List.length].
    destruct (_loaded_emitted w); repeat split; lia.
Qed.

(** C8: on one world, whatever the number of [simulate] calls, [LOADED] is
    emitted at most once, and when it is emitted it comes before every other
    event; [BEFORE_SIMULATION] and [AFTER_SIMULATION] are emitted once per
    call.  Across two consecutive calls [LOADED] is observed exactly once. *)
Theorem loaded_once (calls : list (Z * float)) :
  (occurrences LOADED (snd (simulateAll (newWorld s) calls)) <= 1)%nat
  /\ (calls <> [] ->
      occurrences LOADED (snd (simulateAll (newWorld s) calls)) = 1%nat
      /\ exists later,
           snd (simulateAll (newWorld s) calls) = mkEmitted LOADED None :: later)
  /\ occurrences BEFORE_SIMULATION (snd (simulateAll (newWorld s) calls))
     = List.length calls
  /\ occurrences AFTER_SIMULATION (snd (simulateAll (newWorld s) calls))
     = List.length calls
  /\ (forall first second,
        calls = [first; second] ->
        occurrences LOADED (snd (simulateAll (newWorld s) calls)) = 1%nat
        /\ occurrences BEFORE_SIMULATION (snd (simulateAll (newWorld s) calls)) = 2%nat
        /\ occurrences AFTER_SIMULATION (snd (simulateAll (newWorld s) calls)) = 2%nat).
Proof.
  destruct (simulateAll_counts calls (newWorld s) eq_refl) as (Hl & Hb & Ha).
  cbn [newWorld _loaded_emitted] in Hl.
  split; [|split; [|split; [|split]]]; trivial.
  - rewrite Hl. destruct calls; lia.
  - intros Hne. split; [rewrite Hl; now destruct calls|].
    destruct calls as [|[steps dt] rest]; [contradiction|].
    rewrite simulateAll_cons, simulate_unfold. cbn [fst snd newWorld _loaded_emitted].
    eexists. reflexivity.
  - intros first second ->. rewrite Hl, Hb, Ha. repeat split.
Qed.

End Lifecycle.

Lemma loaded_once_witness :
  (forall steps dt, Forall (fun e => event e = STEP) (fst (FixedStepSolver steps dt)))
  /\ occurrences LOADED
       (snd (simulateAll (newWorld FixedStepSolver) [(2%Z, 0.125); (3%Z, 0.125)]))
     = 1%nat.
Proof.
  assert (H : forall steps dt,
             Forall (fun e => event e = STEP) (fst (FixedStepSolver steps dt))).
  { intros steps dt. rewrite FixedStepSolver_unfold. apply stepLoop_steps. }
  split; [exact H|].
  apply (loaded_once FixedStepSolver H [(2%Z, 0.125); (3%Z, 0.125)]).
  discriminate.
Defined.

Example two_runs :
  map event (snd (simulateAll (newWorld FixedStepSolver) [(2%Z, 0.125); (1%Z, 0.125)]))
  = [LOADED; BEFORE_SIMULATION; STEP; STEP; AFTER_SIMULATION;
     BEFORE_SIMULATION; STEP; AFTER_SIMULATION].
Proof. reflexivity. Qed.

End WorldFacts.

(** * Further properties of the panel *)

(** ** The edges [wiringToEdges] builds *)

Section BuiltEdges.

Lemma wiredEdge_readsBack (k : N) (srcRef d : string) (src dst : Ref) :
  parseRef srcRef = Some src -> parseRef d = Some dst ->
  readsBack (wiredEdge k srcRef d src dst).
Proof.
  intros Hs Hd. destruct (wiredEdge_reads k _ _ _ _ Hs Hd) as (Ef & Et & _).
  exists src, dst. rewrite Ef, Et. now repeat split.
Qed.

Lemma accOK_push (acc : EdgeAcc) (srcRef d : string) (src dst : Ref) :
  parseRef srcRef = Some src -> parseRef d = Some dst ->
  accOK acc ->
  accOK ((fst acc ++ [wiredEdge (snd acc + 1) srcRef d src dst])%list, (snd acc + 1)%N).
Proof.
  intros Hs Hd (Hk & Hnum & Hrb). unfold accOK. cbn [fst snd].
  assert (Hk' : (snd acc + 1)%N = N.of_nat (S (List.length (fst acc)))) by lia.
  repeat split.
  - rewrite length_app. simpl. lia.
  - intros j e Hj.
    destruct (Nat.lt_ge_cases j (List.length (fst acc))) as [Hlt | Hge].
    + rewrite nth_error_app1 in Hj by exact Hlt. now apply Hnum.
    + rewrite nth_error_app2 in Hj by exact Hge.
      destruct (j - List.length (fst acc))%nat as [|m] eqn:E.
      * injection Hj as <-.
        assert (j = List.length (fst acc)) as -> by lia.
        destruct (wiredEdge_reads (snd acc + 1) _ _ _ _ Hs Hd) as (Ef & Et & _).
        rewrite Ef, Et, <- Hk'. reflexivity.
      * simpl in Hj. now destruct m.
  - apply Forall_app. split; [exact Hrb|].
    constructor; [now apply wiredEdge_readsBack | constructor].
Qed.

Lemma pushDst_accOK (srcRef : string) (src : Ref) (acc : EdgeAcc) (dstRef : JSON) :
  parseRef srcRef = Some src -> accOK acc -> accOK (pushDst srcRef src acc dstRef).
Proof.
  intros Hs Hacc. destruct dstRef; simpl; trivial.
  destruct (parseRef s) as [dst|] eqn:Hd; trivial.
  now apply accOK_push.
Qed.

Lemma fold_pushDst_accOK (srcRef : string) (src : Ref) (dsts : list JSON) (acc : EdgeAcc) :
  parseRef srcRef = Some src -> accOK acc ->
  accOK (fold_left (pushDst srcRef src) dsts acc).
Proof.
  intros Hs. revert acc. induction dsts as [|d dsts IH]; intros acc Hacc; simpl;
    [exact Hacc|].
  apply IH. now apply pushDst_accOK.
Qed.

Lemma fold_pushEntry_accOK (entries : list JSON) (acc : EdgeAcc) :
  accOK acc -> accOK (fold_left pushEntry entries acc).
Proof.
  revert acc. induction entries as [|e entries IH]; intros acc Hacc; simpl;
    [exact Hacc|].
  apply IH. unfold pushEntry.
  destruct (parseRef (srcRefOf e)) as [src|] eqn:Hs; [|exact Hacc].
  now apply fold_pushDst_accOK.
Qed.

Lemma accOK_start : accOK ([], 0%N).
Proof.
  repeat split; [|constructor]. intros j e Hj. now destruct j.
Qed.

(** Every edge built from a wiring carries the parse of its two references,
    and the edges are numbered from 1 in their order. *)
Theorem wiringToEdges_built (items : list JSON) :
  exists edges,
    wiringToEdges (JArray items) = inr edges
    /\ Forall readsBack edges
    /\ numbered edges.
Proof.
  rewrite wiringToEdges_array. eexists. split; [reflexivity|].
  destruct (fold_pushEntry_accOK (filter isObject items) ([], 0%N) accOK_start)
    as (_ & Hnum & Hrb).
  now split.
Qed.

End BuiltEdges.

(** ** The ids of the built edges *)

Section EdgeIds.

Lemma digits_then_dash (d1 d2 : Decimal.uint) (x y : string) :
  NilEmpty.string_of_uint d1 ++ String "-" x
  = NilEmpty.string_of_uint d2 ++ String "-" y ->
  d1 = d2.
Proof.
  revert d2. induction d1 as [|d1 IH|d1 IH|d1 IH|d1 IH|d1 IH|d1 IH|d1 IH|d1 IH|d1 IH|d1 IH];
    intros [|d2|d2|d2|d2|d2|d2|d2|d2|d2|d2]; simpl; intros H;
    try discriminate; try reflexivity;
    injection H as H; f_equal; now apply IH.
Qed.

Lemma showSeq_digits (n : N) : showSeq n = NilEmpty.string_of_uint (N.to_uint n).
Proof.
  unfold showSeq, NilZero.string_of_uint. destruct n as [|p]; [reflexivity|].
  simpl N.to_uint. pose proof (DecimalPos.Unsigned.to_uint_nonnil p) as H.
  now destruct (Pos.to_uint p).
Qed.

(** The counter can be read off an id: it ends at the first ['-']. *)
Lemma showSeq_then_dash (a b : N) (x y : string) :
  showSeq a ++ "-" ++ x = showSeq b ++ "-" ++ y -> a = b.
Proof.
  rewrite !showSeq_digits. intros H.
  apply DecimalN.Unsigned.to_uint_inj. exact (digits_then_dash _ _ _ _ H).
Qed.

Lemma numbered_ids (es : list Edge) : numbered es -> NoDup (map id es).
Proof.
  intros Hnum. apply NoDup_nth_error. intros a b Ha E.
  rewrite length_map in Ha. rewrite !nth_error_map in E.
  destruct (nth_error es a) as [ea|] eqn:Ea; [|apply nth_error_None in Ea; lia].
  destruct (nth_error es b) as [eb|] eqn:Eb; [|discriminate].
  simpl in E. injection E as E.
  rewrite (Hnum _ _ Ea), (Hnum _ _ Eb) in E.
  injection E as E. apply showSeq_then_dash in E. lia.
Qed.

(** No two edges built from a wiring share an id, even when the same
    connection is listed twice. *)
Theorem wiringToEdges_ids_distinct (items : list JSON) :
  exists edges,
    wiringToEdges (JArray items) = inr edges /\ NoDup (map id edges).
Proof.
  rewrite wiringToEdges_array. eexists. split; [reflexivity|].
  apply numbered_ids.
  now destruct (fold_pushEntry_accOK (filter isObject items) ([], 0%N) accOK_start)
    as (_ & Hnum & _).
Qed.

Example wiringToEdges_twice :
  option_map (map id)
    (match wiringToEdges (JArray [entryOf "a.x" [JString "b.y"; JString "b.y"]])
     with inr edges => Some edges | inl _ => None end)
  = Some ["w-1-a.x->b.y"; "w-2-a.x->b.y"].
Proof. reflexivity. Qed.

End EdgeIds.

(** ** From the canvas to the wiring and back *)

Section CanvasRoundTrip.

Variable localeCompare : string -> string -> comparison.

Lemma clean_parse (s h : string) :
  cleanId s -> h <> "" -> parseRef (s ++ "." ++ h) = Some (mkRef s h).
Proof.
  intros [Hne Hdot] Hh. change (s ++ "." ++ h) with (s ++ String dot h).
  now apply parseRef_ok.
Qed.

Lemma noHandle_false (h : option string) :
  noHandle h = false -> exists t, h = Some t /\ t <> "".
Proof.
  destruct h as [t|]; simpl; [|discriminate]. intros H.
  exists t. split; [reflexivity | now apply String.eqb_neq].
Qed.

Lemma hasHandles_true (e : Edge) :
  hasHandles e = true <-> noHandle (sourceHandle e) || noHandle (targetHandle e) = false.
Proof. unfold hasHandles. now rewrite negb_true_iff. Qed.

(** A clean edge with both handles parses back to its own fields. *)
Lemma cleanEdge_parses (e : Edge) :
  cleanEdge e -> hasHandles e = true ->
  exists h h',
    sourceHandle e = Some h /\ targetHandle e = Some h'
    /\ parseRef (fromOf e) = Some (mkRef (source e) h)
    /\ parseRef (toOf e) = Some (mkRef (target e) h').
Proof.
  intros Hc Hh. destruct (Hc Hh) as [Hs Ht].
  apply hasHandles_true, orb_false_iff in Hh as [Hsh Hth].
  destruct (noHandle_false _ Hsh) as (h & Eh & Hne).
  destruct (noHandle_false _ Hth) as (h' & Eh' & Hne').
  exists h, h'. unfold fromOf, toOf. rewrite Eh, Eh'. simpl handleText.
  repeat split; now apply clean_parse.
Qed.

Lemma cleanEdge_edgeOK (e : Edge) : cleanEdge e -> edgeOK parses e.
Proof.
  intros Hc Hs Ht.
  destruct (cleanEdge_parses e Hc) as (h & h' & _ & _ & Pf & Pt).
  { apply hasHandles_true. now rewrite Hs, Ht. }
  split; eexists; eassumption.
Qed.

Lemma edgesToWiring_groups (edges : list Edge) :
  Forall (edgeOK parses) edges ->
  groupedOK parses (fold_left groupEdge edges []).
Proof. intros H. apply fold_groupEdge_ok; [exact H | apply groupedOK_empty]. Qed.

Lemma edgesToWiring_parses (edges : list Edge) :
  Forall (edgeOK parses) edges ->
  Forall (fun e => parses (from e) /\ Forall parses (to e))
         (edgesToWiring localeCompare edges).
Proof.
  intros H. destruct (edgesToWiring_groups edges H) as [_ Hsets].
  rewrite edgesToWiring_unfold. apply Forall_map. simpl.
  eapply Permutation_Forall; [symmetry; apply arraySort_perm|].
  eapply Forall_impl; [|exact Hsets].
  intros [f s] (Hf & _ & _ & Hall). simpl in *. split; [exact Hf|].
  eapply Permutation_Forall; [symmetry; apply arraySort_perm | exact Hall].
Qed.

(** The edges read from a wiring all of whose references are well formed:
    one per listed pair, in order. *)
Lemma wiringValue_edges (w : list WiringOut) :
  Forall (fun e => parses (from e) /\ Forall parses (to e)) w ->
  exists es, wiringToEdges (wiringValue w) = inr es /\ pairsOf es = wiringPairs w.
Proof.
  intros Hw.
  destruct (fold_pushEntry_pairs w ([], 0%N) Hw) as (es & k & E & Hpairs & _).
  exists es. split; [|exact Hpairs].
  unfold wiringValue.
  change (map _ w) with (map (fun e => entryOf (from e) (map JString (to e))) w).
  now rewrite wiringToEdges_array, filter_entries, E.
Qed.

Lemma wiringToEdges_readsBack (raw : JSON) (edges : list Edge) :
  wiringToEdges raw = inr edges -> Forall readsBack edges.
Proof.
  unfold wiringToEdges. destruct (normalizeWiring raw) as [msg | wiring];
    [discriminate|].
  intros H. injection H as <-.
  now destruct (fold_pushEntry_accOK wiring ([], 0%N) accOK_start) as (_ & _ & Hrb).
Qed.

Lemma edgesToWiring_pairs_NoDup (edges : list Edge) :
  NoDup (wiringPairs (edgesToWiring localeCompare edges)).
Proof.
  destruct (fold_groupEdge_keys edges) as [Hkeys Hsets].
  apply wiringPairs_NoDup.
  - eapply Permutation_NoDup; [symmetry; apply edgesToWiring_sources | exact Hkeys].
  - rewrite edgesToWiring_unfold. apply Forall_map. simpl.
    eapply Permutation_Forall; [symmetry; apply arraySort_perm|].
    eapply Forall_impl; [|exact Hsets].
    intros [k s] (_ & _ & Hnd & _). simpl in *.
    eapply Permutation_NoDup; [symmetry; apply arraySort_perm | exact Hnd].
Qed.

Lemma edgesToWiring_listed (edges : list Edge) (f t : string) :
  In (f, t) (wiringPairs (edgesToWiring localeCompare edges)) <-> listed edges f t.
Proof.
  rewrite edgesToWiring_In. split.
  - intros H. apply fold_groupEdge_inv in H as [(s & [] & _) | H]. exact H.
  - intros (e & Hin & Hh & <- & <-). now apply fold_groupEdge_has.
Qed.

Lemma same_refs_same_endpoints (e e' : Edge) :
  cleanEdge e -> hasHandles e = true -> readsBack e' ->
  fromOf e' = fromOf e -> toOf e' = toOf e ->
  endpoints e' = endpoints e.
Proof.
  intros Hc Hh (src & dst & Pf & Pt & Es & Esh & Et & Eth) Ef Eto.
  destruct (cleanEdge_parses e Hc Hh) as (h & h' & Eh & Eh' & Pf' & Pt').
  rewrite Ef, Pf' in Pf. rewrite Eto, Pt' in Pt.
  injection Pf as <-. injection Pt as <-.
  unfold endpoints. rewrite Es, Esh, Et, Eth, Eh, Eh'. reflexivity.
Qed.

(** Round trip of the canvas: writing the edges as a wiring and reading the
    wiring back gives edges with the same endpoints as the edges that carry
    both handles, each once. *)
Theorem canvas_round_trip (edges : list Edge) :
  Forall cleanEdge edges ->
  exists edges',
    wiringToEdges (wiringValue (edgesToWiring localeCompare edges)) = inr edges'
    /\ (forall q, In q (map endpoints edges')
                  <-> In q (map endpoints (filter hasHandles edges)))
    /\ NoDup (map endpoints edges').
Proof.
  intros Hclean. rewrite Forall_forall in Hclean.
  destruct (wiringValue_edges (edgesToWiring localeCompare edges)) as (es & E & Hpairs).
  { apply edgesToWiring_parses, Forall_forall. intros e He.
    now apply cleanEdge_edgeOK, Hclean. }
  pose proof (wiringToEdges_readsBack _ _ E) as Hrb. rewrite Forall_forall in Hrb.
  exists es. split; [exact E|]. split.
  - intros q. rewrite !in_map_iff. split.
    + intros (e' & <- & He').
      assert (Hin : In (fromOf e', toOf e') (pairsOf es))
        by (apply in_map_iff; now exists e').
      rewrite Hpairs in Hin. apply edgesToWiring_listed in Hin
        as (e & He & Hh & Ef & Et).
      apply hasHandles_true in Hh.
      exists e. split; [|apply filter_In; now split].
      symmetry. apply same_refs_same_endpoints; auto.
    + intros (e & <- & He). apply filter_In in He as [He Hh].
      assert (Hin : In (fromOf e, toOf e) (pairsOf es)).
      { rewrite Hpairs. apply edgesToWiring_listed. exists e.
        repeat split; trivial. now apply hasHandles_true. }
      apply in_map_iff in Hin as (e' & Eq & He'). injection Eq as Ef Et.
      exists e'. split; [|exact He'].
      apply same_refs_same_endpoints; auto.
  - apply (NoDup_map_inv refsOf).
    replace (map refsOf (map endpoints es)) with (pairsOf es).
    + rewrite Hpairs. apply edgesToWiring_pairs_NoDup.
    + unfold pairsOf. rewrite map_map. reflexivity.
Qed.

End CanvasRoundTrip.

Lemma canvas_round_trip_witness :
  Forall cleanEdge [connectedEdge "1" "b" "x" "c" "z"; connectedEdge "2" "a" "x" "b" "y";
                    connectedEdge "3" "b" "x" "c" "z"]
  /\ exists edges',
       wiringToEdges
         (wiringValue
            (edgesToWiring JsString.compare
               [connectedEdge "1" "b" "x" "c" "z"; connectedEdge "2" "a" "x" "b" "y";
                connectedEdge "3" "b" "x" "c" "z"])) = inr edges'
       /\ NoDup (map endpoints edges').
Proof.
  assert (H : Forall cleanEdge
                [connectedEdge "1" "b" "x" "c" "z"; connectedEdge "2" "a" "x" "b" "y";
                 connectedEdge "3" "b" "x" "c" "z"]).
  { repeat constructor; discriminate. }
  split; [exact H|].
  destruct (canvas_round_trip JsString.compare _ H) as (edges' & E & _ & Hnd).
  exists edges'. now split.
Defined.

(** ** Writing from the canvas, then applying the raw draft *)

Section ApplyAfterUpdate.

Variable localeCompare : string -> string -> comparison.
Variable JSON_parse : string -> Result JSON.
Variable stringifyWiring : list WiringOut -> string.
Variable stringifyStored : string -> string.
Variable setItem : string -> string -> Storage -> option Storage.
Variable storageKey : string.

Lemma setControl_again (name value : string) (cs : list (string * string)) :
  setControl name value (setControl name value cs) = setControl name value cs.
Proof.
  induction cs as [|[k v] cs IH]; simpl.
  - now rewrite String.eqb_refl.
  - destruct (k =? name)%string eqn:E; simpl; rewrite E; [reflexivity | now rewrite IH].
Qed.

Lemma getControl_setControl (name value : string) (cs : list (string * string)) :
  getControl name (setControl name value cs) = Some value.
Proof.
  induction cs as [|[k v] cs IH]; simpl.
  - now rewrite String.eqb_refl.
  - destruct (k =? name)%string eqn:E; simpl; rewrite E; [reflexivity | exact IH].
Qed.

Lemma getControl_other (name name' value : string) (cs : list (string * string)) :
  name <> name' ->
  getControl name (setControl name' value cs) = getControl name cs.
Proof.
  intros H.
  assert (E : (name' =? name)%string = false) by (apply String.eqb_neq; congruence).
  induction cs as [|[k v] cs IH]; cbn [setControl getControl].
  - now rewrite E.
  - destruct (k =? name')%string eqn:Ek; cbn [getControl].
    + apply String.eqb_eq in Ek. subst k. now rewrite E.
    + now rewrite IH.
Qed.

Hypothesis localeCompare_consistent : consistent localeCompare.

(** The wiring written for clean edges of the canvas is in normal form. *)
Lemma canvas_wiring_normal (edges : list Edge) :
  Forall cleanEdge edges -> Normal localeCompare (edgesToWiring localeCompare edges).
Proof.
  intros Hclean.
  assert (Hok : Forall (edgeOK parses) edges)
    by (eapply Forall_impl; [|exact Hclean]; intros e; apply cleanEdge_edgeOK).
  destruct (edgesToWiring_groups edges Hok) as [Hkeys Hsets]. constructor.
  - eapply Permutation_NoDup; [symmetry; apply edgesToWiring_sources | exact Hkeys].
  - rewrite edgesToWiring_unfold. apply sorted_map_from, arraySort_sorted.
    intros a b. apply (consistent_asymmetric localeCompare_consistent).
  - rewrite edgesToWiring_unfold. apply Forall_map. simpl.
    eapply Permutation_Forall; [symmetry; apply arraySort_perm|].
    eapply Forall_impl; [|exact Hsets].
    intros [f s] (Hf & Hne & Hnd & Hall). simpl in *.
    pose proof (arraySort_perm _ JsString.compare s) as Hperm.
    repeat split.
    + exact Hf.
    + intros E. rewrite E in Hperm. apply Permutation_nil in Hperm. contradiction.
    + eapply Permutation_NoDup; [symmetry; exact Hperm | exact Hnd].
    + apply arraySort_sorted, CodeUnitOrder.compare_asymmetric.
    + eapply Permutation_Forall; [symmetry; exact Hperm | exact Hall].
Qed.

(** After the canvas has written its edges ([updateControlsFromEdges]),
    applying the raw draft as it stands changes no control: the draft is the
    text just written, it parses to the wiring just written, and that wiring
    normalizes to itself. *)
Theorem apply_after_update (st : PanelState) (edges : list Edge) :
  Forall cleanEdge edges ->
  JSON_parse (stringifyWiring (edgesToWiring localeCompare edges))
  = inr (wiringValue (edgesToWiring localeCompare edges)) ->
  controls
    (applyRawJson localeCompare JSON_parse stringifyWiring stringifyStored setItem
       storageKey
       (updateControlsFromEdges localeCompare stringifyWiring stringifyStored setItem
          storageKey st edges))
  = controls
      (updateControlsFromEdges localeCompare stringifyWiring stringifyStored setItem
         storageKey st edges)
  /\ getControl "wiring"
       (controls
          (applyRawJson localeCompare JSON_parse stringifyWiring stringifyStored setItem
             storageKey
             (updateControlsFromEdges localeCompare stringifyWiring stringifyStored
                setItem storageKey st edges)))
     = Some (stringifyWiring (edgesToWiring localeCompare edges))
  /\ lastApplied
       (applyRawJson localeCompare JSON_parse stringifyWiring stringifyStored setItem
          storageKey
          (updateControlsFromEdges localeCompare stringifyWiring stringifyStored
             setItem storageKey st edges))
     = stringifyWiring (edgesToWiring localeCompare edges)
  /\ parseError
       (applyRawJson localeCompare JSON_parse stringifyWiring stringifyStored setItem
          storageKey
          (updateControlsFromEdges localeCompare stringifyWiring stringifyStored
             setItem storageKey st edges))
     = None.
Proof.
  intros Hclean Hparse.
  destruct (normal_fixed _ _ (canvas_wiring_normal edges Hclean)) as (es & Hes & Hfix).
  unfold applyRawJson, updateControlsFromEdges. cbn [rawDraft controls].
  rewrite Hparse, Hes. cbn [controls lastApplied parseError]. rewrite Hfix.
  rewrite setControl_again, getControl_setControl. repeat split.
Qed.

End ApplyAfterUpdate.

Lemma apply_after_update_witness :
  (consistent JsString.compare
   /\ Forall cleanEdge [connectedEdge "1" "a" "x" "b" "y"]
   /\ sampleParseOne "one"
      = inr (wiringValue (edgesToWiring JsString.compare [connectedEdge "1" "a" "x" "b" "y"])))
  /\ parseError
       (applyRawJson JsString.compare sampleParseOne (fun _ => "one") (fun x => x)
          sampleSetItem "simui:wiring:default"
          (updateControlsFromEdges JsString.compare (fun _ => "one") (fun x => x)
             sampleSetItem "simui:wiring:default"
             (mkPanel [] "" (Some "old error") false true "" [])
             [connectedEdge "1" "a" "x" "b" "y"]))
     = None.
Proof.
  assert (Hc : Forall cleanEdge [connectedEdge "1" "a" "x" "b" "y"])
    by (repeat constructor; discriminate).
  split; [split; [exact CodeUnitOrder.compare_consistent | split; [exact Hc | reflexivity]]|].
  apply (apply_after_update JsString.compare sampleParseOne (fun _ => "one") (fun x => x)
           sampleSetItem "simui:wiring:default" CodeUnitOrder.compare_consistent
           (mkPanel [] "" (Some "old error") false true "" [])
           [connectedEdge "1" "a" "x" "b" "y"] Hc).
  reflexivity.
Defined.

(** ** The flow graph: sets and maps *)

Section FlowSets.

Lemma mapGet_absent (k : string) (m : Grouped) :
  ~ In k (map fst m) -> mapGet k m = [].
Proof.
  induction m as [|[k' v] m IH]; simpl; [reflexivity|].
  intros H. destruct (k' =? k)%string eqn:E.
  - apply String.eqb_eq in E. tauto.
  - apply IH. tauto.
Qed.

Lemma mapGet_app (k : string) (m m' : Grouped) :
  mapGet k (m ++ m')%list
  = if mapHas k m then mapGet k m else mapGet k m'.
Proof.
  induction m as [|[k' v] m IH]; simpl; [reflexivity|].
  destruct (k' =? k)%string; simpl; [reflexivity | exact IH].
Qed.

Lemma mapGet_ensureKey (k k' : string) (m : Grouped) :
  mapGet k (ensureKey k' m) = mapGet k m.
Proof.
  unfold ensureKey. destruct (mapHas k' m) eqn:E; [reflexivity|].
  assert (Hk' : ~ In k' (map fst m)) by (rewrite <- mapHas_In, E; discriminate).
  rewrite (mapSet_new _ _ _ Hk'), mapGet_app.
  destruct (mapHas k m) eqn:Ek; [reflexivity|]. simpl.
  destruct (k' =? k)%string eqn:Ekk; [|now destruct (mapGet k m) eqn:G; rewrite ?G;
    [reflexivity | rewrite mapGet_absent in G; [discriminate|];
     rewrite <- mapHas_In, Ek; discriminate]].
  symmetry. apply mapGet_absent. rewrite <- mapHas_In, Ek. discriminate.
Qed.

Lemma ensureKey_has (k : string) (m : Grouped) : In k (map fst (ensureKey k m)).
Proof.
  unfold ensureKey. destruct (mapHas k m) eqn:E; [now apply mapHas_In|].
  assert (Hk : ~ In k (map fst m)) by (rewrite <- mapHas_In, E; discriminate).
  rewrite (mapSet_new _ _ _ Hk), map_app. apply in_or_app. right. now left.
Qed.

Lemma mapGet_mapAddTo (k k' x : string) (m : Grouped) :
  mapGet k (mapAddTo k' x m)
  = if (k' =? k)%string && mapHas k m then setAdd x (mapGet k m) else mapGet k m.
Proof.
  induction m as [|[k0 s] m IH]; simpl.
  - now rewrite andb_false_r.
  - destruct (k0 =? k')%string eqn:E0; simpl.
    + apply String.eqb_eq in E0. subst k0.
      destruct (k' =? k)%string; reflexivity.
    + destruct (k0 =? k)%string eqn:E1.
      * apply String.eqb_eq in E1. subst k0.
        rewrite String.eqb_sym in E0. now rewrite E0.
      * exact IH.
Qed.

Lemma mapGet_mapAddTo_mono (k k' x y : string) (m : Grouped) :
  In y (mapGet k m) -> In y (mapGet k (mapAddTo k' x m)).
Proof.
  intros H. rewrite mapGet_mapAddTo.
  destruct ((k' =? k)%string && mapHas k m); [now apply setAdd_keeps | exact H].
Qed.

Lemma mapGet_mapAddTo_same (k x : string) (m : Grouped) :
  In k (map fst m) -> In x (mapGet k (mapAddTo k x m)).
Proof.
  intros H. rewrite mapGet_mapAddTo, String.eqb_refl.
  apply mapHas_In in H. rewrite H. apply setAdd_has.
Qed.

(** Declaring a port makes it known under its module and forgets nothing. *)
Lemma declare_known (k x : string) (m : Grouped) :
  In x (mapGet k (mapAddTo k x (ensureKey k m))).
Proof. apply mapGet_mapAddTo_same, ensureKey_has. Qed.

Lemma declare_mono (k k' x y : string) (m : Grouped) :
  In y (mapGet k m) -> In y (mapGet k (mapAddTo k' x (ensureKey k' m))).
Proof.
  intros H. apply mapGet_mapAddTo_mono. now rewrite mapGet_ensureKey.
Qed.

Lemma setAdd_NoDup (x : string) (s : StrSet) : NoDup s -> NoDup (setAdd x s).
Proof.
  intros H. destruct (setAdd_cases x s) as [[_ ->] | [Hnin ->]]; [exact H|].
  apply NoDup_app; trivial.
  - repeat constructor. intros [].
  - intros a Ha [<- | []]. contradiction.
Qed.

Lemma setsOK_mapAddTo (k x : string) (m : Grouped) :
  setsOK m -> setsOK (mapAddTo k x m).
Proof.
  unfold setsOK. induction 1 as [|[k' s] m Hs Hm IH]; simpl; [constructor|].
  destruct (k' =? k)%string; constructor; trivial. now apply setAdd_NoDup.
Qed.

Lemma setsOK_ensureKey (k : string) (m : Grouped) : setsOK m -> setsOK (ensureKey k m).
Proof.
  intros H. unfold ensureKey. destruct (mapHas k m) eqn:E; [exact H|].
  assert (Hk : ~ In k (map fst m)) by (rewrite <- mapHas_In, E; discriminate).
  rewrite (mapSet_new _ _ _ Hk). apply Forall_app. split; [exact H|].
  repeat constructor.
Qed.

Lemma mapGet_NoDup (k : string) (m : Grouped) : setsOK m -> NoDup (mapGet k m).
Proof.
  unfold setsOK. induction 1 as [|[k' s] m Hs Hm IH]; simpl; [constructor|].
  now destruct (k' =? k)%string.
Qed.

Lemma setOfList_fold (l : list string) (s : StrSet) :
  NoDup s ->
  NoDup (fold_left (fun s x => setAdd x s) l s)
  /\ forall x, In x (fold_left (fun s x => setAdd x s) l s) <-> In x s \/ In x l.
Proof.
  revert s. induction l as [|y l IH]; intros s Hs; simpl.
  - split; [exact Hs | intros x; tauto].
  - destruct (IH (setAdd y s) (setAdd_NoDup y s Hs)) as [Hnd Hin].
    split; [exact Hnd|]. intros x. rewrite Hin. split.
    + intros [H | H]; [|tauto].
      destruct (setAdd_cases y s) as [[_ E] | [_ E]]; rewrite E in H; [tauto|].
      apply in_app_or in H as [H | [<- | []]]; tauto.
    + intros [H | [<- | H]]; [left; now apply setAdd_keeps | left; apply setAdd_has | tauto].
Qed.

Lemma setDelete_In (x y : string) (s : StrSet) :
  In x (setDelete y s) <-> In x s /\ x <> y.
Proof.
  unfold setDelete. rewrite filter_In, negb_true_iff, String.eqb_neq. tauto.
Qed.

Lemma setDelete_fold (hidden : list string) (s : StrSet) :
  NoDup s ->
  NoDup (fold_left (fun s h => setDelete h s) hidden s)
  /\ forall x, In x (fold_left (fun s h => setDelete h s) hidden s)
               <-> In x s /\ ~ In x hidden.
Proof.
  revert s. induction hidden as [|h hidden IH]; intros s Hs; simpl.
  - split; [exact Hs | intros x; tauto].
  - destruct (IH (setDelete h s)) as [Hnd Hin]; [now apply NoDup_filter|].
    split; [exact Hnd|]. intros x. rewrite Hin, setDelete_In. split.
    + intros [[H1 H2] H3]. split; [exact H1|]. intros [-> | H]; tauto.
    + intros [H1 H2]. repeat split; trivial; intros H; apply H2; [left; now symmetry | now right].
Qed.

End FlowSets.

(** ** The flow graph: the loops of [wiringToFlow] *)

Section FlowLoops.

Lemma extends_refl (p : FlowPorts) : extends p p.
Proof. repeat split; auto. Qed.

Lemma extends_trans {p q r : FlowPorts} : extends p q -> extends q r -> extends p r.
Proof.
  intros (A1 & B1 & C1) (A2 & B2 & C2). repeat split; auto.
Qed.

Lemma covered_mono (p q : FlowPorts) (e : Edge) :
  extends p q -> covered p e -> covered q e.
Proof.
  intros (A & B & C) (Hs & Hsh & Ht & Hth). repeat split; auto.
Qed.

Lemma flowDst_inv (srcRef : string) (src : Ref) (st : FlowAcc) (dstRef : JSON) :
  flowOK st ->
  In (module src) (moduleIds (fst st)) ->
  In (port src) (mapGet (module src) (outputsByModule (fst st))) ->
  flowOK (flowDst srcRef src st dstRef)
  /\ extends (fst st) (fst (flowDst srcRef src st dstRef)).
Proof.
  intros [(Hids & Houts & Hins) Hcov] Hm Hp.
  assert (Hsame : flowOK st /\ extends (fst st) (fst st))
    by (split; [now repeat split | apply extends_refl]).
  destruct dstRef; simpl; trivial.
  destruct (parseRef s) as [dst|] eqn:Hd; trivial. cbn [fst snd].
  assert (Hext : extends (fst st)
                   {| moduleIds := setAdd (module dst) (moduleIds (fst st));
                      outputsByModule := outputsByModule (fst st);
                      inputsByModule :=
                        mapAddTo (module dst) (port dst)
                                 (ensureKey (module dst) (inputsByModule (fst st))) |}).
  { repeat split; cbn; intros; [now apply setAdd_keeps | assumption | now apply declare_mono]. }
  split; [|exact Hext]. split.
  - repeat split; cbn.
    + now apply setAdd_NoDup.
    + exact Houts.
    + now apply setsOK_mapAddTo, setsOK_ensureKey.
  - cbn [fst snd]. apply Forall_app. split.
    + eapply Forall_impl; [|exact Hcov]. intros e. now apply covered_mono.
    + constructor; [|constructor]. repeat split; cbn.
      * now apply setAdd_keeps.
      * intros h E. injection E as <-. exact Hp.
      * apply setAdd_has.
      * intros h E. injection E as <-. apply declare_known.
Qed.

Lemma fold_flowDst_inv (srcRef : string) (src : Ref) (dsts : list JSON) (st : FlowAcc) :
  flowOK st ->
  In (module src) (moduleIds (fst st)) ->
  In (port src) (mapGet (module src) (outputsByModule (fst st))) ->
  flowOK (fold_left (flowDst srcRef src) dsts st)
  /\ extends (fst st) (fst (fold_left (flowDst srcRef src) dsts st)).
Proof.
  revert st. induction dsts as [|d dsts IH]; intros st Hok Hm Hp; simpl.
  - split; [exact Hok | apply extends_refl].
  - destruct (flowDst_inv srcRef src st d Hok Hm Hp) as [Hok' Hext].
    destruct (IH (flowDst srcRef src st d) Hok') as [Hok'' Hext'].
    + now apply Hext.
    + now apply Hext.
    + split; [exact Hok'' | now apply (extends_trans Hext)].
Qed.

Lemma flowEntry_inv (st : FlowAcc) (entry : JSON) :
  flowOK st ->
  flowOK (flowEntry st entry) /\ extends (fst st) (fst (flowEntry st entry)).
Proof.
  intros Hok. unfold flowEntry.
  destruct (parseRef (srcRefOf entry)) as [src|] eqn:Hs;
    [|split; [exact Hok | apply extends_refl]].
  destruct Hok as [(Hids & Houts & Hins) Hcov].
  set (ports' := {| moduleIds := setAdd (module src) (moduleIds (fst st));
                    outputsByModule :=
                      mapAddTo (module src) (port src)
                               (ensureKey (module src) (outputsByModule (fst st)));
                    inputsByModule := inputsByModule (fst st) |}).
  assert (Hext : extends (fst st) ports').
  { repeat split; cbn; intros; [now apply setAdd_keeps | now apply declare_mono | assumption]. }
  destruct (fold_flowDst_inv (srcRefOf entry) src (dstRefsOf entry) (ports', snd st))
    as [Hok' Hext'].
  - split; cbn [fst snd].
    + repeat split; cbn; [now apply setAdd_NoDup | | exact Hins].
      now apply setsOK_mapAddTo, setsOK_ensureKey.
    + eapply Forall_impl; [|exact Hcov]. intros e. now apply covered_mono.
  - cbn. apply setAdd_has.
  - cbn. apply declare_known.
  - split; [exact Hok' | now apply (extends_trans Hext)].
Qed.

Lemma fold_flowEntry_inv (wiring : list JSON) (st : FlowAcc) :
  flowOK st ->
  flowOK (fold_left flowEntry wiring st)
  /\ extends (fst st) (fst (fold_left flowEntry wiring st)).
Proof.
  revert st. induction wiring as [|e wiring IH]; intros st Hok; simpl.
  - split; [exact Hok | apply extends_refl].
  - destruct (flowEntry_inv st e Hok) as [Hok' Hext].
    destruct (IH _ Hok') as [Hok'' Hext'].
    split; [exact Hok'' | now apply (extends_trans Hext)].
Qed.

Lemma fold_addTo (alias : string) (ports : list string) (m : Grouped) :
  In alias (map fst m) -> setsOK m ->
  setsOK (fold_left (fun m p => mapAddTo alias p m) ports m)
  /\ (forall k y, In y (mapGet k m)
                  -> In y (mapGet k (fold_left (fun m p => mapAddTo alias p m) ports m)))
  /\ (forall x, In x ports
                -> In x (mapGet alias (fold_left (fun m p => mapAddTo alias p m) ports m))).
Proof.
  revert m. induction ports as [|p ports IH]; intros m Hk Hm; simpl.
  - repeat split; auto. intros x [].
  - destruct (IH (mapAddTo alias p m)) as (Hok & Hmono & Hin).
    + now rewrite mapAddTo_keys.
    + now apply setsOK_mapAddTo.
    + repeat split; [exact Hok | |].
      * intros k y Hy. now apply Hmono, mapGet_mapAddTo_mono.
      * intros x [<- | Hx]; [|now apply Hin].
        now apply Hmono, mapGet_mapAddTo_same.
Qed.

Lemma declarePorts_inv (p : FlowPorts) (entry : string * Ports.t) :
  portsOK p ->
  portsOK (declarePorts p entry)
  /\ extends p (declarePorts p entry)
  /\ (forall x, In x (orEmpty (Ports.outputs (snd entry)))
                -> In x (mapGet (fst entry) (outputsByModule (declarePorts p entry))))
  /\ (forall x, In x (orEmpty (Ports.inputs (snd entry)))
                -> In x (mapGet (fst entry) (inputsByModule (declarePorts p entry)))).
Proof.
  intros (Hids & Houts & Hins). unfold declarePorts. cbn.
  destruct (fold_addTo (fst entry) (orEmpty (Ports.outputs (snd entry)))
              (ensureKey (fst entry) (outputsByModule p)))
    as (Ho1 & Ho2 & Ho3); [apply ensureKey_has | now apply setsOK_ensureKey|].
  destruct (fold_addTo (fst entry) (orEmpty (Ports.inputs (snd entry)))
              (ensureKey (fst entry) (inputsByModule p)))
    as (Hi1 & Hi2 & Hi3); [apply ensureKey_has | now apply setsOK_ensureKey|].
  repeat split; cbn; auto.
  - intros k x Hx. apply Ho2. now rewrite mapGet_ensureKey.
  - intros k x Hx. apply Hi2. now rewrite mapGet_ensureKey.
Qed.

Lemma fold_declarePorts_inv (portsByAlias : list (string * Ports.t)) (p : FlowPorts) :
  portsOK p ->
  portsOK (fold_left declarePorts portsByAlias p)
  /\ extends p (fold_left declarePorts portsByAlias p)
  /\ (forall alias ports x,
        In (alias, ports) portsByAlias ->
        (In x (orEmpty (Ports.outputs ports))
         -> In x (mapGet alias (outputsByModule (fold_left declarePorts portsByAlias p))))
        /\ (In x (orEmpty (Ports.inputs ports))
            -> In x (mapGet alias (inputsByModule (fold_left declarePorts portsByAlias p))))).
Proof.
  revert p. induction portsByAlias as [|entry rest IH]; intros p Hp; simpl.
  - split; [exact Hp|]. split; [apply extends_refl|]. intros ? ? ? [].
  - destruct (declarePorts_inv p entry Hp) as (Hok & Hext & Ho & Hi).
    destruct (IH _ Hok) as (Hok' & Hext' & Hdecl).
    split; [exact Hok'|]. split; [now apply (extends_trans Hext)|].
    intros alias ports x [-> | Hin]; [|now apply Hdecl].
    destruct Hext' as (_ & Eo & Ei). split; intros Hx.
    + apply Eo. now apply Ho.
    + apply Ei. now apply Hi.
Qed.

End FlowLoops.

(** ** The flow graph: nodes and edges *)

Section FlowGraph.

Variable wiring : list JSON.
Variable baseModules : list string.
Variable portsByAlias : list (string * Ports.t).
Variable hiddenModules : StrSet.
Variable prevNodes : list FlowNode.t.

(** What [wiringToFlow] computes, piece by piece. *)
Lemma wiringToFlow_shape :
  exists ports shown,
    portsOK ports
    /\ Forall (covered ports) (edges (wiringToFlow wiring baseModules portsByAlias
                                        hiddenModules prevNodes))
    /\ (forall x, In x (baseModules ++ map fst portsByAlias) -> In x (moduleIds ports))
    /\ (forall alias declared x,
          In (alias, declared) portsByAlias ->
          (In x (orEmpty (Ports.outputs declared))
           -> In x (mapGet alias (outputsByModule ports)))
          /\ (In x (orEmpty (Ports.inputs declared))
              -> In x (mapGet alias (inputsByModule ports))))
    /\ NoDup shown
    /\ (forall x, In x shown <-> In x (moduleIds ports) /\ ~ In x hiddenModules)
    /\ nodes (wiringToFlow wiring baseModules portsByAlias hiddenModules prevNodes)
       = map (fun id =>
                FlowNode.mk id "wiringNode" (prevPosition id prevNodes)
                  (FlowNode.mkData id
                     (arraySort JsString.compare (mapGet id (inputsByModule ports)))
                     (arraySort JsString.compare (mapGet id (outputsByModule ports)))))
             shown.
Proof.
  unfold wiringToFlow. cbn [nodes edges].
  set (ids := fold_left (fun s m => setAdd m s) (baseModules ++ map fst portsByAlias)%list []).
  set (declared := fold_left declarePorts portsByAlias (mkPorts ids [] [])).
  set (walked := fold_left flowEntry wiring (declared, ([], 0%N))).
  destruct (setOfList_fold (baseModules ++ map fst portsByAlias)%list [])
    as [Hids Hin]; [constructor|]. fold ids in Hids, Hin.
  destruct (fold_declarePorts_inv portsByAlias (mkPorts ids [] []))
    as (Hdok & Hdext & Hdecl); [repeat split; trivial; constructor|].
  fold declared in Hdok, Hdext, Hdecl.
  destruct (fold_flowEntry_inv wiring (declared, ([], 0%N)))
    as ([Hok Hcov] & Hext); [split; [exact Hdok | constructor]|].
  fold walked in Hok, Hcov, Hext. cbn [fst] in Hext.
  destruct (setDelete_fold hiddenModules (moduleIds (fst walked))) as [Hnd Hshown];
    [apply Hok|].
  exists (fst walked), (fold_left (fun s h => setDelete h s) hiddenModules
                          (moduleIds (fst walked))).
  repeat split; try apply Hok; trivial.
  - intros x Hx. apply Hext, Hdext. cbn. apply Hin. now right.
  - intros Hx. destruct Hext as (_ & Eo & _). apply Eo.
    now apply (Hdecl alias declared0 x).
  - intros Hx. destruct Hext as (_ & _ & Ei). apply Ei.
    now apply (Hdecl alias declared0 x).
  - now apply Hshown.
  - now apply Hshown.
  - intros [H1 H2]. now apply Hshown.
Qed.

(** The nodes of the flow graph have distinct ids, none of them hidden;
    each is a [wiringNode] labelled by its id, and its port lists are in
    strictly ascending code-unit order. *)
Theorem wiringToFlow_nodes :
  NoDup (map FlowNode.id
           (nodes (wiringToFlow wiring baseModules portsByAlias hiddenModules prevNodes)))
  /\ Forall (fun n =>
               ~ In (FlowNode.id n) hiddenModules
               /\ FlowNode.type n = "wiringNode"
               /\ FlowNode.label (FlowNode.data n) = FlowNode.id n
               /\ Sorted (fun a b => JsString.compare a b = Lt)
                         (FlowNode.inputs (FlowNode.data n))
               /\ Sorted (fun a b => JsString.compare a b = Lt)
                         (FlowNode.outputs (FlowNode.data n)))
            (nodes (wiringToFlow wiring baseModules portsByAlias hiddenModules prevNodes)).
Proof.
  destruct wiringToFlow_shape
    as (ports & shown & (_ & Houts & Hins) & _ & _ & _ & Hnd & Hshown & ->).
  split.
  - rewrite map_map. cbn. now rewrite map_id.
  - apply Forall_map, Forall_forall. intros x Hx. cbn.
    repeat split; try (now apply Hshown).
    + apply sorted_strict.
      * eapply Permutation_NoDup; [symmetry; apply arraySort_perm|].
        now apply mapGet_NoDup.
      * apply arraySort_sorted, CodeUnitOrder.compare_asymmetric.
    + apply sorted_strict.
      * eapply Permutation_NoDup; [symmetry; apply arraySort_perm|].
        now apply mapGet_NoDup.
      * apply arraySort_sorted, CodeUnitOrder.compare_asymmetric.
Qed.

Lemma node_of_shown (ports : FlowPorts) (shown : StrSet) (x : string) :
  In x shown ->
  exists n,
    In n (map (fun id =>
                 FlowNode.mk id "wiringNode" (prevPosition id prevNodes)
                   (FlowNode.mkData id
                      (arraySort JsString.compare (mapGet id (inputsByModule ports)))
                      (arraySort JsString.compare (mapGet id (outputsByModule ports)))))
              shown)
    /\ FlowNode.id n = x
    /\ (forall h, In h (mapGet x (inputsByModule ports))
                  -> In h (FlowNode.inputs (FlowNode.data n)))
    /\ (forall h, In h (mapGet x (outputsByModule ports))
                  -> In h (FlowNode.outputs (FlowNode.data n))).
Proof.
  intros Hx. eexists. split; [apply in_map; exact Hx|]. cbn.
  repeat split; intros h Hh;
    (eapply Permutation_in; [symmetry; apply arraySort_perm | exact Hh]).
Qed.

(** Every edge shown joins two nodes of the graph, and each of these nodes
    carries the handle the edge is attached to. *)
Theorem visibleEdges_drawn (e : Edge) :
  In e (visibleEdges
          (edges (wiringToFlow wiring baseModules portsByAlias hiddenModules prevNodes))
          hiddenModules) ->
  exists ns nt,
    In ns (nodes (wiringToFlow wiring baseModules portsByAlias hiddenModules prevNodes))
    /\ In nt (nodes (wiringToFlow wiring baseModules portsByAlias hiddenModules prevNodes))
    /\ FlowNode.id ns = source e
    /\ FlowNode.id nt = target e
    /\ (forall h, sourceHandle e = Some h -> In h (FlowNode.outputs (FlowNode.data ns)))
    /\ (forall h, targetHandle e = Some h -> In h (FlowNode.inputs (FlowNode.data nt))).
Proof.
  destruct wiringToFlow_shape
    as (ports & shown & _ & Hcov & _ & _ & _ & Hshown & ->).
  unfold visibleEdges. rewrite filter_In, andb_true_iff, !negb_true_iff.
  intros (He & Hs & Ht).
  rewrite Forall_forall in Hcov. destruct (Hcov e He) as (Cs & Csh & Ct & Cth).
  assert (Hs' : ~ In (source e) hiddenModules) by (rewrite <- setHas_In, Hs; discriminate).
  assert (Ht' : ~ In (target e) hiddenModules) by (rewrite <- setHas_In, Ht; discriminate).
  destruct (node_of_shown ports shown (source e)) as (ns & Hns & Ens & _ & Hout);
    [now apply Hshown|].
  destruct (node_of_shown ports shown (target e)) as (nt & Hnt & Ent & Hinp & _);
    [now apply Hshown|].
  exists ns, nt. repeat split; trivial.
  - intros h Hh. now apply Hout, Csh.
  - intros h Hh. now apply Hinp, Cth.
Qed.

(** Every base module and every alias with declared ports has a node unless
    it is hidden, wired or not, and the node carries at least the ports
    declared for the alias. *)
Theorem wiringToFlow_declared (m : string) :
  In m (baseModules ++ map fst portsByAlias) ->
  ~ In m hiddenModules ->
  exists n,
    In n (nodes (wiringToFlow wiring baseModules portsByAlias hiddenModules prevNodes))
    /\ FlowNode.id n = m
    /\ forall declared x,
         In (m, declared) portsByAlias ->
         (In x (orEmpty (Ports.outputs declared))
          -> In x (FlowNode.outputs (FlowNode.data n)))
         /\ (In x (orEmpty (Ports.inputs declared))
             -> In x (FlowNode.inputs (FlowNode.data n))).
Proof.
  destruct wiringToFlow_shape
    as (ports & shown & _ & _ & Hbase & Hdecl & _ & Hshown & ->).
  intros Hm Hvis.
  destruct (node_of_shown ports shown m) as (n & Hn & En & Hinp & Hout);
    [apply Hshown; split; [now apply Hbase | exact Hvis]|].
  exists n. repeat split; trivial.
  - intros Hx. apply Hout. now apply (Hdecl m declared x).
  - intros Hx. apply Hinp. now apply (Hdecl m declared x).
Qed.

End FlowGraph.

Lemma visibleEdges_drawn_witness :
  In (wiredEdge 1 "eye.visual_stream" "lgn.retina"
        (mkRef "eye" "visual_stream") (mkRef "lgn" "retina"))
     (visibleEdges (edges (wiringToFlow sampleWiring ["sc"] samplePorts ["sc"] samplePrev))
        ["sc"])
  /\ exists ns nt,
       In ns (nodes (wiringToFlow sampleWiring ["sc"] samplePorts ["sc"] samplePrev))
       /\ In nt (nodes (wiringToFlow sampleWiring ["sc"] samplePorts ["sc"] samplePrev))
       /\ FlowNode.id ns = "eye"
       /\ FlowNode.id nt = "lgn"
       /\ (forall h, Some "visual_stream" = Some h
                     -> In h (FlowNode.outputs (FlowNode.data ns)))
       /\ (forall h, Some "retina" = Some h -> In h (FlowNode.inputs (FlowNode.data nt))).
Proof.
  assert (H : In (wiredEdge 1 "eye.visual_stream" "lgn.retina"
                    (mkRef "eye" "visual_stream") (mkRef "lgn" "retina"))
                 (visibleEdges
                    (edges (wiringToFlow sampleWiring ["sc"] samplePorts ["sc"] samplePrev))
                    ["sc"]))
    by (left; reflexivity).
  split; [exact H|].
  exact (visibleEdges_drawn sampleWiring ["sc"] samplePorts ["sc"] samplePrev _ H).
Defined.

Lemma wiringToFlow_declared_witness :
  (In "eye" (["sc"] ++ map fst samplePorts) /\ ~ In "eye" ["sc"])
  /\ exists n,
       In n (nodes (wiringToFlow sampleWiring ["sc"] samplePorts ["sc"] samplePrev))
       /\ FlowNode.id n = "eye"
       /\ forall declared x,
            In ("eye", declared) samplePorts ->
            (In x (orEmpty (Ports.outputs declared))
             -> In x (FlowNode.outputs (FlowNode.data n)))
            /\ (In x (orEmpty (Ports.inputs declared))
                -> In x (FlowNode.inputs (FlowNode.data n))).
Proof.
  assert (H1 : In "eye" (["sc"] ++ map fst samplePorts)) by (right; left; reflexivity).
  assert (H2 : ~ In "eye" ["sc"]) by (intros [E | []]; discriminate).
  split; [now split|].
  exact (wiringToFlow_declared sampleWiring ["sc"] samplePorts ["sc"] samplePrev "eye" H1 H2).
Defined.

Example wiringToFlow_sample :
  map (fun n => (FlowNode.id n, FlowNode.inputs (FlowNode.data n),
                 FlowNode.outputs (FlowNode.data n)))
      (nodes (wiringToFlow sampleWiring ["sc"] samplePorts ["sc"] samplePrev))
  = [("eye", [], ["aux"; "visual_stream"]); ("lgn", ["retina"], [])]
  /\ needsLayout (wiringToFlow sampleWiring ["sc"] samplePorts ["sc"] samplePrev) = false
  /\ needsLayout (wiringToFlow sampleWiring ["sc"] samplePorts ["sc"] []) = true.
Proof. repeat split. Qed.

(** ** The flow graph: positions *)

Section FlowPositions.

Lemma existsb_id (x : string) (l : list FlowNode.t) :
  existsb (fun m => (FlowNode.id m =? x)%string) l = true
  <-> In x (map FlowNode.id l).
Proof.
  rewrite existsb_exists, in_map_iff. split.
  - intros (m & Hm & E). apply String.eqb_eq in E. now exists m.
  - intros (m & E & Hm). exists m. split; [exact Hm | now apply String.eqb_eq].
Qed.

Lemma prevPosition_known (prev : list FlowNode.t) (p : FlowNode.t) :
  NoDup (map FlowNode.id prev) -> In p prev ->
  prevPosition (FlowNode.id p) prev = FlowNode.position p.
Proof.
  induction prev as [|n rest IH]; intros Hnd Hin; [contradiction|].
  simpl in Hnd. apply NoDup_cons_iff in Hnd as [Hn Hnd]. simpl.
  destruct (existsb (fun m => (FlowNode.id m =? FlowNode.id p)%string) rest) eqn:E.
  - apply existsb_id in E. destruct Hin as [-> | Hin]; [contradiction|]. now apply IH.
  - destruct Hin as [-> | Hin].
    + now rewrite String.eqb_refl.
    + assert (In (FlowNode.id p) (map FlowNode.id rest)) by now apply in_map.
      apply existsb_id in H. congruence.
Qed.

Lemma prevPosition_unknown (prev : list FlowNode.t) (x : string) :
  ~ In x (map FlowNode.id prev) -> prevPosition x prev = FlowNode.mkPosition 0 0.
Proof.
  induction prev as [|n rest IH]; intros Hx; [reflexivity|]. simpl in *.
  destruct (existsb (fun m => (FlowNode.id m =? x)%string) rest) eqn:E.
  - apply existsb_id in E. tauto.
  - destruct (FlowNode.id n =? x)%string eqn:E'; [|reflexivity].
    apply String.eqb_eq in E'. tauto.
Qed.

(** Building the graph again keeps every node where it was: a node takes
    the position of the earlier node with its id, and a node without an
    earlier one sits at the origin. *)
Theorem wiringToFlow_positions (wiring : list JSON) (baseModules : list string)
    (portsByAlias : list (string * Ports.t)) (hiddenModules : StrSet)
    (prevNodes : list FlowNode.t) :
  NoDup (map FlowNode.id prevNodes) ->
  forall n,
    In n (nodes (wiringToFlow wiring baseModules portsByAlias hiddenModules prevNodes)) ->
    (forall p, In p prevNodes -> FlowNode.id p = FlowNode.id n
               -> FlowNode.position n = FlowNode.position p)
    /\ (~ In (FlowNode.id n) (map FlowNode.id prevNodes)
        -> FlowNode.position n = FlowNode.mkPosition 0 0).
Proof.
  intros Hnd n Hn.
  destruct (wiringToFlow_shape wiring baseModules portsByAlias hiddenModules prevNodes)
    as (ports & shown & _ & _ & _ & _ & _ & _ & E).
  rewrite E in Hn. apply in_map_iff in Hn as (x & <- & _). cbn. split.
  - intros p Hp <-. now apply prevPosition_known.
  - apply prevPosition_unknown.
Qed.

End FlowPositions.

Lemma wiringToFlow_positions_witness :
  NoDup (map FlowNode.id samplePrev)
  /\ forall n,
       In n (nodes (wiringToFlow sampleWiring ["sc"] samplePorts ["sc"] samplePrev)) ->
       (forall p, In p samplePrev -> FlowNode.id p = FlowNode.id n
                  -> FlowNode.position n = FlowNode.position p)
       /\ (~ In (FlowNode.id n) (map FlowNode.id samplePrev)
           -> FlowNode.position n = FlowNode.mkPosition 0 0).
Proof.
  assert (H : NoDup (map FlowNode.id samplePrev))
    by (repeat constructor; intros []).
  split; [exact H|].
  exact (wiringToFlow_positions sampleWiring ["sc"] samplePorts ["sc"] samplePrev H).
Defined.

(** ** Lists in strict code-unit order *)

Module StrictOrder.
Import JsString.

Lemma compare_refl (a : string) : compare a a = Eq.
Proof.
  induction a as [|x a IH]; simpl; [reflexivity|]. now rewrite N.compare_refl.
Qed.

Lemma lt_trans (a b c : string) :
  compare a b = Lt -> compare b c = Lt -> compare a c = Lt.
Proof.
  intros Hab Hbc.
  assert (H : notAfter compare a c).
  { apply (CodeUnitOrder.compare_trans a b c); unfold notAfter; congruence. }
  unfold notAfter in H. destruct (compare a c) eqn:E; [|reflexivity | contradiction].
  apply CodeUnitOrder.compare_eq in E. subst c.
  rewrite CodeUnitOrder.compare_antisym, Hab in Hbc. discriminate.
Qed.

Lemma lt_irrefl (a : string) : compare a a <> Lt.
Proof. rewrite compare_refl. discriminate. Qed.

Lemma strongly (l : list string) :
  Sorted (fun a b => compare a b = Lt) l ->
  StronglySorted (fun a b => compare a b = Lt) l.
Proof. apply Sorted_StronglySorted. intros a b c. apply lt_trans. Qed.

Lemma strict_NoDup (l : list string) :
  Sorted (fun a b => compare a b = Lt) l -> NoDup l.
Proof.
  intros H. apply strongly in H. induction H as [|a l Hs IH Hall]; constructor; trivial.
  intros Hin. rewrite Forall_forall in Hall. exact (lt_irrefl a (Hall a Hin)).
Qed.

(** Two strictly sorted lists with the same members are the same list. *)
Lemma sorted_unique (l1 l2 : list string) :
  Sorted (fun a b => compare a b = Lt) l1 ->
  Sorted (fun a b => compare a b = Lt) l2 ->
  (forall x, In x l1 <-> In x l2) ->
  l1 = l2.
Proof.
  intros H1 H2. apply strongly in H1. apply strongly in H2. revert l2 H2.
  induction H1 as [|a l1 Hs1 IH Ha]; intros l2 H2 Hmem.
  - destruct l2 as [|b l2]; [reflexivity|]. destruct (proj2 (Hmem b)). now left.
  - destruct H2 as [|b l2 Hs2 Hb]; [destruct (proj1 (Hmem a)); now left|].
    rewrite Forall_forall in Ha, Hb.
    assert (Eab : a = b).
    { destruct (proj1 (Hmem a)) as [E | Hin]; [now left | now symmetry|].
      destruct (proj2 (Hmem b)) as [E | Hin']; [now left | exact E|].
      exfalso. apply (lt_irrefl a). apply (lt_trans a b a); auto. }
    subst b. f_equal. apply IH; [exact Hs2|].
    intros x. split; intros Hx.
    + destruct (proj1 (Hmem x)) as [E | Hin]; [now right | | exact Hin].
      subst x. exfalso. exact (lt_irrefl a (Ha a Hx)).
    + destruct (proj2 (Hmem x)) as [E | Hin]; [now right | | exact Hin].
      subst x. exfalso. exact (lt_irrefl a (Hb a Hx)).
Qed.

(** Sorting a duplicate-free list gives a strictly sorted list with the same
    members. *)
Lemma sort_set (s : list string) :
  NoDup s ->
  Sorted (fun a b => compare a b = Lt) (arraySort compare s)
  /\ forall x, In x (arraySort compare s) <-> In x s.
Proof.
  intros Hnd. split.
  - apply sorted_strict.
    + eapply Permutation_NoDup; [symmetry; apply arraySort_perm | exact Hnd].
    + apply arraySort_sorted, CodeUnitOrder.compare_asymmetric.
  - intros x. split; apply Permutation_in;
      [apply arraySort_perm | symmetry; apply arraySort_perm].
Qed.

End StrictOrder.

(** ** Hiding and showing a module *)

Section ToggleHidden.

Lemma setOfList_spec (l : list string) :
  NoDup (setOfList l) /\ forall x, In x (setOfList l) <-> In x l.
Proof.
  destruct (setOfList_fold l []) as [Hnd Hin]; [constructor|].
  split; [exact Hnd|]. intros x. unfold setOfList. rewrite Hin. simpl. tauto.
Qed.

Lemma toggled_set (m : string) (l : list string) :
  NoDup (if setHas m (setOfList l) then setDelete m (setOfList l)
         else setAdd m (setOfList l))
  /\ forall x,
       In x (if setHas m (setOfList l) then setDelete m (setOfList l)
             else setAdd m (setOfList l))
       <-> (x = m /\ ~ In m l) \/ (x <> m /\ In x l).
Proof.
  destruct (setOfList_spec l) as [Hnd Hin].
  destruct (setHas m (setOfList l)) eqn:E.
  - apply setHas_In, Hin in E. split; [now apply NoDup_filter|].
    intros x. rewrite setDelete_In, Hin. split.
    + intros [H1 H2]. now right.
    + intros [[-> H] | [H1 H2]]; [contradiction | now split].
  - assert (Hm : ~ In m l) by (rewrite <- Hin, <- setHas_In, E; discriminate).
    split; [now apply setAdd_NoDup|].
    intros x. rewrite setAdd_new by (rewrite Hin; exact Hm).
    rewrite in_app_iff, Hin. simpl. split.
    + intros [H | [<- | []]]; [|now left].
      right. split; [|exact H]. intros ->. contradiction.
    + intros [[-> _] | [_ H]]; [right; now left | now left].
Qed.

Lemma toggleHidden_step (moduleId : string) (layoutValue : WiringLayout.t) :
  (In moduleId (WiringLayout.hidden_modules (toggleHidden moduleId layoutValue))
   <-> ~ In moduleId (WiringLayout.hidden_modules layoutValue))
  /\ (forall x, x <> moduleId ->
        (In x (WiringLayout.hidden_modules (toggleHidden moduleId layoutValue))
         <-> In x (WiringLayout.hidden_modules layoutValue)))
  /\ Sorted (fun a b => JsString.compare a b = Lt)
            (WiringLayout.hidden_modules (toggleHidden moduleId layoutValue)).
Proof.
  unfold toggleHidden. cbn.
  destruct (toggled_set moduleId (WiringLayout.hidden_modules layoutValue)) as [Hnd Hin].
  destruct (StrictOrder.sort_set _ Hnd) as [Hsorted Hmem].
  repeat split; trivial.
  - rewrite Hmem, Hin. intros [[_ H] | [H _]]; [exact H | contradiction].
  - intros H. apply Hmem, Hin. now left.
  - rewrite Hmem, Hin. intros [[-> _] | [_ Hx]]; [contradiction | exact Hx].
  - intros Hx. apply Hmem, Hin. now right.
Qed.

(** Toggling a module flips it, and only it, in the hidden list; the list
    written is in strictly ascending code-unit order, and the positions of
    the layout are left alone. *)
Theorem toggleHidden_flips (moduleId : string) (layoutValue : WiringLayout.t) :
  (In moduleId (WiringLayout.hidden_modules (toggleHidden moduleId layoutValue))
   <-> ~ In moduleId (WiringLayout.hidden_modules layoutValue))
  /\ (forall x, x <> moduleId ->
        (In x (WiringLayout.hidden_modules (toggleHidden moduleId layoutValue))
         <-> In x (WiringLayout.hidden_modules layoutValue)))
  /\ Sorted (fun a b => JsString.compare a b = Lt)
            (WiringLayout.hidden_modules (toggleHidden moduleId layoutValue))
  /\ WiringLayout.nodes (toggleHidden moduleId layoutValue) = WiringLayout.nodes layoutValue.
Proof.
  destruct (toggleHidden_step moduleId layoutValue) as (H1 & H2 & H3).
  repeat split; trivial; try apply H1; try apply H2; trivial.
Qed.

(** Toggling the same module twice gives back the hidden list, when that
    list is one the panel wrote (strictly sorted). *)
Theorem toggleHidden_twice (moduleId : string) (layoutValue : WiringLayout.t) :
  Sorted (fun a b => JsString.compare a b = Lt) (WiringLayout.hidden_modules layoutValue) ->
  WiringLayout.hidden_modules (toggleHidden moduleId (toggleHidden moduleId layoutValue))
  = WiringLayout.hidden_modules layoutValue.
Proof.
  intros Hsorted.
  destruct (toggleHidden_step moduleId (toggleHidden moduleId layoutValue))
    as (H1 & H2 & H3).
  destruct (toggleHidden_step moduleId layoutValue) as (G1 & G2 & _).
  apply StrictOrder.sorted_unique; trivial.
  intros x. destruct (string_dec x moduleId) as [-> | Hx].
  - rewrite H1, G1.
    destruct (in_dec string_dec moduleId (WiringLayout.hidden_modules layoutValue)); tauto.
  - now rewrite (H2 x Hx), (G2 x Hx).
Qed.

End ToggleHidden.

Lemma toggleHidden_twice_witness :
  Sorted (fun a b => JsString.compare a b = Lt)
         (WiringLayout.hidden_modules (WiringLayout.mk 1 [] ["eye"; "sc"]))
  /\ WiringLayout.hidden_modules
       (toggleHidden "lgn" (toggleHidden "lgn" (WiringLayout.mk 1 [] ["eye"; "sc"])))
     = ["eye"; "sc"].
Proof.
  assert (H : Sorted (fun a b => JsString.compare a b = Lt)
                     (WiringLayout.hidden_modules (WiringLayout.mk 1 [] ["eye"; "sc"])))
    by (repeat constructor).
  split; [exact H|].
  exact (toggleHidden_twice "lgn" (WiringLayout.mk 1 [] ["eye"; "sc"]) H).
Defined.

Example toggleHidden_sample :
  WiringLayout.hidden_modules (toggleHidden "lgn" (WiringLayout.mk 1 [] ["sc"; "eye"; "sc"]))
  = ["eye"; "lgn"; "sc"]
  /\ WiringLayout.hidden_modules (toggleHidden "sc" (WiringLayout.mk 1 [] ["sc"; "eye"; "sc"]))
     = ["eye"].
Proof. split; reflexivity. Qed.

(** ** Adding a port to a node *)

Section EnsurePort.

Variable nodeId : string.
Variable dir : PortDir.
Variable port : string.

Lemma portsOf_withPorts (next : list string) (data : FlowNode.Data) :
  portsOf dir (withPorts dir next data) = next.
Proof. now destruct dir. Qed.

Lemma includes_In (x : string) (l : list string) :
  existsb (String.eqb x) l = true <-> In x l.
Proof. exact (setHas_In x l). Qed.

(** What [ensurePort] does to one node. *)
Lemma ensurePortNode_cases (n : FlowNode.t) :
  (FlowNode.id n <> nodeId /\ ensurePortNode nodeId dir port n = n)
  \/ (FlowNode.id n = nodeId /\ In port (portsOf dir (FlowNode.data n))
      /\ ensurePortNode nodeId dir port n = n)
  \/ (FlowNode.id n = nodeId /\ ~ In port (portsOf dir (FlowNode.data n))
      /\ ensurePortNode nodeId dir port n
         = FlowNode.mk (FlowNode.id n) (FlowNode.type n) (FlowNode.position n)
             (withPorts dir
                (arraySort JsString.compare (portsOf dir (FlowNode.data n) ++ [port])%list)
                (FlowNode.data n))).
Proof.
  unfold ensurePortNode.
  destruct (FlowNode.id n =? nodeId)%string eqn:E; cbn [negb].
  - apply String.eqb_eq in E. right.
    destruct (existsb (String.eqb port) (portsOf dir (FlowNode.data n))) eqn:Ei.
    + left. apply includes_In in Ei. now repeat split.
    + right. repeat split; trivial. rewrite <- includes_In, Ei. discriminate.
  - left. apply String.eqb_neq in E. now split.
Qed.

Lemma ensurePortNode_again (n : FlowNode.t) :
  ensurePortNode nodeId dir port (ensurePortNode nodeId dir port n)
  = ensurePortNode nodeId dir port n.
Proof.
  destruct (ensurePortNode_cases n) as [[Hid E] | [(Hid & Hin & E) | (Hid & Hnin & E)]];
    rewrite E; try exact E.
  unfold ensurePortNode. cbn [FlowNode.id FlowNode.data].
  apply String.eqb_eq in Hid. rewrite Hid. cbn [negb].
  rewrite portsOf_withPorts.
  assert (Hin : In port (arraySort JsString.compare
                           (portsOf dir (FlowNode.data n) ++ [port])%list)).
  { eapply Permutation_in; [symmetry; apply arraySort_perm|].
    apply in_or_app. right. now left. }
  apply includes_In in Hin. now rewrite Hin.
Qed.

(** Ensuring a port twice is the same as ensuring it once. *)
Theorem ensurePort_idempotent (prev : list FlowNode.t) :
  ensurePort nodeId dir port (ensurePort nodeId dir port prev)
  = ensurePort nodeId dir port prev.
Proof.
  unfold ensurePort. rewrite map_map. apply map_ext. exact ensurePortNode_again.
Qed.

(** [ensurePort] keeps the nodes, their order, ids and positions; a node
    with another id is left as it was; a node with the given id ends up with
    the port and with the ports it had, and no others; and a port list in
    strict code-unit order stays in strict order. *)
Theorem ensurePort_adds (prev : list FlowNode.t) :
  map FlowNode.id (ensurePort nodeId dir port prev) = map FlowNode.id prev
  /\ map FlowNode.position (ensurePort nodeId dir port prev) = map FlowNode.position prev
  /\ Forall2 (fun n n' =>
                (FlowNode.id n <> nodeId -> n' = n)
                /\ (FlowNode.id n = nodeId ->
                    forall h, In h (portsOf dir (FlowNode.data n'))
                              <-> h = port \/ In h (portsOf dir (FlowNode.data n)))
                /\ (Sorted (fun a b => JsString.compare a b = Lt)
                           (portsOf dir (FlowNode.data n))
                    -> Sorted (fun a b => JsString.compare a b = Lt)
                              (portsOf dir (FlowNode.data n'))))
             prev (ensurePort nodeId dir port prev).
Proof.
  unfold ensurePort. rewrite !map_map. repeat split.
  - apply map_ext. intros n.
    destruct (ensurePortNode_cases n) as [[_ E] | [(_ & _ & E) | (_ & _ & E)]];
      now rewrite E.
  - apply map_ext. intros n.
    destruct (ensurePortNode_cases n) as [[_ E] | [(_ & _ & E) | (_ & _ & E)]];
      now rewrite E.
  - induction prev as [|n rest IH]; simpl; constructor; [|exact IH].
    destruct (ensurePortNode_cases n) as [[Hid E] | [(Hid & Hin & E) | (Hid & Hnin & E)]];
      rewrite E; (split; [|split]).
    + reflexivity.
    + intros Hid'. contradiction.
    + trivial.
    + reflexivity.
    + intros _ x. split; [now right | now intros [-> | H]].
    + trivial.
    + intros Hid'. contradiction.
    + intros _ x. cbn [FlowNode.data]. rewrite portsOf_withPorts. split.
      * intros H. eapply Permutation_in in H; [|apply arraySort_perm].
        apply in_app_or in H as [H | [<- | []]]; [now right | now left].
      * intros H. eapply Permutation_in; [symmetry; apply arraySort_perm|].
        apply in_or_app. destruct H as [-> | H]; [right; now left | now left].
    + intros Hs. cbn [FlowNode.data]. rewrite portsOf_withPorts.
      apply StrictOrder.sort_set. apply NoDup_app.
      * now apply StrictOrder.strict_NoDup.
      * repeat constructor. intros [].
      * intros a Ha [<- | []]. contradiction.
Qed.

End EnsurePort.

Example ensurePort_sample :
  map (fun n => FlowNode.outputs (FlowNode.data n))
      (ensurePort "eye" output "aux" samplePrev)
  = [["aux"; "visual_stream"]].
Proof. reflexivity. Qed.

(** ** Connecting two handles *)

Section Connect.

Lemma missing_false (v : option string) :
  missing v = false -> exists s, v = Some s /\ s <> "".
Proof. exact (noHandle_false v). Qed.

(** When [onConnect] adds an edge, editing is not locked, the edge joins the
    two nodes and handles of the connection, none of them missing, and
    neither handle is the ["+ add"] handle; no port is added to a node. *)
Theorem onConnect_adds (editingDisabled : bool) (stamp : string) (conn : Connection)
    (ensured : list (string * PortDir * string)) (e : Edge) :
  onConnect editingDisabled stamp conn = AddEdge ensured e ->
  editingDisabled = false
  /\ ensured = []
  /\ endpoints e
     = (handleText (connSource conn), connSourceHandle conn,
        handleText (connTarget conn), connTargetHandle conn)
  /\ connSource conn = Some (source e) /\ source e <> ""
  /\ connTarget conn = Some (target e) /\ target e <> ""
  /\ hasHandles e = true
  /\ sourceHandle e <> Some NEW_HANDLE_ID
  /\ targetHandle e <> Some NEW_HANDLE_ID.
Proof.
  unfold onConnect. destruct editingDisabled; [discriminate|].
  destruct (missing (connSource conn)) eqn:Es; [discriminate|].
  destruct (missing (connTarget conn)) eqn:Et; [discriminate|].
  destruct (missing (connSourceHandle conn)) eqn:Esh; [discriminate|].
  destruct (missing (connTargetHandle conn)) eqn:Eth; [discriminate|].
  cbn [orb].
  destruct (missing_false _ Es) as (s & Hs & Hsne).
  destruct (missing_false _ Et) as (t & Ht & Htne).
  destruct (missing_false _ Esh) as (sh & Hsh & Hshne).
  destruct (missing_false _ Eth) as (th & Hth & Hthne).
  rewrite Hs, Ht, Hsh, Hth. cbn [handleText].
  destruct (sh =? NEW_HANDLE_ID)%string eqn:Nsh; [discriminate|].
  destruct (th =? NEW_HANDLE_ID)%string eqn:Nth; [discriminate|].
  intros H. injection H as <- <-. cbn.
  apply String.eqb_neq in Nsh, Nth.
  repeat split; trivial; try congruence.
  unfold hasHandles. cbn.
  apply String.eqb_neq in Hshne, Hthne. now rewrite Hshne, Hthne.
Qed.

Variable trim : string -> string.

(** When [applyPendingConnect] adds an edge, its two handles are the trimmed
    port names of the dialog, neither empty nor holding a ['.'], and they are
    the very ports it makes sure of on the two nodes; between nodes with
    clean ids the edge is then written as references that parse back to
    these nodes and ports. *)
Theorem applyPendingConnect_adds (stamp : string) (pendingConnect : option Pending.t)
    (ensured : list (string * PortDir * string)) (e : Edge) :
  applyPendingConnect trim stamp pendingConnect = AddEdge ensured e ->
  exists pending,
    pendingConnect = Some pending
    /\ endpoints e
       = (Pending.source pending, Some (trim (Pending.sourcePort pending)),
          Pending.target pending, Some (trim (Pending.targetPort pending)))
    /\ ensured = [(Pending.source pending, output, trim (Pending.sourcePort pending));
                  (Pending.target pending, input, trim (Pending.targetPort pending))]
    /\ trim (Pending.sourcePort pending) <> ""
    /\ trim (Pending.targetPort pending) <> ""
    /\ JsString.occurs dot (trim (Pending.sourcePort pending)) = false
    /\ JsString.occurs dot (trim (Pending.targetPort pending)) = false
    /\ hasHandles e = true
    /\ (cleanId (Pending.source pending) ->
        parseRef (fromOf e)
        = Some (mkRef (Pending.source pending) (trim (Pending.sourcePort pending))))
    /\ (cleanId (Pending.target pending) ->
        parseRef (toOf e)
        = Some (mkRef (Pending.target pending) (trim (Pending.targetPort pending)))).
Proof.
  unfold applyPendingConnect. destruct pendingConnect as [pending|]; [|discriminate].
  destruct (JsString.occurs dot (trim (Pending.sourcePort pending))) eqn:Ds; [discriminate|].
  destruct (JsString.occurs dot (trim (Pending.targetPort pending))) eqn:Dt; [discriminate|].
  cbn [orb].
  destruct (trim (Pending.sourcePort pending) =? "")%string eqn:Es; [discriminate|].
  destruct (trim (Pending.targetPort pending) =? "")%string eqn:Et; [discriminate|].
  cbn [orb]. intros H. injection H as <- <-.
  exists pending. apply String.eqb_neq in Es as Es', Et as Et'.
  repeat split; trivial.
  - unfold hasHandles. cbn. now rewrite Es, Et.
  - intros Hc. now apply clean_parse.
  - intros Hc. now apply clean_parse.
Qed.

Lemma ensurePortNode_has (nodeId : string) (dir : PortDir) (port : string) (n : FlowNode.t) :
  FlowNode.id n = nodeId ->
  In port (portsOf dir (FlowNode.data (ensurePortNode nodeId dir port n))).
Proof.
  intros Hid.
  destruct (ensurePortNode_cases nodeId dir port n)
    as [[Hne _] | [(_ & Hin & E) | (_ & _ & E)]]; [contradiction | now rewrite E|].
  rewrite E. cbn [FlowNode.data]. rewrite portsOf_withPorts.
  eapply Permutation_in; [symmetry; apply arraySort_perm|].
  apply in_or_app. right. now left.
Qed.

Lemma ensurePortNode_other (nodeId : string) (dir dir' : PortDir) (port : string)
    (n : FlowNode.t) (h : string) :
  In h (portsOf dir' (FlowNode.data n)) ->
  In h (portsOf dir' (FlowNode.data (ensurePortNode nodeId dir port n))).
Proof.
  intros Hh.
  destruct (ensurePortNode_cases nodeId dir port n)
    as [[_ E] | [(_ & _ & E) | (_ & _ & E)]]; rewrite E; trivial.
  cbn [FlowNode.data]. destruct dir, dir'; cbn in *; trivial;
    (eapply Permutation_in; [symmetry; apply arraySort_perm|];
     apply in_or_app; now left).
Qed.

Lemma ensurePortNode_id (nodeId : string) (dir : PortDir) (port : string) (n : FlowNode.t) :
  FlowNode.id (ensurePortNode nodeId dir port n) = FlowNode.id n.
Proof.
  destruct (ensurePortNode_cases nodeId dir port n)
    as [[_ E] | [(_ & _ & E) | (_ & _ & E)]]; now rewrite E.
Qed.

(** After the two [ensurePort] calls of [applyPendingConnect], every node
    with the source id carries the source port among its outputs and every
    node with the target id carries the target port among its inputs: the
    edge then added finds its handles. *)
Theorem pending_ports_ensured (source sourcePort target targetPort : string)
    (prev : list FlowNode.t) :
  Forall (fun n =>
            (FlowNode.id n = source -> In sourcePort (FlowNode.outputs (FlowNode.data n)))
            /\ (FlowNode.id n = target -> In targetPort (FlowNode.inputs (FlowNode.data n))))
         (ensurePort target input targetPort (ensurePort source output sourcePort prev)).
Proof.
  unfold ensurePort. rewrite map_map. apply Forall_map, Forall_forall.
  intros n _. split.
  - intros Hid. rewrite !ensurePortNode_id in Hid.
    apply (ensurePortNode_other target input output targetPort).
    now apply (ensurePortNode_has source output sourcePort).
  - intros Hid. rewrite ensurePortNode_id in Hid.
    now apply (ensurePortNode_has target input targetPort).
Qed.

End Connect.

Lemma onConnect_adds_witness :
  onConnect false "7" (mkConnection (Some "eye") (Some "lgn") (Some "visual_stream")
                         (Some "retina"))
  = AddEdge [] (connectedEdge "7" "eye" "visual_stream" "lgn" "retina")
  /\ hasHandles (connectedEdge "7" "eye" "visual_stream" "lgn" "retina") = true.
Proof.
  split; [reflexivity|].
  apply (onConnect_adds false "7"
           (mkConnection (Some "eye") (Some "lgn") (Some "visual_stream") (Some "retina"))
           [] (connectedEdge "7" "eye" "visual_stream" "lgn" "retina")).
  reflexivity.
Defined.

Lemma applyPendingConnect_adds_witness :
  applyPendingConnect (fun s => s) "7"
    (Some (Pending.mk "eye" "lgn" "__new__" "retina" "aux" "retina" modeFrom))
  = AddEdge [("eye", output, "aux"); ("lgn", input, "retina")]
            (connectedEdge "7" "eye" "aux" "lgn" "retina")
  /\ exists pending,
       Some (Pending.mk "eye" "lgn" "__new__" "retina" "aux" "retina" modeFrom) = Some pending
       /\ Pending.sourcePort pending <> "".
Proof.
  split; [reflexivity|].
  destruct (applyPendingConnect_adds (fun s => s) "7"
              (Some (Pending.mk "eye" "lgn" "__new__" "retina" "aux" "retina" modeFrom))
              [("eye", output, "aux"); ("lgn", input, "retina")]
              (connectedEdge "7" "eye" "aux" "lgn" "retina") eq_refl)
    as (pending & E & _ & _ & Hne & _).
  exists pending. now split.
Defined.

Example connect_samples :
  onConnect true "7" (mkConnection (Some "eye") (Some "lgn") (Some "x") (Some "y")) = NoEffect
  /\ onConnect false "7" (mkConnection (Some "eye") None (Some "x") (Some "y")) = NoEffect
  /\ onConnect false "7" (mkConnection (Some "eye") (Some "lgn") (Some "__new__") (Some "y"))
     = OpenDialog (Pending.mk "eye" "lgn" "__new__" "y" "" "y" modeFrom)
  /\ applyPendingConnect (fun s => s) "7"
       (Some (Pending.mk "eye" "lgn" "__new__" "y" "out.x" "y" modeFrom))
     = ShowError dotInPortMessage
  /\ applyPendingConnect (fun s => s) "7"
       (Some (Pending.mk "eye" "lgn" "__new__" "y" "" "y" modeFrom))
     = NoEffect.
Proof. repeat split. Qed.

(** ** The key the wiring is stored under *)

Section StorageKeyFacts.

Variable toText : JSON -> string.

(** The key of a run belongs to that run alone: a state with a run id gets
    the key of the run, and any other call of [computeKey] gets the same key
    exactly when its state has the same run id; drafts, titles and a failed
    [api.state()] never share it. *)
Theorem run_key_own (st : JSON) (title : option string) (runId : string) :
  runIdOf st = Some runId ->
  computeKey toText (Some st) title = "simui:wiring:run:" ++ runId
  /\ forall apiState' title',
       computeKey toText apiState' title' = computeKey toText (Some st) title
       <-> exists st', apiState' = Some st' /\ runIdOf st' = Some runId.
Proof.
  intros Hrun.
  assert (Hkey : computeKey toText (Some st) title = "simui:wiring:run:" ++ runId)
    by (unfold computeKey; now rewrite Hrun).
  split; [exact Hkey|]. intros apiState' title'. rewrite Hkey. split.
  - unfold computeKey, titleKey. destruct apiState' as [st'|]; [|cbn; discriminate].
    destruct (runIdOf st') as [r|] eqn:Hr.
    + cbn. intros H. injection H as ->. now exists st'.
    + destruct (nonEmptyString (optProp (getProp st' "target") "spaceId"));
        [cbn; discriminate|].
      destruct (nonEmptyString (optProp (getProp st' "target") "modelId"));
        cbn; discriminate.
  - intros (st' & -> & Hr). unfold computeKey. now rewrite Hr.
Qed.

End StorageKeyFacts.

Lemma run_key_own_witness :
  runIdOf (JObject [("run", JObject [("id", JString "r42")])]) = Some "r42"
  /\ computeKey (fun _ => "") (Some (JObject [("run", JObject [("id", JString "r42")])])) None
     = "simui:wiring:run:r42".
Proof.
  split; [reflexivity|].
  exact (proj1 (run_key_own (fun _ => "")
                  (JObject [("run", JObject [("id", JString "r42")])]) None "r42" eq_refl)).
Defined.

Example computeKey_samples :
  computeKey (fun _ => "") None (Some "Brain") = "simui:wiring:title:Brain"
  /\ computeKey (fun _ => "") (Some JNull) None = "simui:wiring:title:default"
  /\ computeKey (fun _ => "")
       (Some (JObject [("run", JObject [("id", JString "")]);
                       ("target", JObject [("spaceId", JString "s1")])])) None
     = "simui:wiring:draft:space:s1:head"
  /\ computeKey (fun _ => "")
       (Some (JObject [("target", JObject [("modelId", JString "m1");
                                           ("modelCommit", JString "abc")])])) None
     = "simui:wiring:draft:model:m1:abc".
Proof. repeat split. Qed.

(** ** What the written wiring depends on *)

Section WrittenWiring.

Variable localeCompare : string -> string -> comparison.

Lemma fold_groupEdge_filter (edges : list Edge) (g : Grouped) :
  fold_left groupEdge (filter hasHandles edges) g = fold_left groupEdge edges g.
Proof.
  revert g. induction edges as [|e edges IH]; intros g; [reflexivity|].
  cbn [filter]. destruct (hasHandles e) eqn:E; cbn [fold_left].
  - apply IH.
  - rewrite IH. f_equal. unfold groupEdge. unfold hasHandles in E.
    apply negb_false_iff in E. now rewrite E.
Qed.

Lemma filtered_hasHandles (edges : list Edge) :
  Forall (fun e => noHandle (sourceHandle e) || noHandle (targetHandle e) = false)
         (filter hasHandles edges).
Proof.
  apply Forall_forall. intros e He. apply filter_In in He as [_ He].
  now apply hasHandles_true.
Qed.

(** The written wiring depends on the edges only through the references of
    those that carry both handles: ids, types and styles do not matter, and
    an edge without a handle is ignored. *)
Theorem edgesToWiring_by_pairs (edges edges' : list Edge) :
  pairsOf (filter hasHandles edges) = pairsOf (filter hasHandles edges') ->
  edgesToWiring localeCompare edges = edgesToWiring localeCompare edges'.
Proof.
  intros H. rewrite !edgesToWiring_unfold.
  rewrite <- (fold_groupEdge_filter edges), <- (fold_groupEdge_filter edges').
  rewrite !fold_groupEdge_pairs by apply filtered_hasHandles.
  now rewrite H.
Qed.

(** Whatever the edges, no source reference heads two entries of the written
    wiring, and every entry has at least one target and no target twice. *)
Theorem edgesToWiring_entries (edges : list Edge) :
  NoDup (map from (edgesToWiring localeCompare edges))
  /\ Forall (fun e => to e <> [] /\ NoDup (to e)) (edgesToWiring localeCompare edges).
Proof.
  destruct (fold_groupEdge_keys edges) as [Hkeys Hsets]. split.
  - eapply Permutation_NoDup; [symmetry; apply edgesToWiring_sources | exact Hkeys].
  - rewrite edgesToWiring_unfold. apply Forall_map. simpl.
    eapply Permutation_Forall; [symmetry; apply arraySort_perm|].
    eapply Forall_impl; [|exact Hsets].
    intros [k s] (_ & Hne & Hnd & _). simpl in *.
    pose proof (arraySort_perm _ JsString.compare s) as Hperm. split.
    + intros E. rewrite E in Hperm. apply Permutation_nil in Hperm. contradiction.
    + eapply Permutation_NoDup; [symmetry; exact Hperm | exact Hnd].
Qed.

End WrittenWiring.

Lemma edgesToWiring_by_pairs_witness :
  pairsOf (filter hasHandles
             [connectedEdge "1" "a" "x" "b" "y";
              mkEdge "e-2" "a" None "c" (Some "z") None None])
  = pairsOf (filter hasHandles
               [wiredEdge 1 "a.x" "b.y" (mkRef "a" "x") (mkRef "b" "y")])
  /\ edgesToWiring JsString.compare
       [connectedEdge "1" "a" "x" "b" "y"; mkEdge "e-2" "a" None "c" (Some "z") None None]
     = edgesToWiring JsString.compare
         [wiredEdge 1 "a.x" "b.y" (mkRef "a" "x") (mkRef "b" "y")].
Proof.
  split; [reflexivity|].
  apply (edgesToWiring_by_pairs JsString.compare). reflexivity.
Defined.

(** ** Applying a draft that is well formed *)

Section ApplyCommits.

Variable localeCompare : string -> string -> comparison.
Variable JSON_parse : string -> Result JSON.
Variable stringifyWiring : list WiringOut -> string.
Variable stringifyStored : string -> string.
Variable setItem : string -> string -> Storage -> option Storage.
Variable storageKey : string.

(** A draft that parses to an array is always applied: the wiring control
    and [lastAppliedRef] take the normalized text, the error is cleared, the
    raw editor is closed and the draft is left as typed; the text is stored
    when [localStorage] accepts it, and a [localStorage] that throws changes
    nothing else. *)
Theorem applyRawJson_commits (st : PanelState) (items : list JSON) :
  JSON_parse (rawDraft st) = inr (JArray items) ->
  exists edges,
    wiringToEdges (JArray items) = inr edges
    /\ getControl "wiring"
         (controls (applyRawJson localeCompare JSON_parse stringifyWiring stringifyStored
                      setItem storageKey st))
       = Some (stringifyWiring (edgesToWiring localeCompare edges))
    /\ lastApplied (applyRawJson localeCompare JSON_parse stringifyWiring stringifyStored
                      setItem storageKey st)
       = stringifyWiring (edgesToWiring localeCompare edges)
    /\ parseError (applyRawJson localeCompare JSON_parse stringifyWiring stringifyStored
                     setItem storageKey st) = None
    /\ showRaw (applyRawJson localeCompare JSON_parse stringifyWiring stringifyStored
                  setItem storageKey st) = false
    /\ rawDraft (applyRawJson localeCompare JSON_parse stringifyWiring stringifyStored
                   setItem storageKey st) = rawDraft st
    /\ storage (applyRawJson localeCompare JSON_parse stringifyWiring stringifyStored
                  setItem storageKey st)
       = match setItem storageKey
                 (stringifyStored (stringifyWiring (edgesToWiring localeCompare edges)))
                 (storage st)
         with
         | Some stored => stored
         | None => storage st
         end
    /\ forall name, name <> "wiring" ->
         getControl name
           (controls (applyRawJson localeCompare JSON_parse stringifyWiring stringifyStored
                        setItem storageKey st))
         = getControl name (controls st).
Proof.
  intros Hparse. unfold applyRawJson. rewrite Hparse, wiringToEdges_array.
  eexists. split; [reflexivity|].
  cbn [controls lastApplied parseError showRaw rawDraft storage].
  rewrite getControl_setControl.
  repeat split. intros name Hname. now apply getControl_other.
Qed.

End ApplyCommits.

Lemma applyRawJson_commits_witness :
  sampleParse "[]" = inr (JArray [])
  /\ exists edges,
       wiringToEdges (JArray []) = inr edges
       /\ parseError
            (applyRawJson JsString.compare sampleParse (fun _ => "[]") (fun x => x)
               (fun _ _ _ => None) "simui:wiring:default"
               (mkPanel [("duration", "5")] "" (Some "old error") true true "[]" []))
          = None.
Proof.
  split; [reflexivity|].
  destruct (applyRawJson_commits JsString.compare sampleParse (fun _ => "[]") (fun x => x)
              (fun _ _ _ => None) "simui:wiring:default"
              (mkPanel [("duration", "5")] "" (Some "old error") true true "[]" [])
              [] eq_refl)
    as (edges & E & _ & _ & Hp & _).
  exists edges. now split.
Defined.

(** ** Resetting the layout *)

Section ResetLayout.

Lemma prevPosition_reset (x : string) (prev : list FlowNode.t) :
  prevPosition x (resetLayout prev) = FlowNode.mkPosition 0 0.
Proof.
  induction prev as [|n rest IH]; [reflexivity|]. cbn [resetLayout map prevPosition].
  fold (resetLayout rest). rewrite IH. cbn [FlowNode.id FlowNode.position].
  now destruct (existsb _ (resetLayout rest)), (FlowNode.id n =? x)%string.
Qed.

Lemma wiringToFlow_needsLayout (wiring : list JSON) (baseModules : list string)
    (portsByAlias : list (string * Ports.t)) (hiddenModules : StrSet)
    (prevNodes : list FlowNode.t) :
  needsLayout (wiringToFlow wiring baseModules portsByAlias hiddenModules prevNodes)
  = negb (Nat.eqb (List.length
                     (nodes (wiringToFlow wiring baseModules portsByAlias hiddenModules
                               prevNodes))) 0)
    && forallb (fun n => PrimFloat.eqb (FlowNode.x (FlowNode.position n)) 0
                         && PrimFloat.eqb (FlowNode.y (FlowNode.position n)) 0)
               (nodes (wiringToFlow wiring baseModules portsByAlias hiddenModules
                         prevNodes)).
Proof. reflexivity. Qed.

(** [resetLayout] keeps the nodes, their ids and their ports and puts every
    node at the origin; the graph built next has every node at the origin
    too, and asks for a layout as soon as it has a node. *)
Theorem resetLayout_origin (wiring : list JSON) (baseModules : list string)
    (portsByAlias : list (string * Ports.t)) (hiddenModules : StrSet)
    (prev : list FlowNode.t) :
  map FlowNode.id (resetLayout prev) = map FlowNode.id prev
  /\ map FlowNode.data (resetLayout prev) = map FlowNode.data prev
  /\ Forall (fun n => FlowNode.position n = FlowNode.mkPosition 0 0) (resetLayout prev)
  /\ Forall (fun n => FlowNode.position n = FlowNode.mkPosition 0 0)
            (nodes (wiringToFlow wiring baseModules portsByAlias hiddenModules
                      (resetLayout prev)))
  /\ needsLayout (wiringToFlow wiring baseModules portsByAlias hiddenModules
                    (resetLayout prev))
     = negb (Nat.eqb (List.length
                        (nodes (wiringToFlow wiring baseModules portsByAlias hiddenModules
                                  (resetLayout prev)))) 0).
Proof.
  assert (Hpos : Forall (fun n => FlowNode.position n = FlowNode.mkPosition 0 0)
                   (nodes (wiringToFlow wiring baseModules portsByAlias hiddenModules
                             (resetLayout prev)))).
  { destruct (wiringToFlow_shape wiring baseModules portsByAlias hiddenModules
                (resetLayout prev)) as (ports & shown & _ & _ & _ & _ & _ & _ & ->).
    apply Forall_map, Forall_forall. intros x _. cbn. apply prevPosition_reset. }
  split; [|split; [|split; [|split; [exact Hpos|]]]].
  - unfold resetLayout. rewrite map_map. reflexivity.
  - unfold resetLayout. rewrite map_map. reflexivity.
  - unfold resetLayout. apply Forall_map, Forall_forall. now intros n _.
  - rewrite wiringToFlow_needsLayout.
    replace (forallb _ _) with true; [apply andb_true_r|].
    symmetry. apply forallb_forall. intros n Hn.
    rewrite Forall_forall in Hpos. now rewrite (Hpos n Hn).
Qed.

End ResetLayout.

(** * The example module and solver of the plugin guide *)

Module PackFacts.
Import Pack.

Lemma nth_error_enumerate {A : Type} (l : list A) (k j : nat) (x : A) :
  nth_error l j = Some x ->
  nth_error (combine (seq k (List.length l)) l) j = Some ((k + j)%nat, x).
Proof.
  revert k j. induction l as [|y l IH]; intros k j Hj; [now destruct j|].
  destruct j as [|j]; simpl in *.
  - injection Hj as ->. now rewrite Nat.add_0_r.
  - rewrite (IH (S k) j Hj). do 2 f_equal. lia.
Qed.

Lemma combine_shift {A : Type} (n k : nat) (l : list A) :
  combine (seq (S k) n) l
  = map (fun jp => (S (fst jp), snd jp)) (combine (seq k n) l).
Proof.
  revert k l. induction n as [|n IH]; intros k l; [reflexivity|].
  destruct l as [|x l]; [reflexivity|]. simpl. f_equal. apply IH.
Qed.

Section CounterFacts.

Variable V : Type.

Lemma deliver_app (self : Counter) (events : list (World.BioWorldEvent * list (string * V)))
    (world : Published V) :
  _count (fst (deliver self events world))
  = (_count self + Z.of_nat (List.length (stepPayloads events)))%Z
  /\ name (fst (deliver self events world)) = name self
  /\ snd (deliver self events world)
     = (world
        ++ map (fun jp => ("count",
                           mkCount (_count self + Z.of_nat (fst jp) + 1)
                                   (dictGet "t" (snd jp))))
               (combine (seq 0 (List.length (stepPayloads events)))
                        (stepPayloads events)))%list.
Proof.
  revert self world. induction events as [|[event payload] rest IH]; intros self world.
  - simpl. repeat split; [lia | now rewrite app_nil_r].
  - cbn [deliver].
    destruct event; cbn [on_event];
      try (destruct (IH self world) as (Hc & Hn & Hw); now repeat split).
    destruct (IH (mkCounter (name self) (_count self + 1))
                 (world ++ [("count", mkCount (_count self + 1) (dictGet "t" payload))])%list)
      as (Hc & Hn & Hw).
    cbn [_count name] in *.
    unfold stepPayloads in *. cbn [filter fst World.eventEqb map List.length seq combine].
    repeat split.
    + rewrite Hc. lia.
    + exact Hn.
    + rewrite Hw, <- app_assoc. f_equal. cbn [app map fst snd]. f_equal.
      * do 2 f_equal. lia.
      * rewrite combine_shift, map_map.
        apply map_ext. intros [j p]. cbn. do 2 f_equal. lia.
Qed.

(** Counting steps: after any run of events the count has grown by the
    number of [STEP] events, and exactly one signal per [STEP] event has been
    published, in order, on the declared output ["count"], the [j]-th (from
    [0]) carrying the count reached and the time of its event.  Events other
    than [STEP] change nothing and publish nothing. *)
Theorem counter_counts (self : Counter)
    (events : list (World.BioWorldEvent * list (string * V))) :
  _count (fst (deliver self events []))
  = (_count self + Z.of_nat (List.length (stepPayloads events)))%Z
  /\ List.length (snd (deliver self events [])) = List.length (stepPayloads events)
  /\ (forall j payload,
        nth_error (stepPayloads events) j = Some payload ->
        nth_error (snd (deliver self events [])) j
        = Some ("count", mkCount (_count self + Z.of_nat j + 1) (dictGet "t" payload)))
  /\ Forall (fun s => In (fst s) outputs) (snd (deliver self events [])).
Proof.
  destruct (deliver_app self events []) as (Hc & _ & Hw). rewrite Hw. cbn [app].
  repeat split.
  - exact Hc.
  - rewrite length_map, length_combine, length_seq. lia.
  - intros j payload Hj.
    rewrite nth_error_map.
    rewrite (nth_error_enumerate _ 0 j payload Hj). reflexivity.
  - apply Forall_map, Forall_forall. intros jp _. now left.
Qed.

End CounterFacts.

Section VariableStep.

Lemma SFcompare_refl (f : SpecFloat.spec_float) : SpecFloat.SFcompare f f <> Some Lt.
Proof.
  destruct f as [s | s | | s m e]; simpl; try destruct s; try discriminate;
    rewrite Z.compare_refl, Pos.compare_cont_refl; discriminate.
Qed.

(** No float is below itself. *)
Lemma ltb_irrefl (x : float) : PrimFloat.ltb x x = false.
Proof.
  rewrite FloatAxioms.ltb_spec. unfold SpecFloat.SFltb.
  pose proof (SFcompare_refl (FloatOps.Prim2SF x)) as H.
  destruct (SpecFloat.SFcompare (FloatOps.Prim2SF x) (FloatOps.Prim2SF x)) as [[| |]|];
    congruence.
Qed.

(** [min(dt, max_dt)] is one of the two and is never above the cap. *)
Lemma pyMin_cap (a cap : float) :
  (pyMin a cap = a \/ pyMin a cap = cap) /\ PrimFloat.ltb cap (pyMin a cap) = false.
Proof.
  unfold pyMin. destruct (PrimFloat.ltb cap a) eqn:E.
  - split; [now right | apply ltb_irrefl].
  - split; [now left | exact E].
Qed.

Lemma varLoop_length (n : nat) (i0 : Z) (t0 d : float) :
  List.length (fst (varLoop n i0 t0 d)) = n.
Proof.
  revert i0 t0. induction n as [|n IH]; intros i0 t0; [reflexivity|].
  cbn [varLoop]. specialize (IH (i0 + 1)%Z (PrimFloat.add t0 d)).
  destruct (varLoop n (i0 + 1) (PrimFloat.add t0 d) d). cbn [fst] in *.
  simpl. now rewrite IH.
Qed.

Lemma varLoop_end (n : nat) (i0 : Z) (t0 d : float) :
  snd (varLoop n i0 t0 d) = sumOf n t0 d.
Proof.
  revert i0 t0. induction n as [|n IH]; intros i0 t0; [reflexivity|].
  cbn [varLoop sumOf]. specialize (IH (i0 + 1)%Z (PrimFloat.add t0 d)).
  now destruct (varLoop n (i0 + 1) (PrimFloat.add t0 d) d).
Qed.

Lemma varLoop_nth (n : nat) (i0 : Z) (t0 d : float) (j : nat) :
  (j < n)%nat ->
  nth_error (fst (varLoop n i0 t0 d)) j
  = Some (mkVarStep (i0 + Z.of_nat j) (sumOf (S j) t0 d) d).
Proof.
  revert i0 t0 j. induction n as [|n IH]; intros i0 t0 j Hj; [lia|].
  cbn [varLoop]. specialize (IH (i0 + 1)%Z (PrimFloat.add t0 d)).
  destruct (varLoop n (i0 + 1) (PrimFloat.add t0 d) d) as [rest tEnd]. cbn [fst] in *.
  destruct j as [|j]; cbn [nth_error].
  - cbn [sumOf]. do 2 f_equal. lia.
  - rewrite IH by lia. cbn [sumOf]. do 2 f_equal. lia.
Qed.

Lemma variable_simulate_unfold (self : VariableStepSolver) (steps : Z) (dt : float) :
  simulate self steps dt
  = (fst (varLoop (Z.to_nat steps) 0 0 (pyMin dt (max_dt self))),
     (snd (varLoop (Z.to_nat steps) 0 0 (pyMin dt (max_dt self))), steps)).
Proof.
  unfold simulate. now destruct (varLoop (Z.to_nat steps) 0 0 (pyMin dt (max_dt self))).
Qed.

(** The variable-step solver keeps the step-count contract: for
    [steps >= 0] it emits exactly [steps] events, the [j]-th (from [0]) with
    index [j], with the effective increment [min(dt, max_dt)], which is never
    above [max_dt], and with the float sum of [j + 1] increments as its time;
    the summary repeats [steps] and holds the sum of all the increments. *)
Theorem variable_step_contract (self : VariableStepSolver) (steps : Z) (dt : float) :
  (0 <= steps)%Z ->
  Z.of_nat (List.length (fst (simulate self steps dt))) = steps
  /\ (forall j, (0 <= j < steps)%Z ->
        nth_error (fst (simulate self steps dt)) (Z.to_nat j)
        = Some (mkVarStep j (sumOf (S (Z.to_nat j)) 0 (pyMin dt (max_dt self)))
                          (pyMin dt (max_dt self))))
  /\ PrimFloat.ltb (max_dt self) (pyMin dt (max_dt self)) = false
  /\ snd (simulate self steps dt)
     = (sumOf (Z.to_nat steps) 0 (pyMin dt (max_dt self)), steps).
Proof.
  intros Hsteps. rewrite variable_simulate_unfold. cbn [fst snd]. repeat split.
  - rewrite varLoop_length. lia.
  - intros j Hj. rewrite varLoop_nth by lia. do 2 f_equal. lia.
  - apply pyMin_cap.
  - now rewrite varLoop_end.
Qed.

(** A negative [steps] emits nothing and leaves the time at [0.0]. *)
Lemma simulate_negative (self : VariableStepSolver) (steps : Z) (dt : float) :
  (steps <= 0)%Z -> simulate self steps dt = ([], (0%float, steps)).
Proof.
  intros H. rewrite variable_simulate_unfold.
  replace (Z.to_nat steps) with 0%nat by lia. reflexivity.
Qed.

End VariableStep.

Lemma variable_step_contract_witness :
  (0 <= 3)%Z
  /\ Z.of_nat (List.length (fst (simulate (newVariableStepSolver 0.125 0.25) 3 0.5))) = 3%Z
  /\ PrimFloat.ltb 0.25 (pyMin 0.5 0.25) = false.
Proof.
  split; [lia|].
  destruct (variable_step_contract (newVariableStepSolver 0.125 0.25) 3 0.5)
    as (Hlen & _ & Hcap & _); [lia|].
  split; [exact Hlen | exact Hcap].
Defined.

Example variable_step_capped :
  map dt (fst (simulate (newVariableStepSolver 0.125 0.25) 2 0.5)) = [0.25; 0.25]%float
  /\ map dt (fst (simulate (newVariableStepSolver 0.125 0.25) 2 0.125)) = [0.125; 0.125]%float.
Proof. split; reflexivity. Qed.

End PackFacts.
